(** * cbfsadm restore: a model of tools/cbfsadm/restore.go

    The restore command replays a gzip-compressed stream of JSON records
    against a cbfs server.  One coordinator goroutine ([restoreCommand])
    decodes the stream and hands the matching records to a pool of
    [restoreWorker] goroutines over an unbuffered channel; each worker
    calls [restoreFile] for every record it receives.

    The sequential code ([restoreFile]) is embedded as a function in a
    small writer/exit monad.  The goroutines are embedded as an executable
    small-step interleaving semantics ([exec_step]) over an explicit
    process state; a run is a list of scheduler choices.  The channel is
    unbuffered, so a send and a receive are one step; a worker that has
    received a record runs its [restoreFile] call in one later step, and
    what the transport answers is chosen by the environment at that step.
    The trace of a state records the library calls, the log lines and the
    hand-overs in the order they happened.  The wall clock is given as a
    function of the trace so far, so that a reading depends on the point
    of the run at which it is taken. *)

From Stdlib Require Import ZArith List String Ascii Bool Lia Permutation.
From Stdlib Require Import DecimalString DecimalPos DecimalZ.
From stdpp Require Import base option list strings gmap.

Local Open Scope string_scope.
Local Open Scope Z_scope.
Local Open Scope list_scope.

(** ** Go values used by the command *)

(** A Go [error] value.  [HTTPError] is what [httputil.HTTPErrorf] builds
    from a response and the format ["restore error on %v - %Sv\n%B"]: the
    path, the status and the body of the response. *)
Inductive error : Type :=
  | ErrMsg (msg : string)
  | HTTPError (path : string) (status : Z) (body : string).

(** [json.RawMessage] is a byte slice holding JSON text. *)
Definition RawMessage : Type := string.

(** [type restoreWorkItem struct { Path string; Meta *json.RawMessage }];
    the pointer may be nil. *)
Record restoreWorkItem : Type := mkItem {
  Path : string;
  Meta : option RawMessage
}.

(** The fields of [url.URL] the command touches ([Path]) or leaves as
    [cbfstool.ParseURL] produced them. *)
Record URL : Type := mkURL {
  Scheme : string;
  Host : string;
  UPath : string;
  RawQuery : string
}.

Definition set_Path (u : URL) (p : string) : URL :=
  {| Scheme := Scheme u; Host := Host u; UPath := p; RawQuery := RawQuery u |}.

(** [http.Header] is [map[string][]string]. *)
Abbreviation Header := (gmap string (list string)).

(** [http.Request], as far as [http.NewRequest] and the command fill it. *)
Record Request : Type := mkRequest {
  Method : string;
  ReqURL : string;
  Body : string;
  Hdr : Header
}.

(** What [http.DefaultClient.Do] returns: a non-nil [err] (the request did
    not get a response) or a response with its status code and body. *)
Inductive HttpResult : Type :=
  | TransportErr (err : error)
  | Response (StatusCode : Z) (RespBody : string).

(** *** [strconv.Itoa] *)

(** Decimal rendering of a Go [int]. *)
Definition Itoa (i : Z) : string := NilZero.string_of_int (Z.to_int i).

(** *** [http.Header.Set] and [Get] *)

Definition is_lower (c : ascii) : bool :=
  let n := nat_of_ascii c in (97 <=? n)%nat && (n <=? 122)%nat.
Definition is_upper (c : ascii) : bool :=
  let n := nat_of_ascii c in (65 <=? n)%nat && (n <=? 90)%nat.
Definition is_digit (c : ascii) : bool :=
  let n := nat_of_ascii c in (48 <=? n)%nat && (n <=? 57)%nat.
Definition to_upper (c : ascii) : ascii :=
  if is_lower c then ascii_of_nat (nat_of_ascii c - 32) else c.
Definition to_lower (c : ascii) : ascii :=
  if is_upper c then ascii_of_nat (nat_of_ascii c + 32) else c.

(** The bytes [net/textproto] accepts in a header field name (RFC 7230
    token characters). *)
Definition validHeaderFieldByte (c : ascii) : bool :=
  is_lower c || is_upper c || is_digit c ||
  existsb (Ascii.eqb c)
    ["!"; "#"; "$"; "%"; "&"; "'"; "*"; "+"; "-"; "."; "^"; "_"; "`"; "|"; "~"]%char.

Fixpoint canon_go (upper : bool) (s : list ascii) : list ascii :=
  match s with
  | [] => []
  | c :: s' =>
      (if upper then to_upper c else to_lower c)
        :: canon_go (Ascii.eqb c "-") s'
  end.

(** [textproto.CanonicalMIMEHeaderKey]: first letter and letters after a
    hyphen in upper case, the rest in lower case; a key with a byte that is
    not a token character is returned unchanged. *)
Definition CanonicalMIMEHeaderKey (k : string) : string :=
  let l := list_ascii_of_string k in
  if forallb validHeaderFieldByte l
  then string_of_list_ascii (canon_go true l)
  else k.

Definition Header_Set (h : Header) (k v : string) : Header :=
  <[CanonicalMIMEHeaderKey k := [v]]> h.

Definition Header_Get (h : Header) (k : string) : string :=
  match h !! CanonicalMIMEHeaderKey k with
  | Some (v :: _) => v
  | _ => EmptyString
  end.

Definition req_Header_Set (r : Request) (k v : string) : Request :=
  {| Method := Method r; ReqURL := ReqURL r; Body := Body r;
     Hdr := Header_Set (Hdr r) k v |}.

(** ** The [regexp] package, on a subset of its syntax

    The command only calls [regexp.Compile] and [Regexp.MatchString]; the
    model of the command is generic in them (see [Externals]).  The matcher
    below implements both for the part of the RE2 syntax made of literals,
    [.], [^], [$], grouping, alternation and the repetitions [*], [+] and
    [?]; it is the instance used for the default pattern and for the
    examples.  Anything else is treated as a compile error here. *)
Module MiniRE.

Inductive re : Type :=
  | Eps
  | Chr (c : ascii)
  | Any
  | Bol
  | Eol
  | Cat (a b : re)
  | Alt (a b : re)
  | Star (a : re).

(** Continuations get the rest of the text and whether the position is
    still the beginning of the text. *)
Definition kont : Type := bool -> list ascii -> bool.

Fixpoint star (step : bool -> list ascii -> kont -> bool) (fuel : nat)
    (bot : bool) (s : list ascii) (k : kont) : bool :=
  match fuel with
  | O => k bot s
  | S fuel' =>
      k bot s ||
      step bot s (fun bot' s' =>
        if (length s' <? length s)%nat then star step fuel' bot' s' k else false)
  end.

Fixpoint m (r : re) (bot : bool) (s : list ascii) (k : kont) : bool :=
  match r with
  | Eps => k bot s
  | Chr c =>
      match s with
      | x :: s' => if Ascii.eqb x c then k false s' else false
      | [] => false
      end
  | Any =>
      (* without the s flag, [.] does not match a newline *)
      match s with
      | x :: s' => if Ascii.eqb x "010" then false else k false s'
      | [] => false
      end
  | Bol => if bot then k bot s else false
  | Eol => match s with [] => k bot s | _ => false end
  | Cat a b => m a bot s (fun bot' s' => m b bot' s' k)
  | Alt a b => m a bot s k || m b bot s k
  | Star a => star (m a) (S (length s)) bot s k
  end.

(** A match may start at any position of the text. *)
Fixpoint search (r : re) (bot : bool) (s : list ascii) : bool :=
  m r bot s (fun _ _ => true) ||
  match s with
  | [] => false
  | _ :: s' => search r false s'
  end.

Definition is_rep (c : ascii) : bool :=
  existsb (Ascii.eqb c) ["*"; "+"; "?"]%char.

Definition is_literal (c : ascii) : bool :=
  negb (existsb (Ascii.eqb c)
    ["\"; "."; "+"; "*"; "?"; "("; ")"; "|"; "["; "]"; "{"; "}"; "^"; "$"]%char).

Definition is_punct (c : ascii) : bool :=
  negb (is_lower c || is_upper c || is_digit c) &&
  (nat_of_ascii c <? 128)%nat.

Fixpoint parse_alt (n : nat) (s : list ascii) {struct n}
    : option (re * list ascii) :=
  match n with
  | O => None
  | S n' =>
      match parse_cat n' s with
      | Some (a, "|"%char :: rest) =>
          match parse_alt n' rest with
          | Some (b, rest') => Some (Alt a b, rest')
          | None => None
          end
      | other => other
      end
  end
with parse_cat (n : nat) (s : list ascii) {struct n}
    : option (re * list ascii) :=
  match n with
  | O => None
  | S n' =>
      match s with
      | [] => Some (Eps, s)
      | c :: _ =>
          if Ascii.eqb c "|" || Ascii.eqb c ")" then Some (Eps, s)
          else
            match parse_rep n' s with
            | Some (a, rest) =>
                match parse_cat n' rest with
                | Some (b, rest') => Some (Cat a b, rest')
                | None => None
                end
            | None => None
            end
      end
  end
with parse_rep (n : nat) (s : list ascii) {struct n}
    : option (re * list ascii) :=
  match n with
  | O => None
  | S n' =>
      match parse_atom n' s with
      | Some (a, op :: rest) =>
          if is_rep op then
            match rest with
            | op' :: _ => if is_rep op' then None else
                Some (if Ascii.eqb op "*" then Star a
                      else if Ascii.eqb op "+" then Cat a (Star a)
                      else Alt a Eps, rest)
            | [] =>
                Some (if Ascii.eqb op "*" then Star a
                      else if Ascii.eqb op "+" then Cat a (Star a)
                      else Alt a Eps, rest)
            end
          else Some (a, op :: rest)
      | other => other
      end
  end
with parse_atom (n : nat) (s : list ascii) {struct n}
    : option (re * list ascii) :=
  match n with
  | O => None
  | S n' =>
      match s with
      | [] => None
      | c :: rest =>
          if Ascii.eqb c "(" then
            match parse_alt n' rest with
            | Some (a, ")"%char :: rest') => Some (a, rest')
            | _ => None
            end
          else if Ascii.eqb c "." then Some (Any, rest)
          else if Ascii.eqb c "^" then Some (Bol, rest)
          else if Ascii.eqb c "$" then Some (Eol, rest)
          else if Ascii.eqb c "\" then
            match rest with
            | e :: rest' => if is_punct e then Some (Chr e, rest') else None
            | [] => None
            end
          else if is_literal c then Some (Chr c, rest)
          else None
      end
  end.

Definition Compile (pat : string) : re + error :=
  let l := list_ascii_of_string pat in
  match parse_alt (4 * length l + 8) l with
  | Some (r, []) => inl r
  | _ => inr (ErrMsg ("error parsing regexp: " +:+ pat))
  end.

Definition MatchString (r : re) (s : string) : bool :=
  search r true (list_ascii_of_string s).

End MiniRE.


(** ** Flags, the backup file and the libraries the command calls *)

(** The flag set of the [restore] subcommand, with [restoreFlags.Arg(0)]. *)
Record Flags : Type := mkFlags {
  restoreForce : bool;
  restoreNoop : bool;
  restoreVerbose : bool;
  restorePat : string;
  restoreWorkers : Z;
  restoreExpire : Z;
  Arg0 : string
}.

(** The defaults declared with the flags. *)
Definition defaultFlags (fn : string) : Flags :=
  {| restoreForce := false; restoreNoop := false; restoreVerbose := false;
     restorePat := ".*"; restoreWorkers := 4; restoreExpire := -1;
     Arg0 := fn |}.

(** How the record stream of a backup file ends: [d.Decode] returns
    [io.EOF] after the last record, or some other error. *)
Inductive StreamEnd : Type :=
  | CleanEOF
  | Malformed (err : error).

(** A backup file as the command reads it: whether [gzip.NewReader] accepts
    it, the records [d.Decode] yields in order, and how the stream ends. *)
Record BackupFile : Type := mkBackup {
  gzip_err : option error;
  records : list restoreWorkItem;
  stream_end : StreamEnd
}.

(** What the process does that can be observed: log lines, diagnostics,
    library calls, and the hand-overs between the goroutines. *)
Inductive LogLine : Type :=
  | LNoop (path : string)                (* "NOOP would restore %v" *)
  | LRestored (path : string)            (* "Restored %v" *)
  | LError (path : string) (err : error) (* "Error restoring %v: %v" *)
  | LSummary (nfiles : Z) (elapsed : Z). (* "Restored %v files in %v" *)

Inductive FatalMsg : Type :=
  | FPattern (err : error)           (* "Error parsing match pattern: %v" *)
  | FOpen (err : error)              (* "Error opening restore file: %v" *)
  | FGunzip (err : error)            (* "Error uncompressing restore file: %v" *)
  | FPost (u : URL) (err : error)    (* "Error executing POST to %v - %v" *)
  | FRead (err : error)              (* "Error reading backup file: %v" *)
  | FNilDeref.                       (* runtime panic: nil pointer dereference *)

Inductive Event : Type :=
  | EvCompile (pat : string)                 (* regexp.Compile *)
  | EvOpen (fn : string)                     (* os.Open *)
  | EvLog (l : LogLine)                      (* log.Printf *)
  | EvFatal (m : FatalMsg)                   (* diagnostic of a fatal exit *)
  | EvHTTP (req : Request)                   (* http.DefaultClient.Do *)
  | EvRecv (w : nat) (ob : restoreWorkItem)  (* worker w received ob from ch *)
  | EvDone (w : nat) (ob : restoreWorkItem). (* restoreFile returned to worker w *)

(** The library functions the command depends on, by their Go names.
    The wall clock moves while the command runs: [time_Now t] is what
    [time.Now()] returns when the events so far are [t]. *)
Class Externals : Type := {
  Regexp : Type;
  regexp_Compile : string -> Regexp + error;
  MatchString : Regexp -> string -> bool;
  json_Marshal : option RawMessage -> string + error;
  cbfstool_ParseURL : string -> URL;
  URL_String : URL -> string;
  http_NewRequest_err : string -> string -> option error;
  os_Open : string -> BackupFile + error;
  time_Now : list Event -> Z
}.

(** ** Effects: calls that log, and calls that leave the process *)

(** A computation emits events and either returns or ends the process with
    an exit code. *)
Inductive Outcome (A : Type) : Type :=
  | Ret (a : A)
  | Exit (code : Z).
Arguments Ret {A} a.
Arguments Exit {A} code.

Definition M (A : Type) : Type := (list Event * Outcome A)%type.

Definition ret {A} (a : A) : M A := ([], Ret a).

Definition bind {A B} (c : M A) (k : A -> M B) : M B :=
  match c with
  | (t, Ret a) => let '(t', r) := k a in (t ++ t', r)
  | (t, Exit code) => (t, Exit code)
  end.

Notation "x <- c ;; k" := (bind c (fun x => k))
  (at level 100, c at next level, right associativity).
Notation "c ;; k" := (bind c (fun _ => k))
  (at level 100, right associativity).

Definition log_Printf (l : LogLine) : M unit := ([EvLog l], Ret tt).

(** [log.Fatalf]: [Printf] followed by [os.Exit(1)]. *)
Definition log_Fatalf {A} (m : FatalMsg) : M A := ([EvFatal m], Exit 1).

(** Modelled from the spec: [cbfstool.MaybeFatal] is defined in package
    [tools], which is not among the sources.  Following the exit behaviour
    the spec gives for fatal conditions, a non-nil [err] terminates the
    process with a non-zero outcome and the formatted diagnostic; a nil
    [err] does nothing. *)
Definition MaybeFatal (err : option error) (msg : error -> FatalMsg) : M unit :=
  match err with
  | Some e => ([EvFatal (msg e)], Exit 1)
  | None => ret tt
  end.

(** Dereferencing a nil pointer panics; an unrecovered panic ends the
    process with status 2. *)
Definition panic_nil {A} : M A := ([EvFatal FNilDeref], Exit 2).

Definition http_Do (Do : Request -> HttpResult) (req : Request) : M HttpResult :=
  ([EvHTTP req], Ret (Do req)).

Definition result_err (r : HttpResult) : option error :=
  match r with
  | TransportErr e => Some e
  | Response _ _ => None
  end.

(** The range of a Go [int] on a 64-bit platform; [nfiles++] wraps. *)
Definition wrap_int (z : Z) : Z := (z + 2 ^ 63) mod 2 ^ 64 - 2 ^ 63.

(** ** The goroutines *)

(** A worker is blocked in [for ob := range ch], runs [restoreFile] on the
    record it received, or has left the loop and run its deferred
    [wg.Done()]. *)
Inductive Worker : Type :=
  | WRecv
  | WHold (ob : restoreWorkItem)
  | WExit.

(** What the scheduler and the environment choose at each step. *)
Inductive Action : Type :=
  | ACoord                                       (* next statement of restoreCommand *)
  | ARecv (w : nat)                              (* [ch <- ob] meets worker w's receive *)
  | AWork (w : nat) (Do : Request -> HttpResult) (* worker w runs restoreFile; Do is the transport *)
  | AExit (w : nat).                             (* worker w finds ch closed and returns *)

Section Restore.

Context {X : Externals}.
Variable fl : Flags.
Variable ustr : string.

(** [http.NewRequest]: fails when the URL does not parse, otherwise a
    request with the given method, URL and body and no header yet. *)
Definition http_NewRequest (method urlStr body : string) : Request + error :=
  match http_NewRequest_err method urlStr with
  | Some e => inr e
  | None => inl {| Method := method; ReqURL := urlStr; Body := body; Hdr := ∅ |}
  end.

(** [func restoreFile(base, path string, data interface{}) error];
    [Do] stands for [http.DefaultClient.Do].  The deferred
    [res.Body.Close()] has no effect the trace shows and is left out. *)
Definition restoreFile (Do : Request -> HttpResult)
    (base path : string) (data : option RawMessage) : M (option error) :=
  if restoreNoop fl then
    log_Printf (LNoop path) ;;
    ret None
  else
    match json_Marshal data with
    | inr err => ret (Some err)
    | inl fileMetaBytes =>
        let u := cbfstool_ParseURL base in
        let u := set_Path u ("/.cbfs/backup/restore/" +:+ path) in
        match http_NewRequest "POST" (URL_String u) fileMetaBytes with
        | inr err => ret (Some err)
        | inl req =>
            let req := req_Header_Set req "Content-Type" "application/json" in
            let req := req_Header_Set req "X-CBFS-Expiration"
                         (Itoa (restoreExpire fl)) in
            res <- http_Do Do req ;;
            MaybeFatal (result_err res) (FPost u) ;;
            match res with
            | TransportErr _ => panic_nil     (* res.Body with res == nil *)
            | Response StatusCode RespBody =>
                if StatusCode =? 201 then
                  log_Printf (LRestored path) ;;
                  ret None
                else if (StatusCode =? 409) && negb (restoreForce fl) then
                  ret None
                else
                  ret (Some (HTTPError path StatusCode RespBody))
            end
        end
    end.

(** One iteration of the loop of [restoreWorker], for the record [ob]. *)
Definition restoreWorker_body (Do : Request -> HttpResult)
    (base : string) (ob : restoreWorkItem) : M unit :=
  err <- restoreFile Do base (Path ob) (Meta ob) ;;
  match err with
  | Some e => log_Printf (LError (Path ob) e)
  | None => ret tt
  end.

(** Program points of [restoreCommand]; the local variables [regex] and
    the opened file are carried from where they are assigned. *)
Inductive CoordPC : Type :=
  | PCompile                                           (* line 89 *)
  | POpen (regex : Regexp)                             (* lines 92-97 *)
  | PGunzip (regex : Regexp) (f : BackupFile)          (* lines 99-101 *)
  | PSpawn (regex : Regexp) (f : BackupFile) (i : Z)   (* lines 103-109 *)
  | PDecode (regex : Regexp) (f : BackupFile)          (* lines 111-121 *)
  | PSend (regex : Regexp) (f : BackupFile) (ob : restoreWorkItem) (* line 122 *)
  | PClose                                             (* line 131 *)
  | PWait                                              (* line 132 *)
  | PSummary                                           (* line 134 *)
  | PReturned.

Record State : Type := mkState {
  pc : CoordPC;
  start : Z;               (* start := time.Now() *)
  nfiles : Z;
  pos : nat;               (* records the decoder d has returned so far *)
  closed : bool;           (* close(ch) has run *)
  wg : Z;                  (* counter of the WaitGroup *)
  workers : list Worker;   (* the goroutines started at line 108 *)
  f_open : bool;           (* f is open: closed by the deferred f.Close() *)
  trace : list Event;
  exited : option Z        (* the process has ended with this status *)
}.

Definition init : State :=
  {| pc := PCompile; start := 0; nfiles := 0; pos := 0%nat; closed := false;
     wg := 0; workers := []; f_open := false; trace := []; exited := None |}.

Definition set_pc (p : CoordPC) (s : State) : State :=
  mkState p (start s) (nfiles s) (pos s) (closed s) (wg s) (workers s)
    (f_open s) (trace s) (exited s).
Definition set_start (t : Z) (s : State) : State :=
  mkState (pc s) t (nfiles s) (pos s) (closed s) (wg s) (workers s)
    (f_open s) (trace s) (exited s).
Definition set_nfiles (n : Z) (s : State) : State :=
  mkState (pc s) (start s) n (pos s) (closed s) (wg s) (workers s)
    (f_open s) (trace s) (exited s).
Definition set_pos (n : nat) (s : State) : State :=
  mkState (pc s) (start s) (nfiles s) n (closed s) (wg s) (workers s)
    (f_open s) (trace s) (exited s).
Definition set_closed (b : bool) (s : State) : State :=
  mkState (pc s) (start s) (nfiles s) (pos s) b (wg s) (workers s)
    (f_open s) (trace s) (exited s).
Definition set_wg (n : Z) (s : State) : State :=
  mkState (pc s) (start s) (nfiles s) (pos s) (closed s) n (workers s)
    (f_open s) (trace s) (exited s).
Definition set_workers (ws : list Worker) (s : State) : State :=
  mkState (pc s) (start s) (nfiles s) (pos s) (closed s) (wg s) ws
    (f_open s) (trace s) (exited s).
Definition set_f_open (b : bool) (s : State) : State :=
  mkState (pc s) (start s) (nfiles s) (pos s) (closed s) (wg s) (workers s)
    b (trace s) (exited s).
Definition emit (evs : list Event) (s : State) : State :=
  mkState (pc s) (start s) (nfiles s) (pos s) (closed s) (wg s) (workers s)
    (f_open s) (trace s ++ evs) (exited s).
Definition set_exited (code : Z) (s : State) : State :=
  mkState (pc s) (start s) (nfiles s) (pos s) (closed s) (wg s) (workers s)
    (f_open s) (trace s) (Some code).

(** Run a computation of the monad inside the process: its events are
    appended to the trace, and an exit ends the process where it is. *)
Definition perform {A} (c : M A) (k : A -> State -> State) (s : State) : State :=
  match c with
  | (evs, Ret a) => k a (emit evs s)
  | (evs, Exit code) => set_exited code (emit evs s)
  end.

(** [time.Since(t)] is [time.Now().Sub(t)]: the reading of the clock when
    the events so far are [tr], less [t]. *)
Definition time_Since (tr : list Event) (t : Z) : Z := time_Now tr - t.

Definition some_err {A} (r : A + error) : option error :=
  match r with inl _ => None | inr e => Some e end.

(** The next statement of [restoreCommand]; [None] when it is blocked
    (a send nobody receives, [wg.Wait()] with a positive counter) or has
    returned.  In the spawn loop [i] stays below [*restoreWorkers], so
    [i++] cannot wrap; [nfiles++] is written with its wrap-around. *)
Definition coord_step (s : State) : option State :=
  match pc s with
  | PCompile =>
      let r := regexp_Compile (restorePat fl) in
      Some (perform
        (MaybeFatal (some_err r) FPattern)
        (fun _ s' => match r with
                     | inl regex => set_pc (POpen regex) s'
                     | inr _ => s'
                     end)
        (emit [EvCompile (restorePat fl)] s))
  | POpen regex =>
      let fn := Arg0 fl in
      let s1 := set_start (time_Now (trace s)) s in
      let r := os_Open fn in
      Some (perform
        (MaybeFatal (some_err r) FOpen)
        (fun _ s' => match r with
                     | inl f => set_f_open true (set_pc (PGunzip regex f) s')
                     | inr _ => s'
                     end)
        (emit [EvOpen fn] s1))
  | PGunzip regex f =>
      Some (perform
        (MaybeFatal (gzip_err f) FGunzip)
        (fun _ s' => set_wg 0 (set_closed false (set_pc (PSpawn regex f 0) s')))
        s)
  | PSpawn regex f i =>
      if i <? restoreWorkers fl then
        Some (set_pc (PSpawn regex f (i + 1))
                (set_workers (workers s ++ [WRecv]) (set_wg (wg s + 1) s)))
      else
        Some (set_pc (PDecode regex f) (set_nfiles 0 (set_pos 0 s)))
  | PDecode regex f =>
      match records f !! pos s with
      | Some ob =>
          let s1 := set_pos (S (pos s)) s in
          if MatchString regex (Path ob) then
            Some (set_pc (PSend regex f ob)
                    (set_nfiles (wrap_int (nfiles s + 1)) s1))
          else Some s1
      | None =>
          match stream_end f with
          | CleanEOF => Some (set_pc PClose s)
          | Malformed err =>
              Some (perform (log_Fatalf (FRead err)) (fun (_ : unit) s' => s') s)
          end
      end
  | PSend _ _ _ => None
  | PClose => Some (set_pc PWait (set_closed true s))
  | PWait => if wg s =? 0 then Some (set_pc PSummary s) else None
  | PSummary =>
      Some (set_pc PReturned
              (set_f_open false
                 (emit [EvLog (LSummary (nfiles s) (time_Since (trace s) (start s)))] s)))
  | PReturned => None
  end.

(** One step of the whole process.  Nothing runs after the process has
    exited.  An iteration of a worker, the call of [restoreFile] with its
    request, the answer and the log line, is one step [AWork]: the model
    does not interleave the calls of different workers and shows no request
    whose answer is outstanding.  In the program a call can be cut short
    by an exit elsewhere; what is stated about requests is therefore
    stated of single calls and of runs that have returned, where no call
    is in flight. *)
Definition exec_step (a : Action) (s : State) : option State :=
  match exited s with
  | Some _ => None
  | None =>
      match a with
      | ACoord => coord_step s
      | ARecv w =>
          match pc s, workers s !! w with
          | PSend regex f ob, Some WRecv =>
              if closed s then None
              else Some (set_pc (PDecode regex f)
                           (set_workers (<[w := WHold ob]> (workers s))
                              (emit [EvRecv w ob] s)))
          | _, _ => None
          end
      | AWork w Do =>
          match workers s !! w with
          | Some (WHold ob) =>
              Some (perform (restoreWorker_body Do ustr ob)
                      (fun _ s' =>
                         set_workers (<[w := WRecv]> (workers s'))
                           (emit [EvDone w ob] s'))
                      s)
          | _ => None
          end
      | AExit w =>
          match workers s !! w with
          | Some WRecv =>
              if closed s
              then Some (set_workers (<[w := WExit]> (workers s))
                           (set_wg (wg s - 1) s))
              else None
          | _ => None
          end
      end
  end.

(** A run: the scheduler's choices, applied in order. *)
Fixpoint run (acts : list Action) (s : State) : option State :=
  match acts with
  | [] => Some s
  | a :: acts' =>
      match exec_step a s with
      | Some s' => run acts' s'
      | None => None
      end
  end.

Definition reachable (s : State) : Prop :=
  exists acts, run acts init = Some s.

Definition terminated (s : State) : Prop :=
  exited s <> None \/ pc s = PReturned.

(** *** What a trace shows *)

Definition recv_events (t : list Event) : list (nat * restoreWorkItem) :=
  omap (fun e => match e with EvRecv w ob => Some (w, ob) | _ => None end) t.
Definition recvs (t : list Event) : list restoreWorkItem :=
  omap (fun e => match e with EvRecv _ ob => Some ob | _ => None end) t.
Definition dones (t : list Event) : list restoreWorkItem :=
  omap (fun e => match e with EvDone _ ob => Some ob | _ => None end) t.
Definition requests (t : list Event) : list Request :=
  omap (fun e => match e with EvHTTP req => Some req | _ => None end) t.
Definition fatals (t : list Event) : list FatalMsg :=
  omap (fun e => match e with EvFatal m => Some m | _ => None end) t.
Definition restored_paths (t : list Event) : list string :=
  omap (fun e => match e with EvLog (LRestored p) => Some p | _ => None end) t.
Definition failed_paths (t : list Event) : list string :=
  omap (fun e => match e with EvLog (LError p _) => Some p | _ => None end) t.
Definition summaries (t : list Event) : list (Z * Z) :=
  omap (fun e => match e with EvLog (LSummary n d) => Some (n, d) | _ => None end) t.
(** The calls of the Init phase, in the order they were made. *)
Definition startup_calls (t : list Event) : list Event :=
  omap (fun e => match e with
                 | EvCompile _ | EvOpen _ => Some e
                 | _ => None
                 end) t.

(** The records held by workers, and the one the coordinator is sending. *)
Definition held (ws : list Worker) : list restoreWorkItem :=
  omap (fun w => match w with WHold ob => Some ob | _ => None end) ws.
Definition pending (p : CoordPC) : list restoreWorkItem :=
  match p with PSend _ _ ob => [ob] | _ => [] end.

(** The records that pass the filter. *)
Definition accepted (regex : Regexp) (l : list restoreWorkItem)
    : list restoreWorkItem :=
  List.filter (fun ob => MatchString regex (Path ob)) l.

(** The request [restoreFile] builds for a path and serialized metadata. *)
Definition restoreRequest (base path fileMetaBytes : string) : Request :=
  let u := set_Path (cbfstool_ParseURL base) ("/.cbfs/backup/restore/" +:+ path) in
  req_Header_Set
    (req_Header_Set
       {| Method := "POST"; ReqURL := URL_String u; Body := fileMetaBytes; Hdr := ∅ |}
       "Content-Type" "application/json")
    "X-CBFS-Expiration" (Itoa (restoreExpire fl)).

Definition restoreURL (base path : string) : URL :=
  set_Path (cbfstool_ParseURL base) ("/.cbfs/backup/restore/" +:+ path).

(** The possible executions of one loop iteration of a worker, read off
    the branches of [restoreFile]. *)
Inductive body_spec (Do : Request -> HttpResult) (ob : restoreWorkItem)
    : list Event -> Outcome unit -> Prop :=
  | bs_noop :
      restoreNoop fl = true ->
      body_spec Do ob [EvLog (LNoop (Path ob))] (Ret tt)
  | bs_marshal err :
      restoreNoop fl = false ->
      json_Marshal (Meta ob) = inr err ->
      body_spec Do ob [EvLog (LError (Path ob) err)] (Ret tt)
  | bs_newreq b err :
      restoreNoop fl = false ->
      json_Marshal (Meta ob) = inl b ->
      http_NewRequest_err "POST" (URL_String (restoreURL ustr (Path ob))) = Some err ->
      body_spec Do ob [EvLog (LError (Path ob) err)] (Ret tt)
  | bs_transport b e :
      restoreNoop fl = false ->
      json_Marshal (Meta ob) = inl b ->
      http_NewRequest_err "POST" (URL_String (restoreURL ustr (Path ob))) = None ->
      Do (restoreRequest ustr (Path ob) b) = TransportErr e ->
      body_spec Do ob
        [EvHTTP (restoreRequest ustr (Path ob) b);
         EvFatal (FPost (restoreURL ustr (Path ob)) e)]
        (Exit 1)
  | bs_created b body :
      restoreNoop fl = false ->
      json_Marshal (Meta ob) = inl b ->
      http_NewRequest_err "POST" (URL_String (restoreURL ustr (Path ob))) = None ->
      Do (restoreRequest ustr (Path ob) b) = Response 201 body ->
      body_spec Do ob
        [EvHTTP (restoreRequest ustr (Path ob) b); EvLog (LRestored (Path ob))]
        (Ret tt)
  | bs_conflict b body :
      restoreNoop fl = false ->
      json_Marshal (Meta ob) = inl b ->
      http_NewRequest_err "POST" (URL_String (restoreURL ustr (Path ob))) = None ->
      Do (restoreRequest ustr (Path ob) b) = Response 409 body ->
      restoreForce fl = false ->
      body_spec Do ob [EvHTTP (restoreRequest ustr (Path ob) b)] (Ret tt)
  | bs_failed b status body :
      restoreNoop fl = false ->
      json_Marshal (Meta ob) = inl b ->
      http_NewRequest_err "POST" (URL_String (restoreURL ustr (Path ob))) = None ->
      Do (restoreRequest ustr (Path ob) b) = Response status body ->
      status <> 201 ->
      status <> 409 \/ restoreForce fl = true ->
      body_spec Do ob
        [EvHTTP (restoreRequest ustr (Path ob) b);
         EvLog (LError (Path ob) (HTTPError (Path ob) status body))]
        (Ret tt).

(** *** The steps as a relation

    The same steps as [exec_step], one rule per branch of the code; the
    states after the step are written with the trace in normal form. *)
Inductive step (s : State) : Action -> State -> Prop :=
  | st_compile regex :
      pc s = PCompile ->
      regexp_Compile (restorePat fl) = inl regex ->
      step s ACoord (set_pc (POpen regex) (emit [EvCompile (restorePat fl)] s))
  | st_compile_fatal err :
      pc s = PCompile ->
      regexp_Compile (restorePat fl) = inr err ->
      step s ACoord
        (set_exited 1 (emit [EvCompile (restorePat fl); EvFatal (FPattern err)] s))
  | st_open regex f :
      pc s = POpen regex ->
      os_Open (Arg0 fl) = inl f ->
      step s ACoord
        (set_f_open true (set_pc (PGunzip regex f)
           (emit [EvOpen (Arg0 fl)] (set_start (time_Now (trace s)) s))))
  | st_open_fatal regex err :
      pc s = POpen regex ->
      os_Open (Arg0 fl) = inr err ->
      step s ACoord
        (set_exited 1
           (emit [EvOpen (Arg0 fl); EvFatal (FOpen err)] (set_start (time_Now (trace s)) s)))
  | st_gunzip regex f :
      pc s = PGunzip regex f ->
      gzip_err f = None ->
      step s ACoord (set_wg 0 (set_closed false (set_pc (PSpawn regex f 0) s)))
  | st_gunzip_fatal regex f err :
      pc s = PGunzip regex f ->
      gzip_err f = Some err ->
      step s ACoord (set_exited 1 (emit [EvFatal (FGunzip err)] s))
  | st_spawn regex f i :
      pc s = PSpawn regex f i ->
      i < restoreWorkers fl ->
      step s ACoord
        (set_pc (PSpawn regex f (i + 1))
           (set_workers (workers s ++ [WRecv]) (set_wg (wg s + 1) s)))
  | st_spawned regex f i :
      pc s = PSpawn regex f i ->
      restoreWorkers fl <= i ->
      step s ACoord (set_pc (PDecode regex f) (set_nfiles 0 (set_pos 0 s)))
  | st_decode_match regex f ob :
      pc s = PDecode regex f ->
      records f !! pos s = Some ob ->
      MatchString regex (Path ob) = true ->
      step s ACoord
        (set_pc (PSend regex f ob)
           (set_nfiles (wrap_int (nfiles s + 1)) (set_pos (S (pos s)) s)))
  | st_decode_skip regex f ob :
      pc s = PDecode regex f ->
      records f !! pos s = Some ob ->
      MatchString regex (Path ob) = false ->
      step s ACoord (set_pos (S (pos s)) s)
  | st_decode_eof regex f :
      pc s = PDecode regex f ->
      records f !! pos s = None ->
      stream_end f = CleanEOF ->
      step s ACoord (set_pc PClose s)
  | st_decode_fatal regex f err :
      pc s = PDecode regex f ->
      records f !! pos s = None ->
      stream_end f = Malformed err ->
      step s ACoord (set_exited 1 (emit [EvFatal (FRead err)] s))
  | st_close :
      pc s = PClose ->
      step s ACoord (set_pc PWait (set_closed true s))
  | st_wait :
      pc s = PWait ->
      wg s = 0 ->
      step s ACoord (set_pc PSummary s)
  | st_summary :
      pc s = PSummary ->
      step s ACoord
        (set_pc PReturned
           (set_f_open false
              (emit [EvLog (LSummary (nfiles s) (time_Since (trace s) (start s)))] s)))
  | st_recv regex f ob w :
      pc s = PSend regex f ob ->
      workers s !! w = Some WRecv ->
      closed s = false ->
      step s (ARecv w)
        (set_pc (PDecode regex f)
           (set_workers (<[w := WHold ob]> (workers s)) (emit [EvRecv w ob] s)))
  | st_work w Do ob evs :
      workers s !! w = Some (WHold ob) ->
      body_spec Do ob evs (Ret tt) ->
      step s (AWork w Do)
        (set_workers (<[w := WRecv]> (workers s)) (emit (evs ++ [EvDone w ob]) s))
  | st_work_fatal w Do ob evs :
      workers s !! w = Some (WHold ob) ->
      body_spec Do ob evs (Exit 1) ->
      step s (AWork w Do) (set_exited 1 (emit evs s))
  | st_exit w :
      workers s !! w = Some WRecv ->
      closed s = true ->
      step s (AExit w)
        (set_workers (<[w := WExit]> (workers s)) (set_wg (wg s - 1) s)).

(** *** Runs that must reach a goal *)

(** From [s], every run whose actions satisfy [A] reaches a state in [G]:
    as long as [G] does not hold some action is enabled, and all
    enabled actions lead to states with the same property. *)
Inductive inevitably (A : Action -> Prop) (G : State -> Prop) : State -> Prop :=
  | inev_here s : G s -> inevitably A G s
  | inev_step s :
      (exists a s', A a /\ exec_step a s = Some s') ->
      (forall a s', A a -> exec_step a s = Some s' -> inevitably A G s') ->
      inevitably A G s.

(** No action is enabled. *)
Definition stuck (s : State) : Prop := forall a, exec_step a s = None.

Definition any_action (a : Action) : Prop := True.

(** The transport answers every request with status 409. *)
Definition always409 (a : Action) : Prop :=
  match a with
  | AWork _ Do => forall req, exists body, Do req = Response 409 body
  | _ => True
  end.

(** What can run in a state: the coordinator, a hand-over, or a worker
    (whatever the transport answers). *)
Definition can_run (s : State) : Prop :=
  (exists s', exec_step ACoord s = Some s') \/
  (exists w s', exec_step (ARecv w) s = Some s') \/
  (exists w, forall Do, exists s', exec_step (AWork w Do) s = Some s') \/
  (exists w s', exec_step (AExit w) s = Some s').

(** A record for which [restoreFile] gets as far as the transport: the
    metadata serializes and the request can be built. *)
Definition buildable (ob : restoreWorkItem) : Prop :=
  exists b, json_Marshal (Meta ob) = inl b /\
            http_NewRequest_err "POST" (URL_String (restoreURL ustr (Path ob))) = None.

(** The Init phase succeeds and the record stream ends with [io.EOF]. *)
Definition clean_input (regex : Regexp) (f : BackupFile) : Prop :=
  regexp_Compile (restorePat fl) = inl regex /\
  os_Open (Arg0 fl) = inl f /\
  gzip_err f = None /\
  stream_end f = CleanEOF.

(** One of the three checks of the Init phase fails: the pattern does not
    compile, the file cannot be opened, or it is not a gzip stream. *)
Definition startup_failure : Prop :=
  (exists err, regexp_Compile (restorePat fl) = inr err) \/
  (exists err, os_Open (Arg0 fl) = inr err) \/
  (exists f err, os_Open (Arg0 fl) = inl f /\ gzip_err f = Some err).

(** A graceful drain would mean that, when the process has ended on a
    fatal condition, every record a worker had received has been finished. *)
Definition drained_at_exit (s : State) : Prop :=
  exited s <> None -> Permutation (recvs (trace s)) (dones (trace s)).

(** The run has completed normally: [restoreCommand] has returned. *)
Definition completed (s : State) : Prop :=
  pc s = PReturned /\ exited s = None.

(** No accepted record would be dropped if, once the command can take no
    further step, every accepted record among those decoded had been
    received by a worker. *)
Definition no_silent_drop (regex : Regexp) (f : BackupFile) (s : State) : Prop :=
  stuck s ->
  map snd (recv_events (trace s)) = accepted regex (take (pos s) (records f)).

(** The duration in the summary of [s] would be the time elapsed since the
    Running phase began if it were the reading of the clock at the summary
    less its reading in [s0], the state in which the coordinator enters the
    loop that starts the workers. *)
Definition elapsed_since_running (s0 s : State) : Prop :=
  forall t' n d,
    trace s = t' ++ [EvLog (LSummary n d)] ->
    d = time_Now t' - time_Now (trace s0).

(** *** More ways to read a trace and a pool *)

Definition noop_paths (t : list Event) : list string :=
  omap (fun e => match e with EvLog (LNoop p) => Some p | _ => None end) t.

(** The records worker [w] received, and those it finished, in order. *)
Definition recvs_of (w : nat) (t : list Event) : list restoreWorkItem :=
  omap (fun e => match e with
                 | EvRecv w' ob => if Nat.eqb w' w then Some ob else None
                 | _ => None
                 end) t.
Definition dones_of (w : nat) (t : list Event) : list restoreWorkItem :=
  omap (fun e => match e with
                 | EvDone w' ob => if Nat.eqb w' w then Some ob else None
                 | _ => None
                 end) t.

(** The record worker [w] holds, if it holds one. *)
Definition holding (ws : list Worker) (w : nat) : list restoreWorkItem :=
  match ws !! w with
  | Some (WHold ob) => [ob]
  | _ => []
  end.

(** The transport answers every request with status 201. *)
Definition always201 (a : Action) : Prop :=
  match a with
  | AWork _ Do => forall req, exists body, Do req = Response 201 body
  | _ => True
  end.

(** The transport answers every request with some status: the server is
    reachable. *)
Definition responds (a : Action) : Prop :=
  match a with
  | AWork _ Do => forall req, exists status body, Do req = Response status body
  | _ => True
  end.

(** The transport fails on every request: the server cannot be reached. *)
Definition refuses (a : Action) : Prop :=
  match a with
  | AWork _ Do => forall req, exists e, Do req = TransportErr e
  | _ => True
  end.

(** The program points between the successful [os.Open] and the return of
    [restoreCommand]. *)
Definition file_in_use (p : CoordPC) : bool :=
  match p with
  | PCompile | POpen _ | PReturned => false
  | _ => true
  end.

(** *** A bound on the length of runs *)

Definition the_records : list restoreWorkItem :=
  match os_Open (Arg0 fl) with inl f => records f | inr _ => [] end.

Definition weight (w : Worker) : nat :=
  match w with WRecv => 1 | WHold _ => 2 | WExit => 0 end.

Definition pc_fuel (p : CoordPC) (n : nat) : nat :=
  let W := Z.to_nat (restoreWorkers fl) in
  match p with
  | PCompile => 2 * W + 3 * length the_records + 8
  | POpen _ => 2 * W + 3 * length the_records + 7
  | PGunzip _ f => 2 * W + 3 * length (records f) + 6
  | PSpawn _ f i => 2 * Z.to_nat (restoreWorkers fl - i) + 3 * length (records f) + 5
  | PDecode _ f => 3 * (length (records f) - n) + 4
  | PSend _ f _ => 3 * (length (records f) - n) + 6
  | PClose => 3
  | PWait => 2
  | PSummary => 1
  | PReturned => 0
  end%nat.

Definition fuel (s : State) : nat :=
  match exited s with
  | Some _ => 0
  | None => pc_fuel (pc s) (pos s) + list_sum (map weight (workers s))
  end%nat.

(** *** Invariants of the reachable states *)

Definition regex_is (regex : Regexp) : Prop :=
  regexp_Compile (restorePat fl) = inl regex.
Definition file_is (f : BackupFile) : Prop :=
  os_Open (Arg0 fl) = inl f.

(** The accepted records among the first [n] of the stream. *)
Definition the_accepted (n : nat) : list restoreWorkItem :=
  match regexp_Compile (restorePat fl) with
  | inl regex => accepted regex (take n the_records)
  | inr _ => []
  end.

(** Phases of [restoreCommand]. *)
Definition in_startup (p : CoordPC) : bool :=
  match p with PCompile | POpen _ | PGunzip _ _ => true | _ => false end.
Definition spawning (p : CoordPC) : bool :=
  match p with PSpawn _ _ _ => true | _ => false end.
Definition after_eof (p : CoordPC) : bool :=
  match p with PClose | PWait | PSummary | PReturned => true | _ => false end.
Definition after_close (p : CoordPC) : bool :=
  match p with PWait | PSummary | PReturned => true | _ => false end.
Definition joined (p : CoordPC) : bool :=
  match p with PSummary | PReturned => true | _ => false end.

Definition is_exit (w : Worker) : bool :=
  match w with WExit => true | _ => false end.
Definition live (ws : list Worker) : nat :=
  length (List.filter (fun w => negb (is_exit w)) ws).

(** Control: where the coordinator is, and what that says about the
    pool, the channel and the WaitGroup. *)
Record control_inv (s : State) : Prop := {
  ci_pc :
    match pc s with
    | PCompile => True
    | POpen regex => regex_is regex
    | PGunzip regex f | PDecode regex f | PSend regex f _ =>
        regex_is regex /\ file_is f
    | PSpawn regex f i =>
        regex_is regex /\ file_is f /\
        0 <= i <= Z.max 0 (restoreWorkers fl) /\
        length (workers s) = Z.to_nat i
    | PClose | PWait | PSummary | PReturned =>
        (length the_records <= pos s)%nat /\
        exists regex f, regex_is regex /\ file_is f /\ stream_end f = CleanEOF
    end;
  ci_startup : in_startup (pc s) = true -> workers s = [] /\ pos s = 0%nat;
  ci_spawning : spawning (pc s) = true ->
    pos s = 0%nat /\ Forall (fun w => w = WRecv) (workers s);
  ci_pool : in_startup (pc s) = false -> spawning (pc s) = false ->
    length (workers s) = Z.to_nat (restoreWorkers fl);
  ci_closed : closed s = after_close (pc s);
  ci_noexit : closed s = false -> Forall (fun w => w <> WExit) (workers s);
  ci_wg : wg s = Z.of_nat (live (workers s));
  ci_joined : joined (pc s) = true ->
    Forall (fun w => w = WExit) (workers s) /\ exited s = None;
  ci_start :
    match pc s with
    | PCompile => exited s = None -> trace s = []
    | POpen _ => exited s = None -> trace s = [EvCompile (restorePat fl)]
    | _ => start s = time_Now [EvCompile (restorePat fl)]
    end;
  ci_exit : forall code, exited s = Some code -> code = 1
}.

(** Data: what has been decoded, counted, handed over and finished. *)
Record data_inv (s : State) : Prop := {
  di_disp : recvs (trace s) ++ pending (pc s) = the_accepted (pos s);
  di_one : map snd (recv_events (trace s)) = recvs (trace s);
  di_count : in_startup (pc s) = false -> spawning (pc s) = false ->
    nfiles s = wrap_int (Z.of_nat (length (the_accepted (pos s))));
  di_perm : Permutation (recvs (trace s)) (dones (trace s) ++ held (workers s));
  di_reqs : (length (requests (trace s)) <= length (recvs (trace s)))%nat /\
            (exited s = None ->
             length (requests (trace s)) <= length (dones (trace s)))%nat
}.

(** Log: the summary line, the startup calls and the fatal diagnostics. *)
Record log_inv (s : State) : Prop := {
  li_summary :
    match pc s with
    | PReturned =>
        exists t', trace s = t' ++ [EvLog (LSummary (nfiles s)
                                        (time_Since t' (time_Now [EvCompile (restorePat fl)])))]
                   /\ summaries t' = []
    | _ => summaries (trace s) = []
    end;
  li_calls :
    startup_calls (trace s) =
      match pc s with
      | PCompile => match exited s with
                    | None => []
                    | Some _ => [EvCompile (restorePat fl)]
                    end
      | POpen _ => match exited s with
                   | None => [EvCompile (restorePat fl)]
                   | Some _ => [EvCompile (restorePat fl); EvOpen (Arg0 fl)]
                   end
      | _ => [EvCompile (restorePat fl); EvOpen (Arg0 fl)]
      end;
  li_fatal : forall m, In m (fatals (trace s)) ->
    exited s = Some 1 /\
    match m with
    | FPattern e => pc s = PCompile /\ regexp_Compile (restorePat fl) = inr e
    | FOpen e => (exists regex, pc s = POpen regex) /\ os_Open (Arg0 fl) = inr e
    | FGunzip e => exists regex f, pc s = PGunzip regex f /\ gzip_err f = Some e
    | FRead e => exists regex f, pc s = PDecode regex f /\ stream_end f = Malformed e
    | FPost _ _ => in_startup (pc s) = false
    | FNilDeref => False
    end;
  li_exit : exited s <> None -> fatals (trace s) <> []
}.

End Restore.

(** ** A concrete world for the examples *)

Definition threeRecords : BackupFile :=
  {| gzip_err := None;
     records := [mkItem "a" (Some "[1]"); mkItem "b" None; mkItem "c" (Some "[3]")];
     stream_end := CleanEOF |}.

Definition brokenStream : BackupFile :=
  {| gzip_err := None;
     records := [mkItem "a" (Some "[1]")];
     stream_end := Malformed (ErrMsg "invalid character") |}.

Definition notGzip : BackupFile :=
  {| gzip_err := Some (ErrMsg "gzip: invalid header");
     records := [];
     stream_end := CleanEOF |}.

(** The libraries of the examples: the subset matcher for [regexp], a
    [json.Marshal] that returns the raw message (and [null] for a nil
    pointer), three files, and a clock that reads 100 when the process
    starts and advances by 1 with every event. *)
Definition sampleWorld : Externals :=
  {| Regexp := MiniRE.re;
     regexp_Compile := MiniRE.Compile;
     MatchString := MiniRE.MatchString;
     json_Marshal := fun d => inl (default "null" d);
     cbfstool_ParseURL := fun s => mkURL "http" s "/" EmptyString;
     URL_String := fun u => Scheme u +:+ "://" +:+ Host u +:+ UPath u;
     http_NewRequest_err := fun _ _ => None;
     os_Open := fun fn =>
       if String.eqb fn "backup.gz" then inl threeRecords
       else if String.eqb fn "broken.gz" then inl brokenStream
       else if String.eqb fn "text.txt" then inl notGzip
       else inr (ErrMsg "no such file or directory");
     time_Now := fun t => 100 + Z.of_nat (length t) |}.

(** Any libraries, with the subset matcher as their [regexp] package. *)
Definition withMiniRE (X : Externals) : Externals :=
  {| Regexp := MiniRE.re;
     regexp_Compile := MiniRE.Compile;
     MatchString := MiniRE.MatchString;
     json_Marshal := @json_Marshal X;
     cbfstool_ParseURL := @cbfstool_ParseURL X;
     URL_String := @URL_String X;
     http_NewRequest_err := @http_NewRequest_err X;
     os_Open := @os_Open X;
     time_Now := @time_Now X |}.

Definition created : Request -> HttpResult := fun _ => Response 201 "ok".
Definition conflict : Request -> HttpResult := fun _ => Response 409 "exists".
Definition refused : Request -> HttpResult :=
  fun _ => TransportErr (ErrMsg "connection refused").

(** The flags and schedules of the examples. *)
Definition sampleBase : string := "cbfs:8484".

(** One worker, and a pattern that accepts [a] and [c] but not [b]. *)
Definition flagsAC : Flags :=
  {| restoreForce := false; restoreNoop := false; restoreVerbose := false;
     restorePat := "^a|c$"; restoreWorkers := 1; restoreExpire := -1;
     Arg0 := "backup.gz" |}.

Definition flagsForce : Flags :=
  {| restoreForce := true; restoreNoop := false; restoreVerbose := false;
     restorePat := ".*"; restoreWorkers := 1; restoreExpire := 3600;
     Arg0 := "backup.gz" |}.

Definition flagsNoop : Flags :=
  {| restoreForce := true; restoreNoop := true; restoreVerbose := false;
     restorePat := "^a"; restoreWorkers := 4; restoreExpire := 3600;
     Arg0 := "backup.gz" |}.

Definition flagsNoWorkers : Flags :=
  {| restoreForce := false; restoreNoop := false; restoreVerbose := false;
     restorePat := ".*"; restoreWorkers := 0; restoreExpire := -1;
     Arg0 := "backup.gz" |}.

(** The Init phase, one worker started, the decode loop entered. *)
Definition toDecodeLoop : list Action := [ACoord; ACoord; ACoord; ACoord; ACoord].

(** Record [a] decoded and handed to worker 0. *)
Definition toFirstHandOver : list Action := toDecodeLoop ++ [ACoord; ARecv 0%nat].

(** A whole run with one worker over three records, of which the pattern of
    [flagsAC] skips the second. *)
Definition wholeRunAC (Do : Request -> HttpResult) : list Action :=
  toFirstHandOver ++
  [ACoord; AWork 0%nat Do; ACoord; ARecv 0%nat; AWork 0%nat Do;
   ACoord; ACoord; AExit 0%nat; ACoord; ACoord].

(** A whole run with one worker that accepts the three records. *)
Definition wholeRunAll (Do : Request -> HttpResult) : list Action :=
  toFirstHandOver ++
  [AWork 0%nat Do; ACoord; ARecv 0%nat; AWork 0%nat Do;
   ACoord; ARecv 0%nat; AWork 0%nat Do;
   ACoord; ACoord; AExit 0%nat; ACoord; ACoord].

(** With the default flags on the broken stream: four workers are started,
    worker 2 receives the only record, then the coordinator decodes again. *)
Definition toMalformedRecord : list Action :=
  [ACoord; ACoord; ACoord; ACoord; ACoord; ACoord; ACoord; ACoord;
   ACoord; ARecv 2%nat].

(** The state a schedule leads to ([init] if it cannot be followed). *)
Definition stateAfter (fl : Flags) (acts : list Action) : @State sampleWorld :=
  default (@init sampleWorld) (@run sampleWorld fl sampleBase acts (@init sampleWorld)).

(** Whether a schedule can be followed to its end. *)
Definition followed (fl : Flags) (acts : list Action) : bool :=
  match @run sampleWorld fl sampleBase acts (@init sampleWorld) with
  | Some _ => true
  | None => false
  end.

(** The states of the examples. *)
Definition brokenFlags : Flags := defaultFlags "broken.gz".
Definition atMalformed : @State sampleWorld := stateAfter brokenFlags toMalformedRecord.
Definition afterMalformed : @State sampleWorld :=
  stateAfter brokenFlags (toMalformedRecord ++ [ACoord]).

Definition itemA : restoreWorkItem := mkItem "a" (Some "[1]").
Definition itemB : restoreWorkItem := mkItem "b" None.
Definition itemC : restoreWorkItem := mkItem "c" (Some "[3]").

(** What [MiniRE.Compile] makes of the patterns of the examples. *)
Definition patternAC : MiniRE.re :=
  MiniRE.Alt
    (MiniRE.Cat MiniRE.Bol (MiniRE.Cat (MiniRE.Chr "a") MiniRE.Eps))
    (MiniRE.Cat (MiniRE.Chr "c") (MiniRE.Cat MiniRE.Eol MiniRE.Eps)).
Definition dotStar : MiniRE.re := MiniRE.Cat (MiniRE.Star MiniRE.Any) MiniRE.Eps.

Definition flagsSkip : Flags :=
  {| restoreForce := false; restoreNoop := false; restoreVerbose := false;
     restorePat := ".*"; restoreWorkers := 1; restoreExpire := -1;
     Arg0 := "backup.gz" |}.

Definition flagsText : Flags := defaultFlags "text.txt".

Definition serverError : Request -> HttpResult := fun _ => Response 500 "boom".

(** Worker 0 holds record [a]; the coordinator is about to decode [b]. *)
Definition holdingA : @State sampleWorld := stateAfter flagsAC toFirstHandOver.
(** The ends of the whole runs. *)
Definition doneAC : @State sampleWorld := stateAfter flagsAC (wholeRunAC created).
Definition doneForce : @State sampleWorld := stateAfter flagsForce (wholeRunAll conflict).
Definition doneSkip : @State sampleWorld := stateAfter flagsSkip (wholeRunAll conflict).
(** After the three steps of the Init phase on a file that is not gzip. *)
Definition afterBadGzip : @State sampleWorld := stateAfter flagsText [ACoord; ACoord; ACoord].
(** Without workers, at the first send. *)
Definition atFirstSend : @State sampleWorld := stateAfter flagsNoWorkers toDecodeLoop.

Definition sampleRequest : Request := @restoreRequest sampleWorld flagsAC sampleBase "a" "[1]".

(** The Running phase begins: the file is open, no worker is started yet. *)
Definition runningBegins : @State sampleWorld := stateAfter flagsAC [ACoord; ACoord; ACoord].
(** Worker 0 holds [a] and the coordinator is sending [b] when the POST for
    [a] is refused. *)
Definition pendingAtExit : @State sampleWorld :=
  stateAfter flagsSkip (toFirstHandOver ++ [ACoord; AWork 0%nat refused]).

(** More answers of the server, and the ends of more whole runs. *)
Definition okNotCreated : Request -> HttpResult := fun _ => Response 200 "ok".

Definition doneCreated : @State sampleWorld := stateAfter flagsSkip (wholeRunAll created).
Definition doneErrors : @State sampleWorld := stateAfter flagsSkip (wholeRunAll serverError).

(** The first request of a run meets a server that cannot be reached. *)
Definition firstRequestRefused : list Action := toFirstHandOver ++ [AWork 0%nat refused].
Definition afterRefusal : @State sampleWorld := stateAfter flagsSkip firstRequestRefused.

(** A dry run with four workers: worker 1 is handed the only record that
    [^a] accepts, and the server would refuse every connection. *)
Definition noopRun : list Action :=
  toDecodeLoop ++
  [ACoord; ACoord; ACoord; ACoord; ARecv 1%nat; AWork 1%nat refused;
   ACoord; ACoord; ACoord; ACoord;
   AExit 0%nat; AExit 1%nat; AExit 2%nat; AExit 3%nat; ACoord; ACoord].
Definition doneNoop : @State sampleWorld := stateAfter flagsNoop noopRun.
Definition patternA : MiniRE.re :=
  MiniRE.Cat MiniRE.Bol (MiniRE.Cat (MiniRE.Chr "a") MiniRE.Eps).

(** No record matches [^z], and no worker is started. *)
Definition flagsNothing : Flags :=
  {| restoreForce := false; restoreNoop := false; restoreVerbose := false;
     restorePat := "^z"; restoreWorkers := 0; restoreExpire := -1;
     Arg0 := "backup.gz" |}.
Definition patternZ : MiniRE.re :=
  MiniRE.Cat MiniRE.Bol (MiniRE.Cat (MiniRE.Chr "z") MiniRE.Eps).
Definition doneNothing : @State sampleWorld :=
  stateAfter flagsNothing (List.repeat ACoord 11).

(** Libraries whose [json.Marshal] rejects a raw message that is cut
    short, and a backup that holds one. *)
Definition cutShort : restoreWorkItem := mkItem "d" (Some "[1,").
Definition cutShortFile : BackupFile :=
  {| gzip_err := None; records := [cutShort]; stream_end := CleanEOF |}.
Definition strictWorld : Externals :=
  {| Regexp := MiniRE.re;
     regexp_Compile := MiniRE.Compile;
     MatchString := MiniRE.MatchString;
     json_Marshal := fun d =>
       match d with
       | Some m => if String.eqb m "[1," then inr (ErrMsg "unexpected end of JSON input")
                   else inl m
       | None => inl "null"
       end;
     cbfstool_ParseURL := fun s => mkURL "http" s "/" EmptyString;
     URL_String := fun u => Scheme u +:+ "://" +:+ Host u +:+ UPath u;
     http_NewRequest_err := fun _ _ => None;
     os_Open := fun _ => inl cutShortFile;
     time_Now := fun t => 100 + Z.of_nat (length t) |}.
Definition holdingCutShort : @State strictWorld :=
  default (@init strictWorld)
    (@run strictWorld flagsSkip sampleBase toFirstHandOver (@init strictWorld)).

(** * Properties *)

(** ** Library facts *)

Lemma wrap_int_small z : - 2 ^ 63 <= z < 2 ^ 63 -> wrap_int z = z.
Proof. intros Hz. unfold wrap_int. rewrite Z.mod_small; lia. Qed.

Lemma wrap_int_succ z : wrap_int (wrap_int z + 1) = wrap_int (z + 1).
Proof.
  unfold wrap_int.
  replace ((z + 2 ^ 63) mod 2 ^ 64 - 2 ^ 63 + 1 + 2 ^ 63)
    with ((z + 2 ^ 63) mod 2 ^ 64 + 1) by lia.
  rewrite Zplus_mod_idemp_l. f_equal. f_equal. lia.
Qed.

(** [Itoa] is the decimal rendering: reading it back gives the number. *)
Lemma Itoa_read_back z :
  option_map Z.of_int (NilZero.int_of_string (Itoa z)) = Some z.
Proof.
  unfold Itoa. rewrite NilZero.isi.
  - simpl. now rewrite DecimalZ.of_to.
  - destruct z; simpl; try discriminate.
    intros [= H]. now apply DecimalPos.Unsigned.to_uint_nonnil in H.
  - destruct z; simpl; try discriminate.
    intros [= H]. now apply DecimalPos.Unsigned.to_uint_nonnil in H.
Qed.

Lemma MiniRE_dot_star_matches p :
  MiniRE.MatchString (MiniRE.Cat (MiniRE.Star MiniRE.Any) MiniRE.Eps) p = true.
Proof.
  unfold MiniRE.MatchString.
  destruct (list_ascii_of_string p); reflexivity.
Qed.

(** ** Pools updated in place *)

Lemma live_app ws ws' : live (ws ++ ws') = (live ws + live ws')%nat.
Proof. unfold live. now rewrite List.filter_app, length_app. Qed.

Lemma live_insert ws (w : nat) a b :
  ws !! w = Some a ->
  (live (<[w := b]> ws) + (if is_exit a then 0 else 1) =
   live ws + (if is_exit b then 0 else 1))%nat.
Proof.
  revert w. induction ws as [|x ws IH]; intros [|w] Hw; try discriminate.
  - injection Hw as ->. unfold live. simpl. destruct (is_exit a), (is_exit b); simpl; lia.
  - specialize (IH w Hw). unfold live in *. simpl.
    destruct (is_exit x); simpl; lia.
Qed.

Lemma live_0_all_exit ws : live ws = 0%nat -> Forall (fun w => w = WExit) ws.
Proof.
  induction ws as [|x ws IH]; intros H; constructor.
  - destruct x; try reflexivity; discriminate.
  - apply IH. unfold live in *. simpl in H. destruct (is_exit x); [exact H | discriminate].
Qed.

Lemma all_exit_live_0 ws : Forall (fun w => w = WExit) ws -> live ws = 0%nat.
Proof. induction 1 as [|x ws -> _ IH]; [reflexivity | exact IH]. Qed.

Lemma weight_insert ws (w : nat) a b :
  ws !! w = Some a ->
  (list_sum (map weight (<[w := b]> ws)) + weight a =
   list_sum (map weight ws) + weight b)%nat.
Proof.
  revert w. induction ws as [|x ws IH]; intros [|w] Hw; try discriminate.
  - injection Hw as ->. simpl. lia.
  - specialize (IH w Hw). simpl. lia.
Qed.

Lemma held_app ws ws' : held (ws ++ ws') = held ws ++ held ws'.
Proof. apply omap_app. Qed.

Lemma held_insert_hold ws (w : nat) ob :
  ws !! w = Some WRecv -> Permutation (held (<[w := WHold ob]> ws)) (ob :: held ws).
Proof.
  revert w. induction ws as [|x ws IH]; intros [|w] Hw; try discriminate.
  - injection Hw as ->. reflexivity.
  - specialize (IH w Hw). simpl. unfold held in *. simpl.
    destruct x; simpl; auto.
    rewrite IH. apply perm_swap.
Qed.

Lemma held_insert_recv ws (w : nat) ob :
  ws !! w = Some (WHold ob) -> Permutation (ob :: held (<[w := WRecv]> ws)) (held ws).
Proof.
  revert w. induction ws as [|x ws IH]; intros [|w] Hw; try discriminate.
  - injection Hw as ->. reflexivity.
  - specialize (IH w Hw). simpl. unfold held in *. simpl.
    destruct x; simpl; auto.
    rewrite <- IH. apply perm_swap.
Qed.

Lemma held_insert_exit ws (w : nat) :
  ws !! w = Some WRecv -> held (<[w := WExit]> ws) = held ws.
Proof.
  revert w. induction ws as [|x ws IH]; intros [|w] Hw; try discriminate.
  - injection Hw as ->. reflexivity.
  - specialize (IH w Hw). simpl. unfold held in *. simpl.
    destruct x; simpl; congruence.
Qed.

Lemma held_all_exit ws : Forall (fun w => w = WExit) ws -> held ws = [].
Proof. induction 1 as [|x ws -> _ IH]; [reflexivity | exact IH]. Qed.

Lemma held_some ws (w : nat) ob : ws !! w = Some (WHold ob) -> held ws <> [].
Proof.
  revert w. induction ws as [|x ws IH]; intros [|w] Hw; try discriminate.
  - injection Hw as ->. discriminate.
  - specialize (IH w Hw). unfold held in *. simpl. destruct x; simpl; auto; discriminate.
Qed.

Section Proofs.

Context {X : Externals}.
Variable fl : Flags.
Variable ustr : string.


(** *** Projections of traces *)

Lemma recvs_app t t' : recvs (t ++ t') = recvs t ++ recvs t'.
Proof. apply omap_app. Qed.
Lemma recv_events_app t t' : recv_events (t ++ t') = recv_events t ++ recv_events t'.
Proof. apply omap_app. Qed.
Lemma dones_app t t' : dones (t ++ t') = dones t ++ dones t'.
Proof. apply omap_app. Qed.
Lemma requests_app t t' : requests (t ++ t') = requests t ++ requests t'.
Proof. apply omap_app. Qed.
Lemma fatals_app t t' : fatals (t ++ t') = fatals t ++ fatals t'.
Proof. apply omap_app. Qed.
Lemma restored_paths_app t t' :
  restored_paths (t ++ t') = restored_paths t ++ restored_paths t'.
Proof. apply omap_app. Qed.
Lemma failed_paths_app t t' :
  failed_paths (t ++ t') = failed_paths t ++ failed_paths t'.
Proof. apply omap_app. Qed.
Lemma summaries_app t t' : summaries (t ++ t') = summaries t ++ summaries t'.
Proof. apply omap_app. Qed.
Lemma startup_calls_app t t' :
  startup_calls (t ++ t') = startup_calls t ++ startup_calls t'.
Proof. apply omap_app. Qed.

(** *** Runs *)

Lemma run_app acts acts' s :
  run fl ustr (acts ++ acts') s = run fl ustr acts s ≫= run fl ustr acts'.
Proof.
  revert s. induction acts as [|a acts IH]; intros s; simpl; [reflexivity|].
  destruct (exec_step fl ustr a s); simpl; auto.
Qed.

Lemma reachable_init : reachable fl ustr init.
Proof. exists []. reflexivity. Qed.

Lemma reachable_step s a s' :
  reachable fl ustr s -> exec_step fl ustr a s = Some s' -> reachable fl ustr s'.
Proof.
  intros [acts Hacts] Hstep. exists (acts ++ [a]).
  rewrite run_app, Hacts. simpl. now rewrite Hstep.
Qed.

(** Induction over the runs, from their last step. *)
Lemma run_ind_last (P : list Action -> State -> Prop) :
  P [] init ->
  (forall acts s a s',
      run fl ustr acts init = Some s -> P acts s -> exec_step fl ustr a s = Some s' ->
      P (acts ++ [a]) s') ->
  forall acts s, run fl ustr acts init = Some s -> P acts s.
Proof.
  intros Hinit Hstep acts.
  induction acts as [|a acts IH] using rev_ind; intros s Hrun.
  - simpl in Hrun. injection Hrun as <-. exact Hinit.
  - rewrite run_app in Hrun.
    destruct (run fl ustr acts init) as [s0|] eqn:H0; simpl in Hrun; [|discriminate].
    destruct (exec_step fl ustr a s0) as [s1|] eqn:H1; [|discriminate].
    simpl in Hrun. injection Hrun as <-. eauto.
Qed.

Lemma reachable_ind (P : State -> Prop) :
  P init ->
  (forall s a s', reachable fl ustr s -> P s -> exec_step fl ustr a s = Some s' -> P s') ->
  forall s, reachable fl ustr s -> P s.
Proof.
  intros Hinit Hstep s [acts Hrun].
  revert s Hrun. apply (run_ind_last (fun _ s => P s)); [exact Hinit|].
  intros acts' s a s' Hr HP Hs. apply (Hstep s a s'); auto. now exists acts'.
Qed.

(** *** One loop iteration of a worker *)

Lemma restoreWorker_body_spec Do ob :
  exists evs r,
    restoreWorker_body fl Do ustr ob = (evs, r) /\ body_spec fl ustr Do ob evs r.
Proof.
  unfold restoreWorker_body, restoreFile.
  destruct (restoreNoop fl) eqn:Hn.
  { do 2 eexists. split; [reflexivity|]. now constructor. }
  destruct (json_Marshal (Meta ob)) as [b|err] eqn:Hm.
  2:{ do 2 eexists. split; [reflexivity|]. now constructor. }
  unfold http_NewRequest.
  fold (restoreURL ustr (Path ob)).
  destruct (http_NewRequest_err "POST" (URL_String (restoreURL ustr (Path ob))))
    as [err|] eqn:Hr.
  { do 2 eexists. split; [reflexivity|]. now apply bs_newreq with b. }
  unfold http_Do, bind, MaybeFatal.
  destruct (Do _) as [e|status body] eqn:Hd; simpl.
  { do 2 eexists. split; [reflexivity|]. now apply bs_transport. }
  destruct (status =? 201) eqn:H201; simpl.
  { apply Z.eqb_eq in H201 as ->.
    do 2 eexists. split; [reflexivity|]. now apply bs_created with body. }
  apply Z.eqb_neq in H201.
  destruct (status =? 409) eqn:H409; simpl.
  - apply Z.eqb_eq in H409 as ->.
    destruct (restoreForce fl) eqn:Hf; simpl.
    + do 2 eexists. split; [reflexivity|]. apply bs_failed; auto.
    + do 2 eexists. split; [reflexivity|]. now apply bs_conflict with body.
  - apply Z.eqb_neq in H409.
    do 2 eexists. split; [reflexivity|]. apply bs_failed; auto.
Qed.

Lemma body_spec_outcome Do ob evs r :
  body_spec fl ustr Do ob evs r ->
  (r = Ret tt /\ fatals evs = []) \/
  (r = Exit 1 /\ exists e, fatals evs = [FPost (restoreURL ustr (Path ob)) e]).
Proof. destruct 1; eauto. Qed.

Lemma body_spec_silent Do ob evs r :
  body_spec fl ustr Do ob evs r ->
  recvs evs = [] /\ recv_events evs = [] /\ dones evs = [] /\
  summaries evs = [] /\ startup_calls evs = [] /\
  (length (requests evs) <= 1)%nat.
Proof. destruct 1; simpl; repeat split; lia. Qed.

(** *** [exec_step] and the step relation agree *)

Lemma emit_nil s : emit [] s = s.
Proof. destruct s. unfold emit. simpl. now rewrite app_nil_r. Qed.

Lemma emit_emit evs evs' s : emit evs' (emit evs s) = emit (evs ++ evs') s.
Proof. destruct s. unfold emit. simpl. now rewrite app_assoc. Qed.

Lemma exec_step_sound a s s' :
  exec_step fl ustr a s = Some s' -> exited s = None /\ step fl ustr s a s'.
Proof.
  unfold exec_step. intros H.
  destruct (exited s) eqn:Hex; [discriminate|]. split; [reflexivity|].
  destruct a as [|w|w Do|w].
  - unfold coord_step in H.
    destruct (pc s) eqn:Hpc.
    + destruct (regexp_Compile (restorePat fl)) eqn:Hc;
        injection H as <-; unfold perform; simpl;
        rewrite ?emit_emit, ?emit_nil; simpl; econstructor; eauto.
    + destruct (os_Open (Arg0 fl)) eqn:Hc;
        injection H as <-; unfold perform; simpl;
        rewrite ?emit_emit, ?emit_nil; simpl; econstructor; eauto.
    + destruct (gzip_err f) eqn:Hc;
        injection H as <-; unfold perform; simpl;
        rewrite ?emit_emit, ?emit_nil; simpl; econstructor; eauto.
    + destruct (i <? restoreWorkers fl) eqn:Hi; injection H as <-.
      * apply Z.ltb_lt in Hi. econstructor; eauto.
      * apply Z.ltb_ge in Hi. econstructor; eauto.
    + destruct (records f !! pos s) as [ob|] eqn:Hl.
      * destruct (MatchString regex (Path ob)) eqn:Hm; injection H as <-;
          econstructor; eauto.
      * destruct (stream_end f) eqn:He; injection H as <-;
          unfold perform; simpl; econstructor; eauto.
    + discriminate.
    + injection H as <-. now constructor.
    + destruct (wg s =? 0) eqn:Hw; [|discriminate]. injection H as <-.
      apply Z.eqb_eq in Hw. now constructor.
    + injection H as <-. now constructor.
    + discriminate.
  - destruct (pc s) eqn:Hpc; try discriminate.
    destruct (workers s !! w) as [[]|] eqn:Hw; try discriminate.
    destruct (closed s) eqn:Hc; [discriminate|]. injection H as <-.
    econstructor; eauto.
  - destruct (workers s !! w) as [[]|] eqn:Hw; try discriminate.
    injection H as <-.
    destruct (restoreWorker_body_spec Do ob) as (evs & r & Hb & Hspec).
    rewrite Hb. unfold perform.
    destruct (body_spec_outcome _ _ _ _ Hspec) as [[-> _]|[-> _]].
    + rewrite emit_emit. simpl. now apply st_work.
    + now apply st_work_fatal with ob.
  - destruct (workers s !! w) as [[]|] eqn:Hw; try discriminate.
    destruct (closed s) eqn:Hc; [|discriminate]. injection H as <-.
    now constructor.
Qed.

(** *** The control invariant *)

Lemma the_records_file f : file_is fl f -> the_records fl = records f.
Proof. unfold file_is, the_records. now intros ->. Qed.

Lemma lookup_all (P : Worker -> Prop) ws (w : nat) x :
  Forall P ws -> ws !! w = Some x -> P x.
Proof. intros H Hw. eapply Forall_lookup_1; eauto. Qed.

(** A worker can hold a record only between the start of the decode loop
    and the return of [wg.Wait()]. *)
Lemma holding_phase s (w : nat) ob :
  control_inv fl s -> workers s !! w = Some (WHold ob) ->
  in_startup (pc s) = false /\ spawning (pc s) = false /\ joined (pc s) = false.
Proof.
  intros [_ Hst Hsp _ _ _ _ Hj _ _] Hw.
  repeat split.
  - destruct (in_startup (pc s)); auto.
    destruct Hst as [Hws _]; auto. rewrite Hws in Hw. discriminate.
  - destruct (spawning (pc s)); auto.
    destruct Hsp as [_ Hall]; auto.
    pose proof (lookup_all _ _ _ _ Hall Hw). discriminate.
  - destruct (joined (pc s)); auto.
    destruct Hj as [Hall _]; auto.
    pose proof (lookup_all _ _ _ _ Hall Hw). discriminate.
Qed.

Lemma control_inv_init : control_inv fl init.
Proof.
  constructor; simpl; auto; try discriminate.
Qed.

(** The clock is read once, when the pattern has been compiled and nothing
    else has happened. *)
Lemma start_step s a s' :
  control_inv fl s -> exited s = None -> step fl ustr s a s' ->
  match pc s' with
  | PCompile => exited s' = None -> trace s' = []
  | POpen _ => exited s' = None -> trace s' = [EvCompile (restorePat fl)]
  | _ => start s' = time_Now [EvCompile (restorePat fl)]
  end.
Proof.
  intros Hci Hex Hstep.
  pose proof (ci_start fl s Hci) as Hs.
  pose proof (ci_closed fl s Hci) as Hcl.
  destruct Hstep as [ regex Hp Hc | err Hp Hc | regex f Hp Hc | regex err Hp Hc
                    | regex f Hp Hc | regex f err Hp Hc
                    | regex f i Hp Hi | regex f i Hp Hi
                    | regex f ob Hp Hl Hm | regex f ob Hp Hl Hm
                    | regex f Hp Hl He' | regex f err Hp Hl He'
                    | Hp | Hp Hw0 | Hp
                    | regex f ob w Hp Hw Hc
                    | w Do ob evs Hw Hb | w Do ob evs Hw Hb | w Hw Hc ].
  all: try (rewrite Hp in *; simpl in *; rewrite ?Hp; simpl;
            try discriminate; try (now rewrite ?Hs); auto; fail).
  - destruct (holding_phase s w ob Hci Hw) as (Hns & _).
    simpl. destruct (pc s); try discriminate; exact Hs.
  - destruct (holding_phase s w ob Hci Hw) as (Hns & _).
    simpl. destruct (pc s); try discriminate; exact Hs.
  - rewrite Hc in Hcl. simpl. destruct (pc s); try discriminate; exact Hs.
Qed.

Lemma control_inv_step s a s' :
  control_inv fl s -> exited s = None -> step fl ustr s a s' -> control_inv fl s'.
Proof.
  intros Hci Hex Hstep.
  pose proof (start_step s a s' Hci Hex Hstep) as Hs'.
  destruct Hci as [Hpc Hst Hsp Hpool Hcl Hne Hwg Hj Hs He].
  destruct Hstep as [ regex Hp Hc | err Hp Hc | regex f Hp Hc | regex err Hp Hc
                    | regex f Hp Hc | regex f err Hp Hc
                    | regex f i Hp Hi | regex f i Hp Hi
                    | regex f ob Hp Hl Hm | regex f ob Hp Hl Hm
                    | regex f Hp Hl He' | regex f err Hp Hl He'
                    | Hp | Hp Hw0 | Hp
                    | regex f ob w Hp Hw Hc
                    | w Do ob evs Hw Hb | w Do ob evs Hw Hb | w Hw Hc ].
  all: try (rewrite Hp in *; simpl in *).
  all: try (constructor; simpl; try rewrite Hp; simpl; auto;
            try discriminate; try tauto; try congruence; fail).
  - (* gzip.NewReader succeeded *)
    destruct Hst as [Hws Hpos]; [reflexivity|].
    constructor; simpl; auto; try discriminate; rewrite ?Hws; simpl;
      repeat split; auto; try tauto; try lia.
  - (* one more worker *)
    destruct Hpc as (Hre & Hf & Hi' & Hlen).
    destruct Hsp as [Hpos Hall]; [reflexivity|].
    constructor; simpl; auto; try discriminate.
    + repeat split; auto; try lia; try (rewrite length_app, Hlen; simpl; lia).
    + intros _. split; [exact Hpos|]. apply Forall_app. split; auto.
    + intros Hc. apply Forall_app; split; auto; repeat constructor; discriminate.
    + rewrite live_app, Hwg. change (live [WRecv]) with 1%nat. lia.
  - (* all workers started *)
    destruct Hpc as (Hre & Hf & Hi' & Hlen).
    constructor; simpl; auto; try discriminate.
    intros _ _. rewrite Hlen. lia.
  - (* io.EOF *)
    destruct Hpc as (Hre & Hf).
    constructor; simpl; auto; try discriminate.
    split; [|eauto]. rewrite (the_records_file f Hf).
    now apply lookup_ge_None.
  - (* wg.Wait() returns *)
    constructor; simpl; auto; try discriminate.
    intros _. split; [|exact Hex]. apply live_0_all_exit. lia.
  - (* a worker receives *)
    constructor; simpl; auto; try discriminate.
    + intros _ _. rewrite length_insert. auto.
    + intros Hc'. apply Forall_insert; auto; discriminate.
    + pose proof (live_insert _ _ _ (WHold ob) Hw) as Hl. simpl in Hl. lia.
  - (* restoreFile returned *)
    destruct (holding_phase s w ob) as (Hns & Hnsp & Hnj); auto.
    { now constructor. }
    assert (Hlive : live (<[w:=WRecv]> (workers s)) = live (workers s)).
    { pose proof (live_insert _ _ _ WRecv Hw) as Hl. simpl in Hl. lia. }
    constructor; simpl; rewrite ?length_insert, ?Hlive; auto; try congruence.
    intros Hc'. apply Forall_insert; auto; discriminate.
  - (* fatal POST *)
    destruct (holding_phase s w ob) as (Hns & Hnsp & Hnj); auto.
    { now constructor. }
    constructor; simpl; auto; try congruence.
  - (* a worker returns *)
    rewrite Hc in Hcl.
    assert (Hpw : pc s = PWait).
    { destruct (pc s) eqn:Hp; try discriminate; auto;
        destruct Hj as [Hall _]; auto;
        pose proof (lookup_all _ _ _ _ Hall Hw); discriminate. }
    rewrite Hpw in *. simpl in *.
    pose proof (live_insert _ _ _ WExit Hw) as Hl. simpl in Hl.
    constructor; simpl; rewrite ?Hpw; simpl; rewrite ?length_insert; auto;
      try discriminate; try congruence; try lia.
Qed.

Lemma control_inv_reachable s : reachable fl ustr s -> control_inv fl s.
Proof.
  apply reachable_ind; [exact control_inv_init|].
  intros s0 a s1 _ Hinv Hstep.
  apply exec_step_sound in Hstep as [Hex Hstep].
  eapply control_inv_step; eauto.
Qed.


(** *** The data invariant *)

Lemma the_accepted_0 : the_accepted fl 0 = [].
Proof. unfold the_accepted. now destruct (regexp_Compile (restorePat fl)). Qed.

Lemma the_accepted_S regex f n ob :
  regex_is fl regex -> file_is fl f -> records f !! n = Some ob ->
  the_accepted fl (S n) =
  the_accepted fl n ++ (if MatchString regex (Path ob) then [ob] else []).
Proof.
  unfold regex_is, file_is, the_accepted, the_records. intros -> -> Hl.
  rewrite (take_S_r _ _ _ Hl). unfold accepted.
  rewrite List.filter_app. simpl.
  now destruct (MatchString regex (Path ob)).
Qed.

Lemma the_accepted_all regex f n :
  regex_is fl regex -> file_is fl f -> (length (the_records fl) <= n)%nat ->
  the_accepted fl n = accepted regex (records f).
Proof.
  unfold regex_is, file_is, the_accepted, the_records. intros -> -> Hn.
  now rewrite take_ge.
Qed.

Ltac proj :=
  rewrite ?recvs_app, ?recv_events_app, ?dones_app, ?requests_app, ?fatals_app,
    ?restored_paths_app, ?failed_paths_app, ?summaries_app, ?startup_calls_app;
  simpl; rewrite ?app_nil_r.

Lemma data_inv_init : data_inv fl init.
Proof.
  constructor; simpl; auto; try discriminate.
  now rewrite the_accepted_0.
Qed.

Lemma data_inv_step s a s' :
  control_inv fl s -> data_inv fl s -> exited s = None ->
  step fl ustr s a s' -> data_inv fl s'.
Proof.
  intros Hci [Hd H1 Hn Hp [Hr Hr']] Hex Hstep.
  pose proof Hci as [Hpc Hst Hsp Hpool Hcl Hne Hwg Hj Hs He].
  destruct Hstep as [ regex Hp' Hc | err Hp' Hc | regex f Hp' Hc | regex err Hp' Hc
                    | regex f Hp' Hc | regex f err Hp' Hc
                    | regex f i Hp' Hi | regex f i Hp' Hi
                    | regex f ob Hp' Hl Hm | regex f ob Hp' Hl Hm
                    | regex f Hp' Hl He' | regex f err Hp' Hl He'
                    | Hp' | Hp' Hw0 | Hp'
                    | regex f ob w Hp' Hw Hc
                    | w Do ob evs Hw Hb | w Do ob evs Hw Hb | w Hw Hc ].
  all: try (rewrite Hp' in *; simpl in *).
  all: rewrite ?app_nil_r in *.
  all: try (constructor; simpl; try rewrite Hp'; simpl; proj; repeat split; auto;
            try discriminate; try tauto; try congruence; fail).
  - (* one more worker *)
    constructor; simpl; proj; auto; try discriminate.
    rewrite held_app. simpl. now rewrite app_nil_r.
  - (* all workers started *)
    destruct Hsp as [Hpos _]; [reflexivity|]. rewrite Hpos in *.
    constructor; simpl; proj; auto.
    intros _ _. now rewrite the_accepted_0.
  - (* a record that matches *)
    destruct Hpc as [Hre Hf].
    pose proof (the_accepted_S _ _ _ _ Hre Hf Hl) as HS. rewrite Hm in HS.
    constructor; simpl; proj; auto.
    + now rewrite HS, Hd.
    + intros _ _. rewrite HS, length_app, Hn by reflexivity. simpl.
      rewrite wrap_int_succ. f_equal. lia.
  - (* a record that does not match *)
    destruct Hpc as [Hre Hf].
    pose proof (the_accepted_S _ _ _ _ Hre Hf Hl) as HS. rewrite Hm in HS.
    rewrite app_nil_r in HS.
    constructor; simpl; rewrite ?Hp', ?HS; simpl; rewrite ?app_nil_r; auto.
  - (* a worker receives *)
    constructor; simpl; proj; auto.
    + rewrite map_app. simpl. now rewrite H1.
    + transitivity (ob :: recvs (trace s)).
      { symmetry. apply Permutation_cons_append. }
      rewrite (held_insert_hold _ _ _ Hw).
      etransitivity; [|apply Permutation_middle].
      now apply perm_skip.
    + rewrite !length_app. simpl. split; [lia|]. exact Hr'.
  - (* restoreFile returned *)
    destruct (body_spec_silent _ _ _ _ Hb) as (E1 & E2 & E3 & E4 & E5 & E6).
    constructor; simpl; proj; rewrite ?E1, ?E2, ?E3; simpl; rewrite ?app_nil_r; auto.
    + rewrite <- app_assoc. simpl.
      etransitivity; [exact Hp|]. apply Permutation_app_head.
      symmetry. now apply held_insert_recv.
    + rewrite !length_app. simpl. specialize (Hr' Hex).
      split; [|lia].
      apply Permutation_length in Hp. rewrite length_app in Hp.
      pose proof (held_some _ _ _ Hw).
      destruct (held (workers s)); [congruence|]. simpl in Hp. lia.
  - (* fatal POST *)
    destruct (body_spec_silent _ _ _ _ Hb) as (E1 & E2 & E3 & E4 & E5 & E6).
    constructor; simpl; proj; rewrite ?E1, ?E2, ?E3; simpl; rewrite ?app_nil_r; auto.
    rewrite !length_app. specialize (Hr' Hex).
    split; [|discriminate].
    apply Permutation_length in Hp. rewrite length_app in Hp.
    pose proof (held_some _ _ _ Hw).
    destruct (held (workers s)); [congruence|]. simpl in Hp. lia.
  - (* a worker returns *)
    constructor; simpl; proj; auto.
    now rewrite (held_insert_exit _ _ Hw).
Qed.

Lemma data_inv_reachable s : reachable fl ustr s -> data_inv fl s.
Proof.
  apply reachable_ind; [exact data_inv_init|].
  intros s0 a s1 Hr Hinv Hstep.
  apply exec_step_sound in Hstep as [Hex Hstep].
  eapply data_inv_step; eauto using control_inv_reachable.
Qed.


(** *** The log invariant *)

Lemma log_inv_init : log_inv fl init.
Proof.
  constructor; simpl; auto; try discriminate. intros m [].
Qed.

Lemma log_inv_step s a s' :
  control_inv fl s -> log_inv fl s -> exited s = None ->
  step fl ustr s a s' -> log_inv fl s'.
Proof.
  intros Hci [Hsum Hcalls Hfat Hexit] Hex Hstep.
  pose proof Hci as [Hpc Hst Hsp Hpool Hcl Hne Hwg Hj Hs He].
  assert (Hnof : fatals (trace s) = []).
  { destruct (fatals (trace s)) as [|m l] eqn:E; auto.
    destruct (Hfat m) as [Hx _]; [now left|]. congruence. }
  rewrite Hex in Hcalls.
  destruct Hstep as [ regex Hp' Hc | err Hp' Hc | regex f Hp' Hc | regex err Hp' Hc
                    | regex f Hp' Hc | regex f err Hp' Hc
                    | regex f i Hp' Hi | regex f i Hp' Hi
                    | regex f ob Hp' Hl Hm | regex f ob Hp' Hl Hm
                    | regex f Hp' Hl He' | regex f err Hp' Hl He'
                    | Hp' | Hp' Hw0 | Hp'
                    | regex f ob w Hp' Hw Hc
                    | w Do ob evs Hw Hb | w Do ob evs Hw Hb | w Hw Hc ].
  all: try (rewrite Hp' in *; simpl in *).
  all: try (constructor; simpl; try rewrite Hp'; simpl; proj;
            rewrite ?Hnof, ?Hcalls, ?Hex; simpl; auto;
            try discriminate; try tauto; try congruence;
            try (intros m [<-|[]]; eauto 6); fail).
  - (* the summary *)
    constructor; simpl; proj; rewrite ?Hnof, ?Hcalls, ?Hex; simpl; auto;
      try discriminate; try tauto.
    exists (trace s). now rewrite Hs.
  - (* restoreFile returned *)
    destruct (holding_phase s w ob) as (Hns & Hnsp & Hnj); auto.
    destruct (body_spec_silent _ _ _ _ Hb) as (E1 & E2 & E3 & E4 & E5 & E6).
    destruct (body_spec_outcome _ _ _ _ Hb) as [[_ E7]|[[=] _]].
    constructor; simpl; proj; rewrite ?E4, ?E5, ?E7, ?Hnof, ?Hex; simpl;
      rewrite ?app_nil_r; auto; try tauto.
    revert Hsum Hnj. destruct (pc s); simpl; auto; discriminate.
  - (* fatal POST *)
    destruct (holding_phase s w ob) as (Hns & Hnsp & Hnj); auto.
    destruct (body_spec_silent _ _ _ _ Hb) as (E1 & E2 & E3 & E4 & E5 & E6).
    destruct (body_spec_outcome _ _ _ _ Hb) as [[[=] _]|[_ [e E7]]].
    constructor; simpl; proj; rewrite ?E4, ?E5, ?E7, ?Hnof, ?Hex; simpl;
      rewrite ?app_nil_r; auto; try discriminate.
    + revert Hsum Hnj. destruct (pc s); simpl; auto; discriminate.
    + revert Hcalls Hns. destruct (pc s); simpl; auto; discriminate.
    + intros m [<-|[]]. auto.
Qed.

Lemma log_inv_reachable s : reachable fl ustr s -> log_inv fl s.
Proof.
  apply reachable_ind; [exact log_inv_init|].
  intros s0 a s1 Hr Hinv Hstep.
  apply exec_step_sound in Hstep as [Hex Hstep].
  eapply log_inv_step; eauto using control_inv_reachable.
Qed.


(** *** Every step uses up fuel *)

Lemma weight_lookup ws (w : nat) a :
  ws !! w = Some a -> (weight a <= list_sum (map weight ws))%nat.
Proof.
  revert w. induction ws as [|x ws IH]; intros [|w] Hw; try discriminate.
  - injection Hw as ->. simpl. lia.
  - specialize (IH w Hw). simpl. lia.
Qed.

Lemma fuel_step s a s' :
  exited s = None -> step fl ustr s a s' -> (fuel fl s' < fuel fl s)%nat.
Proof.
  intros Hex Hstep. unfold fuel. rewrite Hex.
  destruct Hstep as [ regex Hp' Hc | err Hp' Hc | regex f Hp' Hc | regex err Hp' Hc
                    | regex f Hp' Hc | regex f err Hp' Hc
                    | regex f i Hp' Hi | regex f i Hp' Hi
                    | regex f ob Hp' Hl Hm | regex f ob Hp' Hl Hm
                    | regex f Hp' Hl He' | regex f err Hp' Hl He'
                    | Hp' | Hp' Hw0 | Hp'
                    | regex f ob w Hp' Hw Hc
                    | w Do ob evs Hw Hb | w Do ob evs Hw Hb | w Hw Hc ].
  all: simpl; rewrite ?Hex, ?Hp'; simpl.
  all: try lia.
  - rewrite (the_records_file f Hc). lia.
  - rewrite map_app, list_sum_app. simpl. lia.
  - apply lookup_lt_Some in Hl. lia.
  - apply lookup_lt_Some in Hl. lia.
  - pose proof (weight_insert _ _ _ (WHold ob) Hw) as Hwt. simpl in Hwt. lia.
  - pose proof (weight_insert _ _ _ WRecv Hw) as Hwt. simpl in Hwt. lia.
  - pose proof (weight_lookup _ _ _ Hw) as Hwt. simpl in Hwt. lia.
  - pose proof (weight_insert _ _ _ WExit Hw) as Hwt. simpl in Hwt. lia.
Qed.

(** *** Reaching a goal on every run *)

(** If an invariant is kept by the steps allowed by [A] and, wherever the
    goal does not hold yet, enables one of them, the goal is inevitable. *)
Lemma inevitably_intro (A : Action -> Prop) (G I : State -> Prop) :
  (forall s a s', I s -> A a -> exec_step fl ustr a s = Some s' -> I s') ->
  (forall s, I s -> G s \/ exists a s', A a /\ exec_step fl ustr a s = Some s') ->
  forall s, I s -> inevitably fl ustr A G s.
Proof.
  intros Hkeep Hprog s.
  remember (fuel fl s) as n eqn:Hn. revert s Hn.
  induction n as [n IH] using lt_wf_ind. intros s -> HI.
  destruct (Hprog s HI) as [HG|Hen]; [now apply inev_here|].
  apply inev_step; [exact Hen|].
  intros a s' HA Hstep.
  pose proof (exec_step_sound _ _ _ Hstep) as [Hex Hst].
  apply (IH (fuel fl s')); eauto using fuel_step.
Qed.

(** Along the way to an inevitable goal no state is stuck short of it, and
    runs cannot be longer than the fuel. *)
Lemma run_length_bound acts s s' :
  run fl ustr acts s = Some s' -> (length acts + fuel fl s' <= fuel fl s)%nat.
Proof.
  revert s. induction acts as [|a acts IH]; intros s; simpl.
  - intros [= ->]. lia.
  - destruct (exec_step fl ustr a s) as [s1|] eqn:Hstep; [|discriminate].
    intros Hrun. specialize (IH _ Hrun).
    pose proof (exec_step_sound _ _ _ Hstep) as [Hex Hst].
    pose proof (fuel_step _ _ _ Hex Hst). lia.
Qed.


(** *** Progress *)

Lemma live_pos ws :
  live ws <> 0%nat -> exists (w : nat) x, ws !! w = Some x /\ x <> WExit.
Proof.
  induction ws as [|x ws IH]; intros H; [now destruct H|].
  destruct x.
  - exists 0%nat, WRecv. split; [reflexivity | discriminate].
  - exists 0%nat, (WHold ob). split; [reflexivity | discriminate].
  - destruct IH as (w & x & Hw & Hx); [exact H|].
    exists (S w), x. split; auto.
Qed.

Lemma work_enabled s (w : nat) ob Do :
  exited s = None -> workers s !! w = Some (WHold ob) ->
  exists s', exec_step fl ustr (AWork w Do) s = Some s'.
Proof. intros Hex Hw. unfold exec_step. rewrite Hex, Hw. eauto. Qed.

Lemma exit_enabled s (w : nat) :
  exited s = None -> workers s !! w = Some WRecv -> closed s = true ->
  exists s', exec_step fl ustr (AExit w) s = Some s'.
Proof. intros Hex Hw Hc. unfold exec_step. rewrite Hex, Hw, Hc. eauto. Qed.

Lemma recv_enabled s (w : nat) regex f ob :
  exited s = None -> pc s = PSend regex f ob ->
  workers s !! w = Some WRecv -> closed s = false ->
  exists s', exec_step fl ustr (ARecv w) s = Some s'.
Proof. intros Hex Hp Hw Hc. unfold exec_step. rewrite Hex, Hp, Hw, Hc. eauto. Qed.

(** The only reachable states that are not final and where nothing can
    run are those where the coordinator sends and there is no worker. *)
Lemma progress s :
  control_inv fl s -> exited s = None -> pc s <> PReturned ->
  (pending (pc s) <> [] -> workers s <> []) ->
  can_run fl ustr s.
Proof.
  intros [Hpc Hst Hsp Hpool Hcl Hne Hwg Hj Hs He] Hex Hnr Hpend.
  unfold can_run.
  destruct (pc s) eqn:Hp; simpl in *.
  all: try (left; unfold exec_step, coord_step; rewrite Hex, Hp; eauto; fail).
  - (* the spawn loop *)
    left. unfold exec_step, coord_step. rewrite Hex, Hp.
    destruct (i <? restoreWorkers fl); eauto.
  - (* Decode *)
    left. unfold exec_step, coord_step. rewrite Hex, Hp.
    destruct (records f !! pos s) as [ob|].
    + destruct (MatchString regex (Path ob)); eauto.
    + destruct (stream_end f); eauto.
  - (* the send *)
    destruct (workers s) as [|x ws] eqn:Hws; [now destruct Hpend|].
    specialize (Hne Hcl). inversion Hne as [|? ? Hx _]; subst.
    destruct x as [|ob'|]; [| |now destruct Hx].
    + right; left. exists 0%nat.
      eapply recv_enabled; eauto. now rewrite Hws.
    + right; right; left. exists 0%nat. intros Do.
      eapply work_enabled; eauto. now rewrite Hws.
  - (* wg.Wait() *)
    destruct (Z.eq_dec (wg s) 0) as [H0|H0].
    + left. unfold exec_step, coord_step. rewrite Hex, Hp, H0. eauto.
    + destruct (live_pos (workers s)) as (w & x & Hw & Hx); [lia|].
      destruct x as [|ob'|]; [| |now destruct Hx].
      * right; right; right. exists w. eapply exit_enabled; eauto.
      * right; right; left. exists w. intros Do. eapply work_enabled; eauto.
  - now destruct Hnr.
Qed.

(** ** Dry runs *)

Lemma restoreFile_noop Do base path data :
  restoreNoop fl = true ->
  restoreFile fl Do base path data = ([EvLog (LNoop path)], Ret None).
Proof. intros Hn. unfold restoreFile. now rewrite Hn. Qed.

Lemma noop_no_requests :
  restoreNoop fl = true ->
  forall s, reachable fl ustr s -> requests (trace s) = [].
Proof.
  intros Hn. apply reachable_ind; [reflexivity|].
  intros s a s' _ IH Hstep.
  apply exec_step_sound in Hstep as [Hex Hstep].
  destruct Hstep; simpl; proj; auto;
    match goal with
    | H : body_spec _ _ _ _ _ _ |- _ => destruct H; simpl; proj; auto; congruence
    end.
Qed.

(** C4.  With the noop flag set, [restoreFile] only logs the path it would
    restore and returns nil: it builds no request, calls neither
    [json.Marshal] nor the transport (its result is the same whatever the
    libraries and the transport are), and this for any value of the other
    flags; no run of the command issues a request. *)
Theorem C4_noop_makes_no_call :
  restoreNoop fl = true ->
  (forall Do base path data,
      restoreFile fl Do base path data = ([EvLog (LNoop path)], Ret None)) /\
  (forall (X' : Externals) Do Do' base path data,
      @restoreFile X' fl Do' base path data = restoreFile fl Do base path data) /\
  (forall s, reachable fl ustr s -> requests (trace s) = []).
Proof.
  intros Hn. split; [|split].
  - intros. now apply restoreFile_noop.
  - intros. unfold restoreFile. now rewrite Hn.
  - now apply noop_no_requests.
Qed.

(** ** The request *)

Lemma restoreFile_requests Do base path data :
  requests (fst (restoreFile fl Do base path data)) =
  if restoreNoop fl then []
  else match json_Marshal data with
       | inr _ => []
       | inl b =>
           match http_NewRequest_err "POST" (URL_String (restoreURL base path)) with
           | Some _ => []
           | None => [restoreRequest fl base path b]
           end
       end.
Proof.
  unfold restoreFile.
  destruct (restoreNoop fl); [reflexivity|].
  destruct (json_Marshal data) as [b|e]; [|reflexivity].
  unfold http_NewRequest. fold (restoreURL base path).
  destruct (http_NewRequest_err _ _); [reflexivity|].
  unfold http_Do, bind, MaybeFatal.
  destruct (Do _) as [e|status body] eqn:Hd; simpl; [reflexivity|].
  destruct (status =? 201); simpl; [reflexivity|].
  destruct ((status =? 409) && negb (restoreForce fl)); reflexivity.
Qed.

Lemma restoreRequest_headers base path b :
  Hdr (restoreRequest fl base path b) !! "X-Cbfs-Expiration" =
    Some [Itoa (restoreExpire fl)] /\
  Hdr (restoreRequest fl base path b) !! "Content-Type" =
    Some ["application/json"].
Proof.
  unfold restoreRequest, req_Header_Set, Header_Set. simpl.
  change (CanonicalMIMEHeaderKey "X-CBFS-Expiration") with "X-Cbfs-Expiration".
  change (CanonicalMIMEHeaderKey "Content-Type") with "Content-Type".
  split.
  - apply lookup_insert_eq.
  - rewrite lookup_insert_ne by discriminate. apply lookup_insert_eq.
Qed.

(** C7.  When noop is unset and the metadata serializes, [restoreFile]
    executes exactly one request, and every request it executes is a POST
    to the base URL with the path [/.cbfs/backup/restore/] followed by
    the item's path, whose body is the serialized metadata, whose
    [Content-Type] is [application/json] and whose [X-CBFS-Expiration]
    header is present and holds the decimal rendering of the expire flag
    (reading it back gives the flag), the default -1 being sent as the
    text [-1]. *)
Theorem C7_request_carries_expiration Do base path data req :
  In req (requests (fst (restoreFile fl Do base path data))) ->
  restoreNoop fl = false /\
  Method req = "POST" /\
  ReqURL req =
    URL_String (set_Path (cbfstool_ParseURL base) ("/.cbfs/backup/restore/" +:+ path)) /\
  json_Marshal data = inl (Body req) /\
  requests (fst (restoreFile fl Do base path data)) = [req] /\
  Header_Get (Hdr req) "Content-Type" = "application/json" /\
  Hdr req !! CanonicalMIMEHeaderKey "X-CBFS-Expiration" =
    Some [Itoa (restoreExpire fl)] /\
  Header_Get (Hdr req) "X-CBFS-Expiration" = Itoa (restoreExpire fl) /\
  option_map Z.of_int (NilZero.int_of_string (Itoa (restoreExpire fl))) =
    Some (restoreExpire fl) /\
  (restoreExpire fl = -1 -> Header_Get (Hdr req) "X-CBFS-Expiration" = "-1").
Proof.
  rewrite restoreFile_requests.
  destruct (restoreNoop fl); [intros []|].
  destruct (json_Marshal data) as [b|e]; [|intros []].
  destruct (http_NewRequest_err _ _); [intros []|].
  intros [<-|[]].
  destruct (restoreRequest_headers base path b) as [Hx Hc].
  assert (Hget : Header_Get (Hdr (restoreRequest fl base path b)) "X-CBFS-Expiration"
                 = Itoa (restoreExpire fl)).
  { unfold Header_Get.
    change (CanonicalMIMEHeaderKey "X-CBFS-Expiration") with "X-Cbfs-Expiration".
    now rewrite Hx. }
  repeat split; auto.
  - apply Itoa_read_back.
  - intros He. rewrite Hget, He. reflexivity.
Qed.

(** ** Outcomes of a restore call *)

(** [restoreFile] once the request has been built, by the answer of the
    transport. *)
Lemma restoreFile_answer Do base path data b :
  restoreNoop fl = false ->
  json_Marshal data = inl b ->
  http_NewRequest_err "POST" (URL_String (restoreURL base path)) = None ->
  restoreFile fl Do base path data =
  match Do (restoreRequest fl base path b) with
  | TransportErr e =>
      ([EvHTTP (restoreRequest fl base path b);
        EvFatal (FPost (restoreURL base path) e)], Exit 1)
  | Response status body =>
      if status =? 201 then
        ([EvHTTP (restoreRequest fl base path b); EvLog (LRestored path)], Ret None)
      else if (status =? 409) && negb (restoreForce fl) then
        ([EvHTTP (restoreRequest fl base path b)], Ret None)
      else
        ([EvHTTP (restoreRequest fl base path b)],
         Ret (Some (HTTPError path status body)))
  end.
Proof.
  intros Hn Hm Hr. unfold restoreFile. rewrite Hn, Hm.
  unfold http_NewRequest. fold (restoreURL base path). rewrite Hr.
  unfold http_Do, bind, MaybeFatal.
  change (req_Header_Set _ _ _) with (restoreRequest fl base path b).
  destruct (Do _) as [e|status body]; simpl; [reflexivity|].
  destruct (status =? 201); simpl; [reflexivity|].
  destruct ((status =? 409) && negb (restoreForce fl)); reflexivity.
Qed.

(** A worker whose [restoreFile] call returns goes back to the receive;
    one whose call exits takes the process with it. *)
Lemma exec_work s (w : nat) Do ob :
  exited s = None -> workers s !! w = Some (WHold ob) ->
  exec_step fl ustr (AWork w Do) s =
  Some (match restoreWorker_body fl Do ustr ob with
        | (evs, Ret _) =>
            set_workers (<[w := WRecv]> (workers s)) (emit (evs ++ [EvDone w ob]) s)
        | (evs, Exit code) => set_exited code (emit evs s)
        end).
Proof.
  intros Hex Hw. unfold exec_step. rewrite Hex, Hw. f_equal.
  unfold perform. destruct (restoreWorker_body fl Do ustr ob) as [evs [[]|code]].
  - now rewrite emit_emit.
  - reflexivity.
Qed.

Lemma exited_stuck s : exited s <> None -> stuck fl ustr s.
Proof.
  intros Hex a. unfold exec_step. destruct (exited s); [reflexivity|now destruct Hex].
Qed.

(** ** What workers hold has been received, accepted and decoded *)

Lemma held_in ws (w : nat) ob : ws !! w = Some (WHold ob) -> In ob (held ws).
Proof.
  revert w. induction ws as [|x ws IH]; intros [|w] Hw; try discriminate.
  - injection Hw as ->. now left.
  - specialize (IH w Hw). unfold held in *. simpl. destruct x; simpl; auto.
Qed.

Lemma the_accepted_in n ob :
  In ob (the_accepted fl n) ->
  In ob (the_records fl) /\
  forall regex, regex_is fl regex -> MatchString regex (Path ob) = true.
Proof.
  unfold the_accepted, regex_is.
  destruct (regexp_Compile (restorePat fl)) as [re|]; [|intros []].
  unfold accepted. intros [Hin Hm]%filter_In. split.
  - apply list_elem_of_In in Hin. apply elem_of_take in Hin as (i & Hi & _).
    apply list_elem_of_In. eapply list_elem_of_lookup_2; eauto.
  - intros regex [= <-]. exact Hm.
Qed.

Lemma received_accepted s ob :
  reachable fl ustr s -> In ob (recvs (trace s)) -> In ob (the_accepted fl (pos s)).
Proof.
  intros Hr Hin. destruct (data_inv_reachable s Hr) as [Hd _ _ _ _].
  rewrite <- Hd. apply in_or_app. now left.
Qed.

Lemma holding_received s (w : nat) ob :
  reachable fl ustr s -> workers s !! w = Some (WHold ob) -> In ob (recvs (trace s)).
Proof.
  intros Hr Hw. destruct (data_inv_reachable s Hr) as [_ _ _ Hp _].
  eapply Permutation_in; [symmetry; exact Hp|].
  apply in_or_app. right. eapply held_in; eauto.
Qed.

Lemma holding_decoded s (w : nat) ob :
  reachable fl ustr s -> workers s !! w = Some (WHold ob) -> In ob (the_records fl).
Proof.
  intros Hr Hw.
  eapply the_accepted_in, received_accepted, holding_received; eauto.
Qed.

(** ** Runs against a server that answers 409 *)

Lemma run_snoc acts a s s' :
  run fl ustr acts init = Some s -> exec_step fl ustr a s = Some s' ->
  run fl ustr (acts ++ [a]) init = Some s'.
Proof. intros Hr Hs. rewrite run_app, Hr. simpl. now rewrite Hs. Qed.

Lemma body_spec_conflict Do ob evs r :
  restoreNoop fl = false -> buildable ustr ob ->
  (forall req, exists body, Do req = Response 409 body) ->
  body_spec fl ustr Do ob evs r ->
  r = Ret tt /\ restored_paths evs = [] /\ fatals evs = [] /\ dones evs = [] /\
  failed_paths evs = (if restoreForce fl then [Path ob] else []).
Proof.
  intros Hn (b & Hm & Hq) H409 Hbs.
  destruct Hbs as [ Hn' | err Hn' Hm' | b' err Hn' Hm' Hq' | b' e Hn' Hm' Hq' Hd
                  | b' body Hn' Hm' Hq' Hd | b' body Hn' Hm' Hq' Hd Hf
                  | b' status body Hn' Hm' Hq' Hd Hs Hsf ];
    try congruence;
    destruct (H409 (restoreRequest fl ustr (Path ob) b')) as [body' Hd'];
    rewrite Hd' in Hd; try discriminate; inversion Hd; subst.
  - rewrite Hf. repeat split; reflexivity.
  - destruct Hsf as [Hsf|Hsf]; [now destruct Hsf|].
    rewrite Hsf. repeat split; reflexivity.
Qed.

Lemma conflict_run acts s :
  restoreNoop fl = false ->
  Forall (buildable ustr) (the_records fl) ->
  Forall always409 acts ->
  run fl ustr acts init = Some s ->
  restored_paths (trace s) = [] /\
  failed_paths (trace s) =
    (if restoreForce fl then map Path (dones (trace s)) else []) /\
  forall u e, ~ In (FPost u e) (fatals (trace s)).
Proof.
  intros Hn Hb Hall Hrun. revert Hall.
  revert acts s Hrun.
  apply (run_ind_last (fun acts s => Forall always409 acts -> _)).
  { intros _. simpl. destruct (restoreForce fl); auto. }
  intros acts s a s' Hrun IH Hstep Hall.
  apply Forall_app in Hall as [Hall Ha].
  destruct (IH Hall) as (IH1 & IH2 & IH3). clear IH.
  assert (Hreach : reachable fl ustr s) by now exists acts.
  apply exec_step_sound in Hstep as [Hex Hstep].
  destruct Hstep as [ regex Hp' Hc | err Hp' Hc | regex f Hp' Hc | regex err Hp' Hc
                    | regex f Hp' Hc | regex f err Hp' Hc
                    | regex f i Hp' Hi | regex f i Hp' Hi
                    | regex f ob Hp' Hl Hm | regex f ob Hp' Hl Hm
                    | regex f Hp' Hl He' | regex f err Hp' Hl He'
                    | Hp' | Hp' Hw0 | Hp'
                    | regex f ob w Hp' Hw Hc
                    | w Do ob evs Hw Hbs | w Do ob evs Hw Hbs | w Hw Hc ].
  all: simpl; proj; rewrite ?IH1, ?IH2.
  all: try (repeat split; auto; intros u e Hin;
            repeat (apply in_app_or in Hin as [Hin|Hin]; [now apply (IH3 u e)|]);
            try (now apply (IH3 u e));
            simpl in Hin; intuition discriminate).
  - (* restoreFile returned *)
    inversion Ha as [|? ? H409 _]; subst. simpl in H409.
    assert (Hbuild : buildable ustr ob).
    { eapply List.Forall_forall; [exact Hb|]. eapply holding_decoded; eauto. }
    destruct (body_spec_conflict Do ob evs _ Hn Hbuild H409 Hbs)
      as (_ & E1 & E2 & E3 & E4).
    rewrite E1, E2, E3, E4. simpl.
    repeat split; auto.
    + destruct (restoreForce fl); [|reflexivity]. now rewrite map_app.
    + rewrite app_nil_r. exact IH3.
  - (* the process exits: not with a 409 *)
    inversion Ha as [|? ? H409 _]; subst. simpl in H409.
    assert (Hbuild : buildable ustr ob).
    { eapply List.Forall_forall; [exact Hb|]. eapply holding_decoded; eauto. }
    destruct (body_spec_conflict Do ob evs _ Hn Hbuild H409 Hbs) as ([=] & _).
Qed.


(** ** Runs that complete *)

Lemma returned_dec s : pc s = PReturned \/ pc s <> PReturned.
Proof. destruct (pc s); (now left) || (right; discriminate). Qed.

Lemma pool_for_send s :
  control_inv fl s -> 1 <= restoreWorkers fl ->
  pending (pc s) <> [] -> workers s <> [].
Proof.
  intros [_ _ _ Hpool _ _ _ _ _ _] HW Hpend Hws.
  destruct (pc s); try (now destruct Hpend).
  specialize (Hpool eq_refl eq_refl). rewrite Hws in Hpool. simpl in Hpool. lia.
Qed.

(** With a clean input the only fatal condition left is a failed POST. *)
Lemma clean_run_alive regex f s :
  clean_input fl regex f -> reachable fl ustr s ->
  (forall u e, ~ In (FPost u e) (fatals (trace s))) ->
  exited s = None.
Proof.
  intros (Hre & Hf & Hgz & Heof) Hr Hpost.
  destruct (exited s) as [code|] eqn:Hex; [exfalso|reflexivity].
  destruct (log_inv_reachable s Hr) as [_ _ Hfat Hexit].
  destruct (control_inv_reachable s Hr) as [Hpc _ _ _ _ _ _ _ _ _].
  destruct (fatals (trace s)) as [|m l] eqn:E; [apply Hexit; congruence|].
  destruct (Hfat m (or_introl eq_refl)) as [_ Hm].
  destruct m as [e|e|e|u e|e|].
  - destruct Hm as [_ Hm]. congruence.
  - destruct Hm as [_ Hm]. congruence.
  - destruct Hm as (re' & f' & Hp & Hg). rewrite Hp in Hpc.
    destruct Hpc as [_ Hf']. unfold file_is in Hf'. congruence.
  - apply (Hpost u e). now left.
  - destruct Hm as (re' & f' & Hp & Hg). rewrite Hp in Hpc.
    destruct Hpc as [_ Hf']. unfold file_is in Hf'. congruence.
  - exact Hm.
Qed.

Lemma can_run_conflict s :
  can_run fl ustr s -> exists a s', always409 a /\ exec_step fl ustr a s = Some s'.
Proof.
  intros [[s' H]|[(w & s' & H)|[[w H]|(w & s' & H)]]].
  - exists ACoord, s'. now split.
  - exists (ARecv w), s'. now split.
  - destruct (H conflict) as [s' Hs'].
    exists (AWork w conflict), s'. split; [|exact Hs'].
    intros req. now exists "exists".
  - exists (AExit w), s'. now split.
Qed.

Lemma conflict_completes regex f :
  restoreNoop fl = false ->
  Forall (buildable ustr) (the_records fl) ->
  clean_input fl regex f ->
  1 <= restoreWorkers fl ->
  inevitably fl ustr always409 completed init.
Proof.
  intros Hn Hb Hclean HW.
  apply inevitably_intro
    with (I := fun s => exists acts, Forall always409 acts /\ run fl ustr acts init = Some s).
  - intros s a s' (acts & Hall & Hrun) Ha Hstep.
    exists (acts ++ [a]). split.
    + apply Forall_app. split; [exact Hall|]. now repeat constructor.
    + eapply run_snoc; eauto.
  - intros s (acts & Hall & Hrun).
    assert (Hr : reachable fl ustr s) by now exists acts.
    destruct (conflict_run acts s Hn Hb Hall Hrun) as (_ & _ & Hpost).
    pose proof (clean_run_alive _ _ _ Hclean Hr Hpost) as Hex.
    destruct (returned_dec s) as [Hp|Hp]; [left; now split|].
    right. apply can_run_conflict. apply progress; auto.
    + now apply control_inv_reachable.
    + apply pool_for_send; auto. now apply control_inv_reachable.
  - exists []. split; [constructor | reflexivity].
Qed.

(** When [restoreCommand] returns, every accepted record of the stream has
    been received, and every received record has been finished. *)
Lemma returned_all_done s regex f :
  reachable fl ustr s -> pc s = PReturned ->
  regex_is fl regex -> file_is fl f ->
  recvs (trace s) = accepted regex (records f) /\
  Permutation (recvs (trace s)) (dones (trace s)) /\
  Forall (fun w => w = WExit) (workers s) /\
  closed s = true /\ exited s = None.
Proof.
  intros Hr Hp Hre Hf.
  destruct (control_inv_reachable s Hr) as [Hpc _ _ _ Hcl _ _ Hj _ _].
  destruct (data_inv_reachable s Hr) as [Hd _ _ Hperm _].
  rewrite Hp in *. simpl in *.
  destruct Hpc as [Hlen _]. destruct Hj as [Hall Hex]; [reflexivity|].
  rewrite app_nil_r in Hd.
  rewrite (held_all_exit _ Hall), app_nil_r in Hperm.
  rewrite (the_accepted_all regex f) in Hd by auto.
  auto.
Qed.

(** C2.  With noop unset, a 409 answer makes [restoreFile] return nil
    without any log line when force is unset, and return an error, which
    the worker logs as a failure of the path, when force is set.  Hence in
    every run against a transport that answers 409 to everything (on
    records whose request can be built) no restore is logged, and the
    failures logged are none without force and one per finished record
    with force; when the input is clean and there is a worker such a run
    always completes, and at completion the finished records are the
    accepted records of the stream. *)
Theorem C2_conflict_is_silent_unless_forced acts s :
  restoreNoop fl = false ->
  Forall (buildable ustr) (the_records fl) ->
  Forall always409 acts ->
  run fl ustr acts init = Some s ->
  (forall Do base path data b body,
      json_Marshal data = inl b ->
      http_NewRequest_err "POST" (URL_String (restoreURL base path)) = None ->
      Do (restoreRequest fl base path b) = Response 409 body ->
      restoreFile fl Do base path data =
        ([EvHTTP (restoreRequest fl base path b)],
         Ret (if restoreForce fl then Some (HTTPError path 409 body) else None)) /\
      restoreWorker_body fl Do base (mkItem path data) =
        (EvHTTP (restoreRequest fl base path b)
           :: (if restoreForce fl
               then [EvLog (LError path (HTTPError path 409 body))]
               else []),
         Ret tt)) /\
  restored_paths (trace s) = [] /\
  failed_paths (trace s) =
    (if restoreForce fl then map Path (dones (trace s)) else []) /\
  (forall regex f,
      clean_input fl regex f ->
      (completed s -> Permutation (dones (trace s)) (accepted regex (records f))) /\
      (1 <= restoreWorkers fl -> inevitably fl ustr always409 completed init)).
Proof.
  intros Hn Hb Hall Hrun.
  destruct (conflict_run acts s Hn Hb Hall Hrun) as (H1 & H2 & _).
  split; [|split; [exact H1|split; [exact H2|]]].
  - intros Do base path data b body Hm Hq Hd.
    assert (E : restoreFile fl Do base path data =
                ([EvHTTP (restoreRequest fl base path b)],
                 Ret (if restoreForce fl then Some (HTTPError path 409 body) else None))).
    { rewrite (restoreFile_answer Do base path data b Hn Hm Hq), Hd. simpl.
      now destruct (restoreForce fl). }
    split; [exact E|].
    unfold restoreWorker_body. simpl. rewrite E.
    now destruct (restoreForce fl).
  - intros regex f Hclean. split.
    + intros [Hp Hex]. destruct Hclean as (Hre & Hf & _).
      destruct (returned_all_done s regex f) as (E & Hperm & _); auto.
      { now exists acts. }
      rewrite <- E. now symmetry.
    + intros HW. eapply conflict_completes; eauto.
Qed.

(** C3.  For a worker holding a record whose request can be built (noop
    unset): if the transport returns an error instead of a response the
    process exits with status 1 on the spot, and no goroutine takes
    another step; if it returns a response whose status is neither 201 nor
    (without force) 409, the worker logs one error line with the path of
    the record and is back at the receive, the process goes on, the
    coordinator is where it was, and exactly one request was executed for
    the record.  Nothing puts a record back: in the state that follows
    there are at most as many requests as receptions, and the records
    received or being sent are exactly the accepted records decoded so
    far, each once. *)
Theorem C3_transport_error_is_fatal_status_is_per_item s (w : nat) ob b :
  reachable fl ustr s ->
  exited s = None ->
  workers s !! w = Some (WHold ob) ->
  restoreNoop fl = false ->
  json_Marshal (Meta ob) = inl b ->
  http_NewRequest_err "POST" (URL_String (restoreURL ustr (Path ob))) = None ->
  (forall Do e,
      Do (restoreRequest fl ustr (Path ob) b) = TransportErr e ->
      exists s',
        exec_step fl ustr (AWork w Do) s = Some s' /\
        exited s' = Some 1 /\
        stuck fl ustr s' /\
        trace s' = trace s ++ [EvHTTP (restoreRequest fl ustr (Path ob) b);
                               EvFatal (FPost (restoreURL ustr (Path ob)) e)]) /\
  (forall Do status body,
      Do (restoreRequest fl ustr (Path ob) b) = Response status body ->
      status <> 201 ->
      status <> 409 \/ restoreForce fl = true ->
      exists s',
        exec_step fl ustr (AWork w Do) s = Some s' /\
        exited s' = None /\
        trace s' = trace s ++ [EvHTTP (restoreRequest fl ustr (Path ob) b);
                               EvLog (LError (Path ob) (HTTPError (Path ob) status body));
                               EvDone w ob] /\
        workers s' = <[w := WRecv]> (workers s) /\
        pc s' = pc s /\ pos s' = pos s /\
        (length (requests (trace s')) <= length (recvs (trace s')))%nat /\
        recvs (trace s') ++ pending (pc s') = the_accepted fl (pos s')).
Proof.
  intros Hr Hex Hw Hn Hm Hq. split.
  - intros Do e Hd. eexists. split; [|split; [|split]].
    + rewrite (exec_work s w Do ob Hex Hw). unfold restoreWorker_body.
      rewrite (restoreFile_answer Do ustr (Path ob) (Meta ob) b Hn Hm Hq), Hd.
      reflexivity.
    + reflexivity.
    + apply exited_stuck. discriminate.
    + reflexivity.
  - intros Do status body Hd H201 H409.
    assert (Hstep : exec_step fl ustr (AWork w Do) s =
              Some (set_workers (<[w := WRecv]> (workers s))
                      (emit [EvHTTP (restoreRequest fl ustr (Path ob) b);
                             EvLog (LError (Path ob) (HTTPError (Path ob) status body));
                             EvDone w ob] s))).
    { rewrite (exec_work s w Do ob Hex Hw). unfold restoreWorker_body.
      rewrite (restoreFile_answer Do ustr (Path ob) (Meta ob) b Hn Hm Hq), Hd.
      apply Z.eqb_neq in H201. rewrite H201.
      assert (E : (status =? 409) && negb (restoreForce fl) = false).
      { destruct H409 as [H|H].
        - apply Z.eqb_neq in H. now rewrite H.
        - rewrite H. now rewrite andb_false_r. }
      rewrite E. reflexivity. }
    eexists. split; [exact Hstep|].
    pose proof (reachable_step _ _ _ Hr Hstep) as Hr'.
    destruct (data_inv_reachable _ Hr') as [Hd' _ _ _ [Hreq _]].
    repeat split; auto.
Qed.

(** ** The filter *)

Lemma requests_for_received s :
  reachable fl ustr s ->
  forall req, In req (requests (trace s)) ->
  exists ob b,
    In ob (recvs (trace s)) /\ json_Marshal (Meta ob) = inl b /\
    req = restoreRequest fl ustr (Path ob) b.
Proof.
  revert s. apply (reachable_ind (fun s => forall req, In req (requests (trace s)) -> _)).
  { intros req []. }
  intros s a s' Hr IH Hstep req.
  apply exec_step_sound in Hstep as [Hex Hstep].
  destruct Hstep as [ regex Hp' Hc | err Hp' Hc | regex f Hp' Hc | regex err Hp' Hc
                    | regex f Hp' Hc | regex f err Hp' Hc
                    | regex f i Hp' Hi | regex f i Hp' Hi
                    | regex f ob Hp' Hl Hm | regex f ob Hp' Hl Hm
                    | regex f Hp' Hl He' | regex f err Hp' Hl He'
                    | Hp' | Hp' Hw0 | Hp'
                    | regex f ob w Hp' Hw Hc
                    | w Do ob evs Hw Hbs | w Do ob evs Hw Hbs | w Hw Hc ].
  all: simpl; proj; auto.
  - (* a worker receives *)
    intros Hin. destruct (IH req Hin) as (ob' & b & H1 & H2 & H3).
    exists ob', b. repeat split; auto. apply in_or_app. now left.
  - (* restoreFile returned *)
    destruct (body_spec_silent _ _ _ _ Hbs) as (E1 & _). rewrite E1, app_nil_r.
    intros [Hin|Hin]%in_app_or; [now apply IH|].
    pose proof (holding_received s w ob Hr Hw) as Hrecv.
    destruct Hbs; simpl in Hin; try (now destruct Hin);
      destruct Hin as [<-|[]]; eauto.
  - (* fatal POST *)
    destruct (body_spec_silent _ _ _ _ Hbs) as (E1 & _). rewrite E1, app_nil_r.
    intros [Hin|Hin]%in_app_or; [now apply IH|].
    pose proof (holding_received s w ob Hr Hw) as Hrecv.
    destruct Hbs; simpl in Hin; try (now destruct Hin);
      destruct Hin as [<-|[]]; eauto.
Qed.

(** C5.  A decoded record whose path the pattern does not match is
    dropped by the coordinator: the step only advances the decoder, so the
    count, the channel, the workers and the trace are as before.  In every
    reachable state the records received or being sent are the accepted
    ones among those decoded (all of them match), [nfiles] counts exactly
    those, and every request executed is the request of a received record.
    The default pattern [.*] compiles and matches every path, so with it
    every record is accepted. *)
Theorem C5_unmatched_records_are_dropped s regex f ob :
  reachable fl ustr s ->
  exited s = None ->
  pc s = PDecode regex f ->
  records f !! pos s = Some ob ->
  MatchString regex (Path ob) = false ->
  exec_step fl ustr ACoord s = Some (set_pos (S (pos s)) s) /\
  (forall s',
      reachable fl ustr s' ->
      recvs (trace s') ++ pending (pc s') =
        accepted regex (take (pos s') (records f)) /\
      Forall (fun ob' => MatchString regex (Path ob') = true)
        (recvs (trace s') ++ pending (pc s')) /\
      (in_startup (pc s') = false -> spawning (pc s') = false ->
       nfiles s' =
         wrap_int (Z.of_nat (length (accepted regex (take (pos s') (records f)))))) /\
      (forall req, In req (requests (trace s')) ->
         exists ob' b,
           In ob' (recvs (trace s')) /\ MatchString regex (Path ob') = true /\
           json_Marshal (Meta ob') = inl b /\
           req = restoreRequest fl ustr (Path ob') b)) /\
  (forall (X0 : Externals) fn l,
      @regexp_Compile (withMiniRE X0) (restorePat (defaultFlags fn)) =
        inl (MiniRE.Cat (MiniRE.Star MiniRE.Any) MiniRE.Eps) /\
      (forall p, MiniRE.MatchString (MiniRE.Cat (MiniRE.Star MiniRE.Any) MiniRE.Eps) p = true) /\
      @accepted (withMiniRE X0) (MiniRE.Cat (MiniRE.Star MiniRE.Any) MiniRE.Eps) l = l).
Proof.
  intros Hr Hex Hp Hl Hm.
  destruct (control_inv_reachable s Hr) as [Hpc _ _ _ _ _ _ _ _ _].
  rewrite Hp in Hpc. destruct Hpc as [Hre Hf].
  assert (Hacc : forall n, the_accepted fl n = accepted regex (take n (records f))).
  { intros n. unfold the_accepted, the_records.
    unfold regex_is in Hre. unfold file_is in Hf. now rewrite Hre, Hf. }
  split; [|split].
  - unfold exec_step, coord_step. now rewrite Hex, Hp, Hl, Hm.
  - intros s' Hr'.
    destruct (data_inv_reachable s' Hr') as [Hd _ Hn _ _].
    rewrite <- Hacc.
    assert (Hall : Forall (fun ob' => MatchString regex (Path ob') = true)
                     (recvs (trace s') ++ pending (pc s'))).
    { rewrite Hd. apply List.Forall_forall. intros ob' Hin.
      now apply (the_accepted_in _ _ Hin). }
    repeat split; auto.
    intros req Hin.
    destruct (requests_for_received s' Hr' req Hin) as (ob' & b & H1 & H2 & H3).
    exists ob', b. repeat split; auto.
    eapply (proj1 (List.Forall_forall _ _) Hall). apply in_or_app. now left.
  - intros X0 fn l. split; [reflexivity|]. split.
    + apply MiniRE_dot_star_matches.
    + unfold accepted. simpl. induction l as [|x l IH]; [reflexivity|].
      simpl. rewrite MiniRE_dot_star_matches. now f_equal.
Qed.

(** ** The summary *)

(** Until the workers are started the trace holds the two calls of the
    Init phase and nothing else. *)
Lemma running_trace s :
  reachable fl ustr s ->
  match pc s with
  | PGunzip _ _ =>
      exited s = None -> trace s = [EvCompile (restorePat fl); EvOpen (Arg0 fl)]
  | PSpawn _ _ _ => trace s = [EvCompile (restorePat fl); EvOpen (Arg0 fl)]
  | _ => True
  end.
Proof.
  revert s. apply reachable_ind; [exact I|].
  intros s a s' Hr IH Hstep.
  pose proof (control_inv_reachable s Hr) as Hci.
  pose proof (ci_start fl s Hci) as Hs.
  pose proof (ci_closed fl s Hci) as Hcl.
  apply exec_step_sound in Hstep as [Hex Hstep].
  destruct Hstep as [ regex Hp Hc | err Hp Hc | regex f Hp Hc | regex err Hp Hc
                    | regex f Hp Hc | regex f err Hp Hc
                    | regex f i Hp Hi | regex f i Hp Hi
                    | regex f ob Hp Hl Hm | regex f ob Hp Hl Hm
                    | regex f Hp Hl He' | regex f err Hp Hl He'
                    | Hp | Hp Hw0 | Hp
                    | regex f ob w Hp Hw Hc
                    | w Do ob evs Hw Hb | w Do ob evs Hw Hb | w Hw Hc ].
  all: try (rewrite Hp in *; simpl in *; rewrite ?Hp; simpl;
            try discriminate; try (now rewrite ?Hs); auto; fail).
  - destruct (holding_phase s w ob Hci Hw) as (Hns & Hnsp & _).
    simpl. destruct (pc s); try discriminate; exact I.
  - destruct (holding_phase s w ob Hci Hw) as (Hns & Hnsp & _).
    simpl. destruct (pc s); try discriminate; exact I.
  - rewrite Hc in Hcl. simpl. destruct (pc s); try discriminate; exact I.
Qed.

(** C6 (as the code has it).  When [restoreCommand] returns, the last
    thing it did was to log the summary, once.  The count is the number of
    records of the stream that the pattern accepts (as long as it fits a Go
    int), whatever happened to each of them at the server, since this holds
    for all runs and all answers of the transport; each accepted record was
    received exactly once.  The duration is the reading of the clock at the
    summary less [start], and [start] is the reading taken at line 94: in
    the Init phase, when the pattern has been compiled and nothing else has
    happened, before [os.Open].  The Running phase begins later, when the
    file has been opened as well; so the duration is the time since Running
    began plus the time it took to open the file. *)
Theorem C6_summary_count_and_time_since_line_94 s regex f :
  reachable fl ustr s ->
  pc s = PReturned ->
  regexp_Compile (restorePat fl) = inl regex ->
  os_Open (Arg0 fl) = inl f ->
  Z.of_nat (length (accepted regex (records f))) < 2 ^ 63 ->
  exists t',
    trace s = t' ++ [EvLog (LSummary (Z.of_nat (length (accepted regex (records f))))
                              (time_Now t' - time_Now [EvCompile (restorePat fl)]))] /\
    summaries t' = [] /\
    recvs t' = accepted regex (records f) /\
    start s = time_Now [EvCompile (restorePat fl)] /\
    exited s = None /\
    (forall s0, reachable fl ustr s0 -> exited s0 = None -> pc s0 = POpen regex ->
       trace s0 = [EvCompile (restorePat fl)] /\
       exists s1, exec_step fl ustr ACoord s0 = Some s1 /\
                  start s1 = time_Now (trace s0) /\
                  pc s1 = PGunzip regex f) /\
    (forall s0, reachable fl ustr s0 -> pc s0 = PSpawn regex f 0 ->
       trace s0 = [EvCompile (restorePat fl); EvOpen (Arg0 fl)] /\
       time_Now t' - time_Now [EvCompile (restorePat fl)] =
         (time_Now t' - time_Now (trace s0)) +
         (time_Now [EvCompile (restorePat fl); EvOpen (Arg0 fl)] -
          time_Now [EvCompile (restorePat fl)])).
Proof.
  intros Hr Hp Hre Hf Hsmall.
  destruct (returned_all_done s regex f Hr Hp Hre Hf) as (Hrecv & _ & _ & _ & Hex).
  destruct (control_inv_reachable s Hr) as [Hpc _ _ _ _ _ _ _ Hs _].
  destruct (data_inv_reachable s Hr) as [_ _ Hn _ _].
  destruct (log_inv_reachable s Hr) as [Hsum _ _ _].
  rewrite Hp in *. simpl in *.
  destruct Hpc as [Hlen _].
  destruct Hsum as (t' & Ht & Hnone).
  rewrite Hn in Ht by reflexivity.
  rewrite (the_accepted_all regex f) in Ht by auto.
  rewrite wrap_int_small in Ht by lia.
  exists t'. split; [exact Ht|]. split; [exact Hnone|]. split.
  { rewrite Ht in Hrecv. rewrite recvs_app in Hrecv. simpl in Hrecv.
    now rewrite app_nil_r in Hrecv. }
  split; [exact Hs|]. split; [exact Hex|]. split.
  - intros s0 Hr0 Hex0 Hp0.
    pose proof (ci_start fl s0 (control_inv_reachable s0 Hr0)) as Hs0.
    rewrite Hp0 in Hs0. split; [now apply Hs0|].
    unfold exec_step, coord_step. rewrite Hex0, Hp0, Hf. simpl.
    eexists. split; [reflexivity|]. simpl. split; reflexivity.
  - intros s0 Hr0 Hp0. pose proof (running_trace s0 Hr0) as Ht0.
    rewrite Hp0 in Ht0. split; [exact Ht0|]. rewrite Ht0. lia.
Qed.

(** ** The Init phase *)

Lemma startup_failure_stays s :
  startup_failure fl -> reachable fl ustr s -> in_startup (pc s) = true.
Proof.
  intros Hfail. revert s. apply reachable_ind; [reflexivity|].
  intros s a s' Hr IH Hstep.
  apply exec_step_sound in Hstep as [Hex Hstep].
  destruct (control_inv_reachable s Hr) as [Hpc Hst _ _ _ _ _ _ _ _].
  destruct (Hst IH) as [Hws _].
  destruct Hstep as [ regex Hp' Hc | err Hp' Hc | regex f Hp' Hc | regex err Hp' Hc
                    | regex f Hp' Hc | regex f err Hp' Hc
                    | regex f i Hp' Hi | regex f i Hp' Hi
                    | regex f ob Hp' Hl Hm | regex f ob Hp' Hl Hm
                    | regex f Hp' Hl He' | regex f err Hp' Hl He'
                    | Hp' | Hp' Hw0 | Hp'
                    | regex f ob w Hp' Hw Hc
                    | w Do ob evs Hw Hbs | w Do ob evs Hw Hbs | w Hw Hc ].
  all: simpl; try (rewrite Hp' in *; simpl in *); try discriminate; auto.
  all: try (rewrite Hws in Hw; discriminate).
  (* gzip.NewReader cannot succeed *)
  destruct Hpc as [Hre Hf]. unfold regex_is in Hre. unfold file_is in Hf.
  destruct Hfail as [[e He]|[[e He]|(f' & e & Hf' & He)]]; congruence.
Qed.

Lemma startup_calls_order s :
  reachable fl ustr s ->
  (pc s = PCompile /\ exited s = None /\ startup_calls (trace s) = []) \/
  startup_calls (trace s) = [EvCompile (restorePat fl)] \/
  startup_calls (trace s) = [EvCompile (restorePat fl); EvOpen (Arg0 fl)].
Proof.
  intros Hr. destruct (log_inv_reachable s Hr) as [_ Hcalls _ _].
  destruct (pc s); destruct (exited s); auto.
Qed.

(** C8.  The pattern is compiled by the first step of the command, once,
    and the file is opened after that, once.  When the pattern does not
    compile, the file cannot be opened or [gzip.NewReader] rejects it, the
    command never gets past the Init phase: in every state it can reach
    there is no worker, no record has been decoded, received or sent to
    the server, and every run ends with the exit status 1 after at most
    three steps of the coordinator, nothing running afterwards. *)
Theorem C8_startup_failure_aborts_before_any_work :
  startup_failure fl ->
  (forall s, reachable fl ustr s ->
     in_startup (pc s) = true /\ workers s = [] /\ wg s = 0 /\ pos s = 0%nat /\
     recvs (trace s) = [] /\ requests (trace s) = [] /\
     ((pc s = PCompile /\ exited s = None /\ startup_calls (trace s) = []) \/
      startup_calls (trace s) = [EvCompile (restorePat fl)] \/
      startup_calls (trace s) = [EvCompile (restorePat fl); EvOpen (Arg0 fl)])) /\
  inevitably fl ustr any_action (fun s => exited s = Some 1 /\ stuck fl ustr s) init /\
  (forall acts s, run fl ustr acts init = Some s -> Forall (fun a => a = ACoord) acts).
Proof.
  intros Hfail.
  assert (Hin : forall s, reachable fl ustr s ->
            in_startup (pc s) = true /\ workers s = [] /\ wg s = 0 /\ pos s = 0%nat /\
            recvs (trace s) = [] /\ requests (trace s) = []).
  { intros s Hr.
    pose proof (startup_failure_stays s Hfail Hr) as Hst.
    destruct (control_inv_reachable s Hr) as [_ Hst' _ _ _ _ Hwg _ _ _].
    destruct (data_inv_reachable s Hr) as [Hd _ _ _ [Hreq _]].
    destruct (Hst' Hst) as [Hws Hpos].
    assert (Hrecv : recvs (trace s) = []).
    { rewrite Hpos, the_accepted_0 in Hd. now apply app_eq_nil in Hd. }
    rewrite Hrecv in Hreq. rewrite Hws in Hwg.
    repeat split; auto.
    destruct (requests (trace s)); [reflexivity | simpl in Hreq; lia]. }
  split; [|split].
  - intros s Hr. destruct (Hin s Hr) as (H1 & H2 & H3 & H4 & H5 & H6).
    repeat split; auto. now apply startup_calls_order.
  - apply inevitably_intro with (I := reachable fl ustr).
    + intros s a s' Hr _ Hstep. eapply reachable_step; eauto.
    + intros s Hr. destruct (Hin s Hr) as (Hst & _).
      pose proof (control_inv_reachable s Hr) as Hci.
      destruct (control_inv_reachable s Hr) as [Hpc Hst' Hsp Hpool Hcl Hne Hwg Hj Hs He].
      destruct (exited s) as [code|] eqn:Hex.
      * left. rewrite (He code eq_refl). split; [reflexivity|].
        apply exited_stuck. congruence.
      * right. exists ACoord.
        destruct (progress s Hci Hex) as [[s' H]|[(w & s' & H)|[[w H]|(w & s' & H)]]].
        -- intros Hp. now rewrite Hp in Hst.
        -- destruct (pc s); try discriminate; simpl; congruence.
        -- exists s'. now split.
        -- apply exec_step_sound in H as [_ H]. inversion H; subst.
           rewrite H1 in Hst. discriminate.
        -- destruct (H conflict) as [s' Hs'].
           apply exec_step_sound in Hs' as [_ Hs'].
           destruct (Hst' Hst) as [Hws _].
           inversion Hs'; subst; rewrite Hws in *; discriminate.
        -- apply exec_step_sound in H as [_ H].
           destruct (Hst' Hst) as [Hws _].
           inversion H; subst; rewrite Hws in *; discriminate.
    + apply reachable_init.
  - apply (run_ind_last (fun acts s => Forall (fun a => a = ACoord) acts)).
    + constructor.
    + intros acts s a s' Hrun Hall Hstep.
      assert (Hr : reachable fl ustr s) by now exists acts.
      destruct (Hin s Hr) as (Hst & Hws & _).
      apply exec_step_sound in Hstep as [Hex Hstep].
      apply Forall_app. split; [exact Hall|].
      destruct Hstep; repeat constructor; rewrite Hws in *; discriminate.
Qed.

(** ** Hand-over and the join *)

Lemma summary_in t n d : In (EvLog (LSummary n d)) t -> In (n, d) (summaries t).
Proof.
  induction t as [|e t IH]; intros Hin; [destruct Hin|].
  destruct Hin as [->|Hin].
  - now left.
  - unfold summaries in *. simpl.
    destruct e as [| |[]| | | |]; simpl; auto.
Qed.

(** A send that finds the process ended, or no worker started, is never
    received. *)
Lemma blocked_send_stuck s :
  control_inv fl s -> pending (pc s) <> [] ->
  exited s <> None \/ restoreWorkers fl <= 0 -> stuck fl ustr s.
Proof.
  intros Hci Hpend [Hx|HW]; [now apply exited_stuck|].
  assert (Hws : workers s = []).
  { destruct Hci as [_ _ _ Hpool _ _ _ _ _ _].
    destruct (pc s) eqn:Hp; try (now destruct Hpend).
    specialize (Hpool eq_refl eq_refl).
    destruct (workers s); [reflexivity|]. simpl in Hpool. lia. }
  intros a. unfold exec_step. destruct (exited s); [reflexivity|].
  destruct a as [|w|w Do|w]; rewrite ?Hws; simpl.
  - unfold coord_step. destruct (pc s); try (now destruct Hpend). reflexivity.
  - now destruct (pc s).
  - reflexivity.
  - reflexivity.
Qed.

(** C9 (as the code has it).  In every reachable state the records
    received by workers, in the order of the receptions and each with the
    one worker that received it, followed by the record the coordinator is
    sending if any, are exactly the accepted records among those decoded:
    none is received twice, and at most one, the last one decoded, has not
    been received.  That record is never received exactly when the
    process has ended on a fatal condition, or no worker was started; in a
    run that completes every accepted record of the stream is received
    once.  The received records are those finished plus those workers
    hold, and no worker returns before the channel is closed.  The summary
    line, once in the trace, is its last event: by then the channel is
    closed, every worker of the pool has returned, every accepted record
    of the stream was received and every received record finished. *)
Theorem C9_received_at_most_once_and_summary_after_join s regex f :
  reachable fl ustr s ->
  regexp_Compile (restorePat fl) = inl regex ->
  os_Open (Arg0 fl) = inl f ->
  map snd (recv_events (trace s)) ++ pending (pc s) =
    accepted regex (take (pos s) (records f)) /\
  (length (pending (pc s)) <= 1)%nat /\
  (pending (pc s) <> [] ->
   (stuck fl ustr s <-> exited s <> None \/ restoreWorkers fl <= 0)) /\
  (completed s -> map snd (recv_events (trace s)) = accepted regex (records f)) /\
  Permutation (map snd (recv_events (trace s))) (dones (trace s) ++ held (workers s)) /\
  (closed s = false -> Forall (fun w => w <> WExit) (workers s)) /\
  (forall n d, In (EvLog (LSummary n d)) (trace s) ->
     exists t',
       trace s = t' ++ [EvLog (LSummary n d)] /\
       map snd (recv_events t') = accepted regex (records f) /\
       Permutation (map snd (recv_events t')) (dones t') /\
       closed s = true /\
       Forall (fun w => w = WExit) (workers s) /\
       length (workers s) = Z.to_nat (restoreWorkers fl)).
Proof.
  intros Hr Hre Hf.
  pose proof (control_inv_reachable s Hr) as Hci.
  destruct (control_inv_reachable s Hr) as [Hpc _ _ Hpool _ Hne _ _ _ _].
  destruct (data_inv_reachable s Hr) as [Hd H1 _ Hperm _].
  destruct (log_inv_reachable s Hr) as [Hsum _ _ _].
  rewrite H1.
  assert (Hacc : forall n, the_accepted fl n = accepted regex (take n (records f))).
  { intros n. unfold the_accepted, the_records. now rewrite Hre, Hf. }
  rewrite <- Hacc.
  split; [exact Hd|].
  split; [destruct (pc s); simpl; lia|].
  split.
  { intros Hpend. split.
    - intros Hstuck.
      destruct (exited s) as [code|] eqn:Hex; [left; discriminate|].
      destruct (Z_le_gt_dec (restoreWorkers fl) 0) as [HW|HW]; [now right|].
      exfalso.
      assert (Hnr : pc s <> PReturned).
      { intros Hp. rewrite Hp in Hpend. now apply Hpend. }
      assert (Hpool' : pending (pc s) <> [] -> workers s <> []).
      { apply pool_for_send; auto. lia. }
      destruct (progress s Hci Hex Hnr Hpool')
        as [[s' H]|[(w & s' & H)|[[w H]|(w & s' & H)]]];
        try (rewrite Hstuck in H; discriminate).
      destruct (H conflict) as [s' Hs']. rewrite Hstuck in Hs'. discriminate.
    - now apply blocked_send_stuck. }
  split.
  { intros [Hp _].
    destruct (returned_all_done s regex f Hr Hp Hre Hf) as (Hrecv & _). exact Hrecv. }
  split; [exact Hperm|]. split; [exact Hne|].
  intros n d Hin. apply summary_in in Hin.
  destruct (returned_dec s) as [Hp|Hp].
  - destruct (returned_all_done s regex f Hr Hp Hre Hf)
      as (Hrecv & Hperm' & Hall & Hcl & Hex).
    rewrite Hp in Hsum, Hpool. destruct Hsum as (t' & Ht & Hnone).
    rewrite Ht, summaries_app, Hnone in Hin. simpl in Hin.
    destruct Hin as [[= <- <-]|[]].
    exists t'. rewrite Ht in H1, Hrecv, Hperm'.
    rewrite recv_events_app, recvs_app in H1. simpl in H1.
    rewrite !app_nil_r in H1.
    rewrite recvs_app in Hrecv, Hperm'. rewrite dones_app in Hperm'.
    simpl in Hrecv, Hperm'. rewrite !app_nil_r in Hrecv, Hperm'.
    rewrite H1. repeat split; auto.
    now rewrite app_nil_r in Hperm'.
  - assert (Hnone : summaries (trace s) = []).
    { destruct (pc s); auto. now destruct Hp. }
    rewrite Hnone in Hin. destruct Hin.
Qed.

(** ** Termination and the size of the pool *)

Lemma inevitably_reaches A G s :
  inevitably fl ustr A G s -> exists acts s', run fl ustr acts s = Some s' /\ G s'.
Proof.
  induction 1 as [s HG | s (a & s' & Ha & Hstep) _ IH].
  - exists [], s. now split.
  - destruct (IH a s' Ha Hstep) as (acts & s'' & Hrun & HG).
    exists (a :: acts), s''. split; [|exact HG]. simpl. now rewrite Hstep.
Qed.

Lemma terminates_with_a_worker :
  1 <= restoreWorkers fl -> inevitably fl ustr any_action terminated init.
Proof.
  intros HW. apply inevitably_intro with (I := reachable fl ustr).
  - intros s a s' Hr _ Hstep. eapply reachable_step; eauto.
  - intros s Hr. pose proof (control_inv_reachable s Hr) as Hci.
    destruct (exited s) as [code|] eqn:Hex.
    { left. left. congruence. }
    destruct (returned_dec s) as [Hp|Hp]; [left; now right|].
    right.
    destruct (progress s Hci Hex Hp (pool_for_send s Hci HW))
      as [[s' H]|[(w & s' & H)|[[w H]|(w & s' & H)]]].
    + exists ACoord, s'. now split.
    + exists (ARecv w), s'. now split.
    + destruct (H conflict) as [s' Hs']. exists (AWork w conflict), s'. now split.
    + exists (AExit w), s'. now split.
  - apply reachable_init.
Qed.

Lemma accepted_take_in regex f (k n : nat) ob :
  records f !! k = Some ob -> MatchString regex (Path ob) = true -> (k < n)%nat ->
  In ob (accepted regex (take n (records f))).
Proof.
  intros Hk Hm Hlt. apply filter_In. split; [|exact Hm].
  apply list_elem_of_In, elem_of_take. eauto.
Qed.

(** Without workers the command gets to its first send and no further. *)
Lemma no_worker_states regex f (k : nat) ob s :
  restoreWorkers fl <= 0 ->
  regex_is fl regex -> file_is fl f -> gzip_err f = None ->
  records f !! k = Some ob -> MatchString regex (Path ob) = true ->
  reachable fl ustr s ->
  workers s = [] /\ exited s = None /\ after_eof (pc s) = false /\
  recvs (trace s) = [] /\
  (pending (pc s) = [] -> (pos s <= k)%nat).
Proof.
  intros HW Hre Hf Hgz Hk Hm. revert s.
  apply reachable_ind.
  { simpl. repeat split; auto. lia. }
  intros s a s' Hr (Hws & Hex & Hpc & Hrecv & Hpos) Hstep.
  assert (Hr' : reachable fl ustr s') by (eapply reachable_step; eauto).
  destruct (data_inv_reachable s' Hr') as [Hd' _ _ _ _].
  destruct (control_inv_reachable s Hr) as [Hci _ _ _ _ _ _ _ _ _].
  apply exec_step_sound in Hstep as [_ Hstep].
  assert (Hacc : forall n, the_accepted fl n = accepted regex (take n (records f))).
  { intros n. unfold the_accepted, the_records.
    unfold regex_is in Hre. unfold file_is in Hf. now rewrite Hre, Hf. }
  assert (Hnorecv : recvs (trace s') = [] -> pending (pc s') = [] -> (pos s' <= k)%nat).
  { intros E1 E2. rewrite E1, E2, Hacc in Hd'. simpl in Hd'.
    destruct (le_lt_dec (pos s') k) as [Hle|Hlt]; [exact Hle|].
    pose proof (accepted_take_in regex f k (pos s') ob Hk Hm Hlt) as Hin.
    rewrite <- Hd' in Hin. destruct Hin. }
  destruct Hstep as [ regex' Hp' Hc | err Hp' Hc | regex' f' Hp' Hc | regex' err Hp' Hc
                    | regex' f' Hp' Hc | regex' f' err Hp' Hc
                    | regex' f' i Hp' Hi | regex' f' i Hp' Hi
                    | regex' f' ob' Hp' Hl Hm' | regex' f' ob' Hp' Hl Hm'
                    | regex' f' Hp' Hl He' | regex' f' err Hp' Hl He'
                    | Hp' | Hp' Hw0 | Hp'
                    | regex' f' ob' w Hp' Hw Hc
                    | w Do ob' evs Hw Hbs | w Do ob' evs Hw Hbs | w Hw Hc ].
  all: try (rewrite Hws in Hw; discriminate).
  all: try (rewrite Hp' in *; simpl in *); try discriminate.
  all: unfold regex_is, file_is in *.
  all: try congruence.
  all: proj; rewrite ?Hrecv.
  all: try (repeat split; auto; try lia; try discriminate; fail).
  - (* gzip.NewReader accepts the file *)
    destruct Hci as [_ Hf']. congruence.
  - (* a record that does not match *)
    simpl in Hnorecv. rewrite Hp' in *. simpl in *.
    repeat split; auto.
  - (* the stream cannot end before the accepted record *)
    destruct Hci as [_ Hf']. assert (f' = f) as -> by congruence.
    apply lookup_ge_None in Hl. apply lookup_lt_Some in Hk.
    specialize (Hpos eq_refl). lia.
  - destruct Hci as [_ Hf']. assert (f' = f) as -> by congruence.
    apply lookup_ge_None in Hl. apply lookup_lt_Some in Hk.
    specialize (Hpos eq_refl). lia.
Qed.


(** C10.  Nothing in the command checks the worker count.  Take an input
    that gets through the Init phase and has a record the pattern
    accepts.  Then every run of the command terminates exactly when the
    worker count is at least 1 (with a worker every run terminates, for
    every input).  When the count is 0 or less, no worker is ever started;
    the coordinator still reads the stream up to the first accepted record
    and tries to send it, and there every run gets stuck for good: nothing
    can take a step, the process has neither exited nor returned, and no
    reachable state is one where it has. *)
Theorem C10_termination_needs_a_worker regex f (k : nat) ob :
  regexp_Compile (restorePat fl) = inl regex ->
  os_Open (Arg0 fl) = inl f ->
  gzip_err f = None ->
  records f !! k = Some ob ->
  MatchString regex (Path ob) = true ->
  (inevitably fl ustr any_action terminated init <-> 1 <= restoreWorkers fl) /\
  (restoreWorkers fl <= 0 ->
   (forall s, reachable fl ustr s -> ~ terminated s /\ workers s = []) /\
   inevitably fl ustr any_action
     (fun s => stuck fl ustr s /\ ~ terminated s /\
               exists ob', pc s = PSend regex f ob')
     init).
Proof.
  intros Hre Hf Hgz Hk Hm.
  assert (Hnever : restoreWorkers fl <= 0 ->
            forall s, reachable fl ustr s -> ~ terminated s /\ workers s = []).
  { intros HW s Hr.
    destruct (no_worker_states regex f k ob s HW Hre Hf Hgz Hk Hm Hr)
      as (Hws & Hex & Hpc & _).
    split; [|exact Hws]. intros [H|H]; [congruence|].
    rewrite H in Hpc. discriminate. }
  split; [split|].
  - intros Hinev. destruct (Z_le_gt_dec 1 (restoreWorkers fl)) as [H|H]; [exact H|].
    destruct (inevitably_reaches _ _ _ Hinev) as (acts & s & Hrun & Hterm).
    destruct (Hnever ltac:(lia) s) as [Hn _]; [now exists acts|].
    now destruct Hn.
  - apply terminates_with_a_worker.
  - intros HW. split; [now apply Hnever|].
    apply inevitably_intro with (I := reachable fl ustr).
    + intros s a s' Hr _ Hstep. eapply reachable_step; eauto.
    + intros s Hr.
      destruct (no_worker_states regex f k ob s HW Hre Hf Hgz Hk Hm Hr)
        as (Hws & Hex & Hpc & _).
      pose proof (control_inv_reachable s Hr) as Hci.
      destruct (pending (pc s)) as [|ob' l] eqn:Hpend.
      * right.
        assert (Hp : pc s <> PReturned).
        { intros H. rewrite H in Hpc. discriminate. }
        destruct (progress s Hci Hex Hp) as [[s' H]|[(w & s' & H)|[[w H]|(w & s' & H)]]].
        -- rewrite Hpend. now intros [].
        -- exists ACoord, s'. now split.
        -- exists (ARecv w), s'. now split.
        -- destruct (H conflict) as [s' Hs']. exists (AWork w conflict), s'. now split.
        -- exists (AExit w), s'. now split.
      * left.
        destruct (pc s) as [| | | | |re' f' ob''| | | |] eqn:Hp; try discriminate.
        destruct Hci as [Hci _ _ _ _ _ _ _ _ _]. rewrite Hp in Hci.
        destruct Hci as [Hre' Hf']. unfold regex_is in Hre'. unfold file_is in Hf'.
        assert (re' = regex) as -> by congruence.
        assert (f' = f) as -> by congruence.
        split; [|split].
        -- intros a. unfold exec_step, coord_step. rewrite Hex, Hp, Hws.
           destruct a; reflexivity.
        -- intros [H|H]; congruence.
        -- eauto.
    + apply reachable_init.
Qed.

(** ** Fatal conditions *)

(** A step that ends the process finishes no record and changes neither
    the pool, nor the channel, nor the place of the coordinator; afterwards
    no goroutine takes a step. *)
Lemma exit_step_leaves_all s a s' :
  reachable fl ustr s ->
  exec_step fl ustr a s = Some s' ->
  exited s' <> None ->
  exited s' = Some 1 /\
  stuck fl ustr s' /\
  workers s' = workers s /\
  pc s' = pc s /\
  closed s' = closed s /\
  wg s' = wg s /\
  dones (trace s') = dones (trace s) /\
  Permutation (recvs (trace s')) (dones (trace s) ++ held (workers s)) /\
  summaries (trace s') = [] /\
  joined (pc s') = false.
Proof.
  intros Hr Hstep Hx.
  assert (Hr' : reachable fl ustr s') by (eapply reachable_step; eauto).
  destruct (control_inv_reachable s' Hr') as [_ _ _ _ _ _ _ Hj _ He].
  destruct (data_inv_reachable s' Hr') as [_ _ _ Hperm _].
  destruct (log_inv_reachable s' Hr') as [Hsum _ _ _].
  assert (Hnj : joined (pc s') = false).
  { destruct (joined (pc s')); [|reflexivity].
    destruct Hj as [_ Hex]; [reflexivity|]. now destruct Hx. }
  assert (Hnone : summaries (trace s') = []).
  { destruct (pc s'); auto; discriminate. }
  assert (Hcode : exited s' = Some 1).
  { destruct (exited s') as [code|]; [|now destruct Hx]. now rewrite (He code). }
  pose proof (exited_stuck s' Hx) as Hstuck.
  apply exec_step_sound in Hstep as [Hex Hstep].
  destruct Hstep; simpl in *; try congruence; proj.
  all: repeat split; auto.
  all: try (revert Hperm; proj; auto; fail).
  all: try (revert Hnone; proj; auto; fail).
  all: match goal with
       | H : body_spec _ _ _ _ _ _ |- _ =>
           destruct (body_spec_silent _ _ _ _ H) as (E1 & E2 & E3 & E4 & _)
       end.
  - now rewrite E3, app_nil_r.
  - revert Hperm. proj. now rewrite E3, app_nil_r.
Qed.

(** C1 (as the code has it).  When the decoder meets a malformed record,
    the next statement of the coordinator is [log.Fatalf] (line 128): it
    prints the diagnostic and ends the process there with status 1.  That
    step finishes no record, makes no request, and changes neither the
    pool nor the channel; afterwards no goroutine takes a step.  So the
    records that workers hold at that moment stay unprocessed: if there is
    one, the records received are not all finished when the process has
    ended.  The channel is not closed, [wg.Wait()] is not reached and no
    summary is logged. *)
Theorem C1_malformed_record_exits_without_drain s regex f err :
  reachable fl ustr s ->
  exited s = None ->
  pc s = PDecode regex f ->
  records f !! pos s = None ->
  stream_end f = Malformed err ->
  exists s',
    exec_step fl ustr ACoord s = Some s' /\
    exited s' = Some 1 /\
    trace s' = trace s ++ [EvFatal (FRead err)] /\
    stuck fl ustr s' /\
    workers s' = workers s /\
    pc s' = PDecode regex f /\
    closed s' = false /\
    wg s' = Z.of_nat (live (workers s)) /\
    dones (trace s') = dones (trace s) /\
    requests (trace s') = requests (trace s) /\
    Permutation (recvs (trace s')) (dones (trace s') ++ held (workers s)) /\
    summaries (trace s') = [] /\
    (held (workers s) <> [] -> ~ drained_at_exit s').
Proof.
  intros Hr Hex Hp Hl Hend.
  set (s' := set_exited 1 (emit [EvFatal (FRead err)] s)).
  assert (Hstep : exec_step fl ustr ACoord s = Some s').
  { unfold exec_step, coord_step. now rewrite Hex, Hp, Hl, Hend. }
  assert (Hx : exited s' <> None) by discriminate.
  destruct (exit_step_leaves_all s ACoord s' Hr Hstep Hx)
    as (H1 & H2 & H3 & H4 & H5 & H6 & H7 & H8 & H9 & _).
  destruct (control_inv_reachable s Hr) as [_ _ _ _ Hcl _ Hwg _ _ _].
  exists s'. split; [exact Hstep|]. split; [exact H1|]. split; [reflexivity|].
  split; [exact H2|]. split; [exact H3|]. split; [now rewrite H4|].
  split; [now rewrite H5, Hcl, Hp|]. split; [now rewrite H6|].
  split; [exact H7|]. split.
  { subst s'. simpl. rewrite requests_app. simpl. now rewrite app_nil_r. }
  split; [now rewrite H7|]. split; [exact H9|].
  intros Hheld Hdrain. specialize (Hdrain Hx).
  rewrite H7 in Hdrain.
  pose proof (Permutation_length H8) as L1.
  pose proof (Permutation_length Hdrain) as L2.
  rewrite length_app in L1. destruct (held (workers s)); [now apply Hheld|].
  subst s'. simpl in L1, L2. lia.
Qed.

(** * Further properties of the command *)

(** ** Runs that no fatal condition can end *)

Lemma noop_paths_app t t' : noop_paths (t ++ t') = noop_paths t ++ noop_paths t'.
Proof. apply omap_app. Qed.

(** If the runs allowed by [A] never meet a failed POST, the input is
    clean and a send always finds a pool, those runs all complete. *)
Lemma completes_when_alive (A : Action -> Prop) regex f :
  (forall acts s, Forall A acts -> run fl ustr acts init = Some s ->
                  forall u e, ~ In (FPost u e) (fatals (trace s))) ->
  (forall s, can_run fl ustr s -> exists a s', A a /\ exec_step fl ustr a s = Some s') ->
  clean_input fl regex f ->
  (forall s, reachable fl ustr s -> pending (pc s) <> [] -> workers s <> []) ->
  inevitably fl ustr A completed init.
Proof.
  intros Hpost Hpick Hclean Hpool.
  apply inevitably_intro
    with (I := fun s => exists acts, Forall A acts /\ run fl ustr acts init = Some s).
  - intros s a s' (acts & Hall & Hrun) Ha Hstep.
    exists (acts ++ [a]). split.
    + apply Forall_app. split; [exact Hall|]. now repeat constructor.
    + eapply run_snoc; eauto.
  - intros s (acts & Hall & Hrun).
    assert (Hr : reachable fl ustr s) by now exists acts.
    pose proof (clean_run_alive _ _ _ Hclean Hr (Hpost acts s Hall Hrun)) as Hex.
    destruct (returned_dec s) as [Hp|Hp]; [left; now split|].
    right. apply Hpick. apply progress; auto.
    now apply control_inv_reachable.
  - exists []. split; [constructor | reflexivity].
Qed.

Lemma can_run_pick (A : Action -> Prop) Do0 :
  A ACoord -> (forall w, A (ARecv w)) -> (forall w, A (AWork w Do0)) ->
  (forall w, A (AExit w)) ->
  forall s, can_run fl ustr s -> exists a s', A a /\ exec_step fl ustr a s = Some s'.
Proof.
  intros H1 H2 H3 H4 s [[s' H]|[(w & s' & H)|[[w H]|(w & s' & H)]]].
  - exists ACoord, s'. now split.
  - exists (ARecv w), s'. now split.
  - destruct (H Do0) as [s' Hs']. exists (AWork w Do0), s'. now split.
  - exists (AExit w), s'. now split.
Qed.

(** A transport that always answers never makes [restoreFile] exit. *)
Lemma responding_run acts s :
  Forall responds acts ->
  run fl ustr acts init = Some s ->
  forall u e, ~ In (FPost u e) (fatals (trace s)).
Proof.
  intros Hall Hrun. revert Hall. revert acts s Hrun.
  apply (run_ind_last (fun acts s =>
           Forall responds acts -> forall u e, ~ In (FPost u e) (fatals (trace s)))).
  { intros _ u e []. }
  intros acts s a s' Hrun IH Hstep Hall.
  apply Forall_app in Hall as [Hall Ha].
  specialize (IH Hall).
  apply exec_step_sound in Hstep as [Hex Hstep].
  destruct Hstep as [ regex Hp' Hc | err Hp' Hc | regex f Hp' Hc | regex err Hp' Hc
                    | regex f Hp' Hc | regex f err Hp' Hc
                    | regex f i Hp' Hi | regex f i Hp' Hi
                    | regex f ob Hp' Hl Hm | regex f ob Hp' Hl Hm
                    | regex f Hp' Hl He' | regex f err Hp' Hl He'
                    | Hp' | Hp' Hw0 | Hp'
                    | regex f ob w Hp' Hw Hc
                    | w Do ob evs Hw Hbs | w Do ob evs Hw Hbs | w Hw Hc ].
  all: simpl; proj; auto.
  all: try (intros u e Hin; apply in_app_or in Hin as [Hin|Hin];
            [now apply (IH u e) | simpl in Hin; intuition discriminate]).
  - (* restoreFile returned *)
    destruct (body_spec_outcome _ _ _ _ Hbs) as [[_ E]|[[=] _]].
    rewrite E, app_nil_r. exact IH.
  - (* it cannot exit *)
    inversion Ha as [|? ? Hresp _]; subst. simpl in Hresp.
    inversion Hbs as [ | | | b e Hn Hm Hq Hd | | | ]; subst.
    destruct (Hresp (restoreRequest fl ustr (Path ob) b)) as (st & body & Hd').
    congruence.
Qed.

(** X1.  A server that answers, with whatever status, cannot stop the
    command.  On a clean input with at least one worker, every run in
    which the transport always returns a response completes; in such runs
    the process never exits and no fatal diagnostic is printed, and when
    [restoreCommand] returns every accepted record has been finished. *)
Theorem statuses_never_abort regex f acts s :
  clean_input fl regex f ->
  1 <= restoreWorkers fl ->
  Forall responds acts ->
  run fl ustr acts init = Some s ->
  exited s = None /\
  fatals (trace s) = [] /\
  (completed s -> Permutation (dones (trace s)) (accepted regex (records f))) /\
  inevitably fl ustr responds completed init.
Proof.
  intros Hclean HW Hall Hrun.
  assert (Hr : reachable fl ustr s) by now exists acts.
  pose proof (responding_run acts s Hall Hrun) as Hpost.
  pose proof (clean_run_alive _ _ _ Hclean Hr Hpost) as Hex.
  destruct (log_inv_reachable s Hr) as [_ _ Hfat _].
  split; [exact Hex|]. split; [|split].
  - destruct (fatals (trace s)) as [|m l] eqn:E; [reflexivity|].
    destruct (Hfat m (or_introl eq_refl)) as [Hx _]. congruence.
  - intros [Hp _]. destruct Hclean as (Hre & Hf & _).
    destruct (returned_all_done s regex f Hr Hp Hre Hf) as (E & Hperm & _).
    rewrite <- E. now symmetry.
  - apply (completes_when_alive responds regex f); auto.
    + exact responding_run.
    + apply (can_run_pick responds conflict); simpl; auto.
      intros _ req. exists 409, "exists". reflexivity.
    + intros s0 Hr0. apply pool_for_send; auto. now apply control_inv_reachable.
Qed.

(** ** Runs against a server that creates everything *)

Lemma body_spec_created Do ob evs r :
  restoreNoop fl = false -> buildable ustr ob ->
  (forall req, exists body, Do req = Response 201 body) ->
  body_spec fl ustr Do ob evs r ->
  r = Ret tt /\ restored_paths evs = [Path ob] /\ failed_paths evs = [] /\
  length (requests evs) = 1%nat.
Proof.
  intros Hn (b & Hm & Hq) H201 Hbs.
  destruct Hbs as [ Hn' | err Hn' Hm' | b' err Hn' Hm' Hq' | b' e Hn' Hm' Hq' Hd
                  | b' body Hn' Hm' Hq' Hd | b' body Hn' Hm' Hq' Hd Hf
                  | b' status body Hn' Hm' Hq' Hd Hs Hsf ];
    try congruence;
    destruct (H201 (restoreRequest fl ustr (Path ob) b')) as [body' Hd'];
    rewrite Hd' in Hd; try discriminate; inversion Hd; subst.
  - repeat split; reflexivity.
  - now destruct Hs.
Qed.

(** About the model only: a call of [restoreFile] being one step, at every
    state of such a run each request has been answered and its record
    logged and finished.  The theorem keeps what does not depend on that. *)
Lemma created_run acts s :
  restoreNoop fl = false ->
  Forall (buildable ustr) (the_records fl) ->
  Forall always201 acts ->
  run fl ustr acts init = Some s ->
  restored_paths (trace s) = map Path (dones (trace s)) /\
  failed_paths (trace s) = [] /\
  length (requests (trace s)) = length (dones (trace s)) /\
  forall u e, ~ In (FPost u e) (fatals (trace s)).
Proof.
  intros Hn Hb Hall Hrun. revert Hall. revert acts s Hrun.
  apply (run_ind_last (fun acts s =>
           Forall always201 acts ->
           restored_paths (trace s) = map Path (dones (trace s)) /\
           failed_paths (trace s) = [] /\
           length (requests (trace s)) = length (dones (trace s)) /\
           forall u e, ~ In (FPost u e) (fatals (trace s)))).
  { intros _. simpl. repeat split; auto. }
  intros acts s a s' Hrun IH Hstep Hall.
  apply Forall_app in Hall as [Hall Ha].
  destruct (IH Hall) as (IH1 & IH2 & IH3 & IH4). clear IH.
  assert (Hreach : reachable fl ustr s) by now exists acts.
  apply exec_step_sound in Hstep as [Hex Hstep].
  destruct Hstep as [ regex' Hp' Hc | err Hp' Hc | regex' f' Hp' Hc | regex' err Hp' Hc
                    | regex' f' Hp' Hc | regex' f' err Hp' Hc
                    | regex' f' i Hp' Hi | regex' f' i Hp' Hi
                    | regex' f' ob Hp' Hl Hm | regex' f' ob Hp' Hl Hm
                    | regex' f' Hp' Hl He' | regex' f' err Hp' Hl He'
                    | Hp' | Hp' Hw0 | Hp'
                    | regex' f' ob w Hp' Hw Hc
                    | w Do ob evs Hw Hbs | w Do ob evs Hw Hbs | w Hw Hc ].
  all: simpl; proj; rewrite ?IH1, ?IH2.
  all: try (repeat split; auto; intros u e Hin;
            repeat (apply in_app_or in Hin as [Hin|Hin]; [now apply (IH4 u e)|]);
            try (now apply (IH4 u e));
            simpl in Hin; intuition discriminate).
  - inversion Ha as [|? ? H201 _]; subst. simpl in H201.
    assert (Hbuild : buildable ustr ob).
    { eapply List.Forall_forall; [exact Hb|]. eapply holding_decoded; eauto. }
    destruct (body_spec_created Do ob evs _ Hn Hbuild H201 Hbs) as (_ & E1 & E2 & E3).
    destruct (body_spec_outcome _ _ _ _ Hbs) as [[_ E4]|[[=] _]].
    destruct (body_spec_silent _ _ _ _ Hbs) as (_ & _ & E5 & _).
    rewrite E1, E2, E4, E5. simpl. rewrite !app_nil_r.
    repeat split; auto.
    + now rewrite map_app.
    + rewrite !length_app, E3, IH3. reflexivity.
  - inversion Ha as [|? ? H201 _]; subst. simpl in H201.
    assert (Hbuild : buildable ustr ob).
    { eapply List.Forall_forall; [exact Hb|]. eapply holding_decoded; eauto. }
    destruct (body_spec_created Do ob evs _ Hn Hbuild H201 Hbs) as ([=] & _).
Qed.

(** X2.  Against a server that answers 201 to everything (noop unset,
    every record's request buildable) no failure line is ever logged and
    no POST fails; and when the command returns, every accepted record
    of the stream has been logged as restored, once, and as many requests
    were made as there are accepted records. *)
Theorem created_run_logs_every_record regex f acts s :
  restoreNoop fl = false ->
  Forall (buildable ustr) (the_records fl) ->
  regexp_Compile (restorePat fl) = inl regex ->
  os_Open (Arg0 fl) = inl f ->
  Forall always201 acts ->
  run fl ustr acts init = Some s ->
  failed_paths (trace s) = [] /\
  (forall u e, ~ In (FPost u e) (fatals (trace s))) /\
  (pc s = PReturned ->
   Permutation (restored_paths (trace s)) (map Path (accepted regex (records f))) /\
   length (requests (trace s)) = length (accepted regex (records f))).
Proof.
  intros Hn Hb Hre Hf Hall Hrun.
  destruct (created_run acts s Hn Hb Hall Hrun) as (H1 & H2 & H3 & H4).
  assert (Hr : reachable fl ustr s) by now exists acts.
  split; [exact H2|]. split; [exact H4|].
  intros Hp.
  destruct (returned_all_done s regex f Hr Hp Hre Hf) as (E & Hperm & _).
  split.
  - rewrite H1, <- E. now apply Permutation_map, Permutation_sym.
  - rewrite H3, <- E. symmetry. now apply Permutation_length.
Qed.

(** ** Dry runs as a whole *)

Lemma noop_run acts s :
  restoreNoop fl = true ->
  run fl ustr acts init = Some s ->
  noop_paths (trace s) = map Path (dones (trace s)) /\
  restored_paths (trace s) = [] /\
  failed_paths (trace s) = [] /\
  forall u e, ~ In (FPost u e) (fatals (trace s)).
Proof.
  intros Hn. revert acts s.
  apply (run_ind_last (fun acts s =>
           noop_paths (trace s) = map Path (dones (trace s)) /\
           restored_paths (trace s) = [] /\
           failed_paths (trace s) = [] /\
           forall u e, ~ In (FPost u e) (fatals (trace s)))).
  { simpl. repeat split; auto. }
  intros acts s a s' Hrun (IH1 & IH2 & IH3 & IH4) Hstep.
  apply exec_step_sound in Hstep as [Hex Hstep].
  destruct Hstep as [ regex' Hp' Hc | err Hp' Hc | regex' f' Hp' Hc | regex' err Hp' Hc
                    | regex' f' Hp' Hc | regex' f' err Hp' Hc
                    | regex' f' i Hp' Hi | regex' f' i Hp' Hi
                    | regex' f' ob Hp' Hl Hm | regex' f' ob Hp' Hl Hm
                    | regex' f' Hp' Hl He' | regex' f' err Hp' Hl He'
                    | Hp' | Hp' Hw0 | Hp'
                    | regex' f' ob w Hp' Hw Hc
                    | w Do ob evs Hw Hbs | w Do ob evs Hw Hbs | w Hw Hc ].
  all: simpl; proj; rewrite ?noop_paths_app, ?IH1, ?IH2, ?IH3; simpl; rewrite ?app_nil_r.
  all: try (repeat split; auto; intros u e Hin;
            repeat (apply in_app_or in Hin as [Hin|Hin]; [now apply (IH4 u e)|]);
            try (now apply (IH4 u e));
            simpl in Hin; intuition discriminate).
  - inversion Hbs; subst; try congruence. simpl. rewrite !app_nil_r.
    repeat split; auto. now rewrite map_app.
  - inversion Hbs; subst; congruence.
Qed.

(** X3.  A dry run cannot be stopped by the server.  With noop set, every
    record a worker finishes is logged as a NOOP line with its path, in
    the order of finishing, nothing is logged as restored or failed, and
    whatever the transport would answer (a refused connection included)
    every run on a clean input with at least one worker completes, the
    NOOP lines being then the paths of the accepted records. *)
Theorem noop_run_logs_intent_and_completes regex f acts s :
  restoreNoop fl = true ->
  clean_input fl regex f ->
  1 <= restoreWorkers fl ->
  run fl ustr acts init = Some s ->
  noop_paths (trace s) = map Path (dones (trace s)) /\
  restored_paths (trace s) = [] /\
  failed_paths (trace s) = [] /\
  exited s = None /\
  (pc s = PReturned ->
   Permutation (noop_paths (trace s)) (map Path (accepted regex (records f)))) /\
  inevitably fl ustr any_action completed init.
Proof.
  intros Hn Hclean HW Hrun.
  destruct (noop_run acts s Hn Hrun) as (H1 & H2 & H3 & H4).
  assert (Hr : reachable fl ustr s) by now exists acts.
  split; [exact H1|]. split; [exact H2|]. split; [exact H3|].
  split; [eapply clean_run_alive; eauto|]. split.
  - intros Hp. destruct Hclean as (Hre & Hf & _).
    destruct (returned_all_done s regex f Hr Hp Hre Hf) as (E & Hperm & _).
    rewrite H1, <- E. now apply Permutation_map, Permutation_sym.
  - apply (completes_when_alive any_action regex f); auto.
    + intros acts0 s0 _ Hrun0. now apply (noop_run acts0 s0 Hn Hrun0).
    + apply (can_run_pick any_action refused); unfold any_action; auto.
    + intros s0 Hr0. apply pool_for_send; auto. now apply control_inv_reachable.
Qed.

(** ** Failures before the request is sent *)

(** X4.  When [json.Marshal] or [http.NewRequest] fails for the record a
    worker holds (noop unset), the worker logs that error against the path
    and is back at the receive; no request is executed, so the step is the
    same whatever the transport would have answered, and the process goes
    on. *)
Theorem local_failure_is_logged_without_request s (w : nat) ob err Do :
  exited s = None ->
  workers s !! w = Some (WHold ob) ->
  restoreNoop fl = false ->
  json_Marshal (Meta ob) = inr err \/
  (exists b, json_Marshal (Meta ob) = inl b /\
             http_NewRequest_err "POST" (URL_String (restoreURL ustr (Path ob))) = Some err) ->
  restoreFile fl Do ustr (Path ob) (Meta ob) = ([], Ret (Some err)) /\
  exec_step fl ustr (AWork w Do) s =
    Some (set_workers (<[w := WRecv]> (workers s))
            (emit [EvLog (LError (Path ob) err); EvDone w ob] s)) /\
  (forall Do', exec_step fl ustr (AWork w Do') s = exec_step fl ustr (AWork w Do) s).
Proof.
  intros Hex Hw Hn Hfail.
  assert (E : forall Do0, restoreFile fl Do0 ustr (Path ob) (Meta ob) = ([], Ret (Some err))).
  { intros Do0. unfold restoreFile. rewrite Hn.
    destruct Hfail as [Hm|(b & Hm & Hq)]; rewrite Hm; [reflexivity|].
    unfold http_NewRequest. fold (restoreURL ustr (Path ob)). now rewrite Hq. }
  assert (S : forall Do0, exec_step fl ustr (AWork w Do0) s =
              Some (set_workers (<[w := WRecv]> (workers s))
                      (emit [EvLog (LError (Path ob) err); EvDone w ob] s))).
  { intros Do0. rewrite (exec_work s w Do0 ob Hex Hw).
    unfold restoreWorker_body. now rewrite E. }
  split; [apply E|]. split; [apply S|]. intros Do'. now rewrite !S.
Qed.

(** ** One worker, one record at a time *)

Lemma recvs_of_app w t t' : recvs_of w (t ++ t') = recvs_of w t ++ recvs_of w t'.
Proof. apply omap_app. Qed.
Lemma dones_of_app w t t' : dones_of w (t ++ t') = dones_of w t ++ dones_of w t'.
Proof. apply omap_app. Qed.

Lemma body_spec_no_handover Do ob evs r w :
  body_spec fl ustr Do ob evs r -> recvs_of w evs = [] /\ dones_of w evs = [].
Proof. destruct 1; simpl; auto. Qed.

Lemma holding_insert ws (w w0 : nat) x :
  (w0 < length ws)%nat ->
  holding (<[w0 := x]> ws) w =
  if Nat.eqb w0 w then match x with WHold ob => [ob] | _ => [] end else holding ws w.
Proof.
  intros Hlt. unfold holding. destruct (Nat.eqb_spec w0 w) as [->|Hne].
  - now rewrite list_lookup_insert_eq.
  - now rewrite list_lookup_insert_ne.
Qed.

Lemma holding_spawn ws w : holding (ws ++ [WRecv]) w = holding ws w.
Proof.
  unfold holding. destruct (ws !! w) as [x|] eqn:E.
  - now rewrite (lookup_app_l_Some _ _ _ _ E).
  - apply lookup_ge_None in E.
    destruct ((ws ++ [WRecv]) !! w) as [y|] eqn:E'; [|reflexivity].
    rewrite lookup_app_r in E' by lia.
    destruct (w - length ws)%nat; simpl in E'; [now injection E' as <-|discriminate].
Qed.

(** X5.  Each worker handles its records strictly one after the other.  In
    every reachable state, also after a fatal exit, the records a worker
    has received are, in the same order, the records it has finished,
    followed by the one it holds if it holds one: a worker never receives
    a second record before finishing the first, and never finishes a
    record it did not receive. *)
Theorem worker_finishes_before_next_receive s (w : nat) :
  reachable fl ustr s ->
  recvs_of w (trace s) = dones_of w (trace s) ++ holding (workers s) w.
Proof.
  intros Hr. revert w. revert s Hr.
  apply (reachable_ind (fun s => forall w : nat,
           recvs_of w (trace s) = dones_of w (trace s) ++ holding (workers s) w)).
  { reflexivity. }
  intros s a s' Hr IH Hstep w.
  apply exec_step_sound in Hstep as [Hex Hstep].
  destruct Hstep as [ regex Hp' Hc | err Hp' Hc | regex f Hp' Hc | regex err Hp' Hc
                    | regex f Hp' Hc | regex f err Hp' Hc
                    | regex f i Hp' Hi | regex f i Hp' Hi
                    | regex f ob Hp' Hl Hm | regex f ob Hp' Hl Hm
                    | regex f Hp' Hl He' | regex f err Hp' Hl He'
                    | Hp' | Hp' Hw0 | Hp'
                    | regex f ob w0 Hp' Hw Hc
                    | w0 Do ob evs Hw Hbs | w0 Do ob evs Hw Hbs | w0 Hw Hc ].
  all: simpl; rewrite ?recvs_of_app, ?dones_of_app; simpl;
    rewrite ?app_nil_r, ?holding_spawn; auto.
  - (* hand-over *)
    rewrite holding_insert by (eapply lookup_lt_Some; eauto).
    rewrite IH. destruct (Nat.eqb_spec w0 w) as [->|Hne].
    + unfold holding. rewrite Hw. now rewrite !app_nil_r.
    + now rewrite app_nil_r.
  - (* a record is finished *)
    destruct (body_spec_no_handover _ _ _ _ w Hbs) as [E1 E2].
    rewrite E1, E2, app_nil_r. simpl.
    rewrite holding_insert by (eapply lookup_lt_Some; eauto).
    rewrite IH. destruct (Nat.eqb_spec w0 w) as [->|Hne].
    + unfold holding. rewrite Hw. now rewrite app_nil_r.
    + now rewrite app_nil_r.
  - (* the process exits *)
    destruct (body_spec_no_handover _ _ _ _ w Hbs) as [E1 E2].
    now rewrite E1, E2, !app_nil_r.
  - (* a worker returns *)
    rewrite holding_insert by (eapply lookup_lt_Some; eauto).
    rewrite IH. destruct (Nat.eqb_spec w0 w) as [->|Hne]; [|reflexivity].
    unfold holding. now rewrite Hw.
Qed.

Lemma single_pool s :
  restoreWorkers fl = 1 -> control_inv fl s -> (length (workers s) <= 1)%nat.
Proof.
  intros HW [Hpc Hst Hsp Hpool _ _ _ _ _ _].
  destruct (in_startup (pc s)) eqn:E1.
  { destruct (Hst eq_refl) as [-> _]. simpl. lia. }
  destruct (spawning (pc s)) eqn:E2.
  { destruct (pc s); try discriminate. destruct Hpc as (_ & _ & Hi & ->). lia. }
  rewrite (Hpool eq_refl eq_refl), HW. simpl. lia.
Qed.

Lemma held_single ws (w : nat) x :
  (length ws <= 1)%nat -> ws !! w = Some x ->
  held ws = match x with WHold ob => [ob] | _ => [] end /\
  forall y, held (<[w := y]> ws) = match y with WHold ob => [ob] | _ => [] end.
Proof.
  destruct ws as [|x0 [|x1 ws]]; simpl; try lia; intros _ Hl.
  - discriminate.
  - destruct w; [|discriminate]. injection Hl as ->.
    split; [now destruct x|]. intros y. now destruct y.
Qed.

(** X6.  With [-workers 1] the restore is sequential.  In every reachable
    state the records received are, in order, those finished followed by
    the one being handled, so records are finished in the order they
    were received; and when [restoreCommand] returns, the records have
    been finished exactly in the order in which the accepted ones appear
    in the backup stream. *)
Theorem single_worker_keeps_stream_order regex f s :
  restoreWorkers fl = 1 ->
  regexp_Compile (restorePat fl) = inl regex ->
  os_Open (Arg0 fl) = inl f ->
  reachable fl ustr s ->
  recvs (trace s) = dones (trace s) ++ held (workers s) /\
  (pc s = PReturned -> dones (trace s) = accepted regex (records f)).
Proof.
  intros HW Hre Hf Hr.
  assert (Hseq : recvs (trace s) = dones (trace s) ++ held (workers s)).
  { clear Hre Hf regex f. revert s Hr.
    apply (reachable_ind (fun s =>
             recvs (trace s) = dones (trace s) ++ held (workers s))); [reflexivity|].
    intros s a s' Hr IH Hstep.
    pose proof (single_pool s HW (control_inv_reachable s Hr)) as Hlen.
    apply exec_step_sound in Hstep as [Hex Hstep].
    destruct Hstep as [ regex Hp' Hc | err Hp' Hc | regex f Hp' Hc | regex err Hp' Hc
                      | regex f Hp' Hc | regex f err Hp' Hc
                      | regex f i Hp' Hi | regex f i Hp' Hi
                      | regex f ob Hp' Hl Hm | regex f ob Hp' Hl Hm
                      | regex f Hp' Hl He' | regex f err Hp' Hl He'
                      | Hp' | Hp' Hw0 | Hp'
                      | regex f ob w0 Hp' Hw Hc
                      | w0 Do ob evs Hw Hbs | w0 Do ob evs Hw Hbs | w0 Hw Hc ].
    all: simpl; proj; auto.
    - rewrite held_app. simpl. now rewrite app_nil_r.
    - destruct (held_single _ _ _ Hlen Hw) as [E1 E2].
      rewrite (E2 (WHold ob)), IH, E1. now rewrite app_nil_r.
    - destruct (held_single _ _ _ Hlen Hw) as [E1 E2].
      destruct (body_spec_silent _ _ _ _ Hbs) as (R1 & _ & R2 & _).
      rewrite R1, R2, (E2 WRecv), IH, E1. simpl. now rewrite !app_nil_r.
    - destruct (body_spec_silent _ _ _ _ Hbs) as (R1 & _ & R2 & _).
      now rewrite R1, R2, !app_nil_r.
    - destruct (held_single _ _ _ Hlen Hw) as [E1 E2].
      rewrite (E2 WExit), IH, E1. reflexivity. }
  split; [exact Hseq|]. intros Hp.
  destruct (returned_all_done s regex f Hr Hp Hre Hf) as (E & _).
  destruct (control_inv_reachable s Hr) as [_ _ _ _ _ _ _ Hj _ _].
  rewrite Hp in Hj. destruct (Hj eq_refl) as [Hall _].
  rewrite (held_all_exit _ Hall), app_nil_r in Hseq. congruence.
Qed.

(** ** The channel, the WaitGroup and the file *)

Lemma live_le ws : (live ws <= length ws)%nat.
Proof. unfold live. apply List.filter_length_le. Qed.

Lemma held_le ws : (length (held ws) <= length ws)%nat.
Proof.
  induction ws as [|x ws IH]; simpl; [lia|].
  unfold held in *. simpl. destruct x; simpl; lia.
Qed.

Lemma pool_size s :
  control_inv fl s -> (length (workers s) <= Z.to_nat (restoreWorkers fl))%nat.
Proof.
  intros [Hpc Hst Hsp Hpool _ _ _ _ _ _].
  destruct (in_startup (pc s)) eqn:E1.
  { destruct (Hst eq_refl) as [-> _]. simpl. lia. }
  destruct (spawning (pc s)) eqn:E2.
  { destruct (pc s); try discriminate. destruct Hpc as (_ & _ & Hi & ->). lia. }
  rewrite (Hpool eq_refl eq_refl). lia.
Qed.

(** X7.  The WaitGroup and the channel are never misused.  In every
    reachable state the WaitGroup counter is the number of workers that
    have not returned, so it lies between 0 and the size of the pool and
    [wg.Done()] never makes it negative; the coordinator sends only on an
    open channel; and [close(ch)] is executed on a channel that is still
    open. *)
Theorem waitgroup_and_channel_used_safely s :
  reachable fl ustr s ->
  wg s = Z.of_nat (live (workers s)) /\
  0 <= wg s <= Z.max 0 (restoreWorkers fl) /\
  (pending (pc s) <> [] -> closed s = false) /\
  (pc s = PClose -> closed s = false).
Proof.
  intros Hr. pose proof (control_inv_reachable s Hr) as Hci.
  pose proof (pool_size s Hci) as Hsize.
  destruct Hci as [_ _ _ _ Hcl _ Hwg _ _ _].
  pose proof (live_le (workers s)).
  split; [exact Hwg|]. split; [lia|]. split.
  - intros Hp. rewrite Hcl. destruct (pc s); try reflexivity; now destruct Hp.
  - intros Hp. now rewrite Hcl, Hp.
Qed.

(** X8.  The coordinator reads at most one record ahead of the pool.  The
    channel being unbuffered, of the accepted records decoded so far all
    but at most [*restoreWorkers + 1] have been finished: one per worker
    may be in progress and one may wait in the send. *)
Theorem at_most_one_record_ahead regex f s :
  regexp_Compile (restorePat fl) = inl regex ->
  os_Open (Arg0 fl) = inl f ->
  reachable fl ustr s ->
  (length (held (workers s)) <= Z.to_nat (restoreWorkers fl))%nat /\
  (length (accepted regex (take (pos s) (records f)))
     <= length (dones (trace s)) + Z.to_nat (restoreWorkers fl) + 1)%nat.
Proof.
  intros Hre Hf Hr.
  pose proof (pool_size s (control_inv_reachable s Hr)) as Hsize.
  destruct (data_inv_reachable s Hr) as [Hd _ _ Hperm _].
  pose proof (held_le (workers s)) as Hh.
  split; [lia|].
  assert (E : the_accepted fl (pos s) = accepted regex (take (pos s) (records f))).
  { unfold the_accepted, the_records. now rewrite Hre, Hf. }
  rewrite <- E, <- Hd, length_app.
  apply Permutation_length in Hperm. rewrite length_app in Hperm.
  assert (length (pending (pc s)) <= 1)%nat by (destruct (pc s); simpl; lia).
  lia.
Qed.

(** X9.  No schedule runs for ever.  Whatever the scheduler and the
    transport do, a run on a backup of [n] records with [W] workers
    takes at most [2 W + 3 n + 8] steps. *)
Theorem runs_are_bounded f acts s :
  os_Open (Arg0 fl) = inl f ->
  run fl ustr acts init = Some s ->
  (length acts <=
     2 * Z.to_nat (restoreWorkers fl) + 3 * length (records f) + 8)%nat.
Proof.
  intros Hf Hrun. pose proof (run_length_bound _ _ _ Hrun) as H.
  unfold fuel at 2 in H. simpl in H. unfold the_records in H.
  rewrite Hf in H. lia.
Qed.

(** X10.  The deferred [f.Close()] runs only when [restoreCommand] returns.
    The backup file is open exactly from the successful [os.Open] to the
    return; so it is closed after a normal return, was never opened when
    the pattern or the open failed, and is still open at every other
    fatal exit, which skips the deferred call. *)
Theorem file_closed_only_on_return s :
  reachable fl ustr s ->
  f_open s = file_in_use (pc s) /\
  (pc s = PReturned -> f_open s = false) /\
  (forall m, In m (fatals (trace s)) ->
     f_open s = match m with FPattern _ | FOpen _ => false | _ => true end).
Proof.
  intros Hr.
  assert (Hf : f_open s = file_in_use (pc s)).
  { revert s Hr.
    apply (reachable_ind (fun s => f_open s = file_in_use (pc s))); [reflexivity|].
    intros s a s' Hr IH Hstep.
    apply exec_step_sound in Hstep as [Hex Hstep].
    destruct Hstep; simpl; rewrite ?IH;
      repeat match goal with H : pc s = _ |- _ => rewrite H; clear H end;
      try reflexivity.
  }
  split; [exact Hf|]. split.
  - intros Hp. now rewrite Hf, Hp.
  - intros m Hm. rewrite Hf.
    destruct (log_inv_reachable s Hr) as [_ _ Hfat _].
    destruct (control_inv_reachable s Hr) as [_ _ _ _ _ _ _ Hj _ _].
    destruct (Hfat m Hm) as [Hx Hm']. destruct m.
    + destruct Hm' as [-> _]. reflexivity.
    + destruct Hm' as [[regex ->] _]. reflexivity.
    + destruct Hm' as (regex & f & -> & _). reflexivity.
    + destruct (pc s); try reflexivity; try discriminate.
      destruct (Hj eq_refl) as [_ Hn]. congruence.
    + destruct Hm' as (regex & f & -> & _). reflexivity.
    + destruct Hm'.
Qed.

(** ** A damaged backup *)

(** X11.  A backup whose record stream is malformed is never reported as
    restored.  Whatever was restored before the damage, no run on it
    reaches the return of [restoreCommand]: the channel is never closed,
    no summary line is logged, and with at least one worker every run
    ends in an exit with status 1. *)
Theorem malformed_stream_never_succeeds f err s :
  os_Open (Arg0 fl) = inl f ->
  stream_end f = Malformed err ->
  reachable fl ustr s ->
  pc s <> PReturned /\
  closed s = false /\
  summaries (trace s) = [] /\
  (1 <= restoreWorkers fl ->
   inevitably fl ustr any_action (fun s' => exited s' = Some 1) init).
Proof.
  intros Hf Hend Hr.
  assert (Hnot : forall s0, reachable fl ustr s0 -> after_eof (pc s0) = false).
  { intros s0 Hr0. destruct (control_inv_reachable s0 Hr0) as [Hpc _ _ _ _ _ _ _ _ _].
    destruct (pc s0); try reflexivity;
      destruct Hpc as (_ & regex & f' & _ & Hf' & He); unfold file_is in Hf';
      congruence. }
  pose proof (Hnot s Hr) as Hn.
  destruct (control_inv_reachable s Hr) as [_ _ _ _ Hcl _ _ _ _ _].
  destruct (log_inv_reachable s Hr) as [Hsum _ _ _].
  split; [intros Hp; now rewrite Hp in Hn|].
  split; [rewrite Hcl; destruct (pc s); try reflexivity; discriminate|].
  split; [destruct (pc s); try exact Hsum; discriminate|].
  intros HW. apply inevitably_intro with (I := reachable fl ustr).
  - intros s0 a s' Hr0 _ Hstep. eapply reachable_step; eauto.
  - intros s0 Hr0. pose proof (control_inv_reachable s0 Hr0) as Hci.
    destruct (exited s0) as [code|] eqn:Hex.
    { left. f_equal. now apply (ci_exit fl s0 Hci). }
    right. apply (can_run_pick any_action refused); unfold any_action; auto.
    apply progress; auto.
    + intros Hp. specialize (Hnot s0 Hr0). now rewrite Hp in Hnot.
    + now apply pool_for_send.
  - apply reachable_init.
Qed.

(** ** A filter that accepts nothing *)

Lemma accepted_take_nil regex l n :
  accepted regex l = [] -> accepted regex (take n l) = [].
Proof.
  unfold accepted. intros H. rewrite <- (take_drop n l), List.filter_app in H.
  now apply app_eq_nil in H.
Qed.

Lemma nothing_received regex f s :
  regexp_Compile (restorePat fl) = inl regex -> os_Open (Arg0 fl) = inl f ->
  accepted regex (records f) = [] ->
  reachable fl ustr s ->
  recvs (trace s) = [] /\ pending (pc s) = [] /\ the_accepted fl (pos s) = [].
Proof.
  intros Hre Hf Hacc Hr. destruct (data_inv_reachable s Hr) as [Hd _ _ _ _].
  assert (E : the_accepted fl (pos s) = []).
  { unfold the_accepted, the_records. rewrite Hre, Hf. now apply accepted_take_nil. }
  rewrite E in Hd. apply app_eq_nil in Hd as [H1 H2]. auto.
Qed.

(** X12.  When no record of the backup matches the pattern the command
    needs no worker.  On a clean input it completes on every schedule,
    whatever [*restoreWorkers] is (zero and negative included); nothing
    is handed over, no request is made, and the summary reports 0
    files. *)
Theorem nothing_accepted_completes_without_workers regex f s :
  clean_input fl regex f ->
  accepted regex (records f) = [] ->
  reachable fl ustr s ->
  recvs (trace s) = [] /\
  requests (trace s) = [] /\
  exited s = None /\
  (pc s = PReturned ->
   exists t',
     trace s = t' ++ [EvLog (LSummary 0 (time_Now t' - time_Now [EvCompile (restorePat fl)]))] /\
     summaries (trace s) = [(0, time_Now t' - time_Now [EvCompile (restorePat fl)])]) /\
  inevitably fl ustr any_action completed init.
Proof.
  intros Hclean Hacc Hr.
  pose proof Hclean as (Hre & Hf & _).
  assert (Hpost : forall s0, reachable fl ustr s0 ->
                    forall u e, ~ In (FPost u e) (fatals (trace s0))).
  { apply (reachable_ind (fun s0 => forall u e, ~ In (FPost u e) (fatals (trace s0)))).
    { intros u e []. }
    intros s0 a s' Hr0 IH Hstep.
    apply exec_step_sound in Hstep as [Hex Hstep].
    destruct Hstep as [ regex' Hp' Hc | err Hp' Hc | regex' f' Hp' Hc | regex' err Hp' Hc
                      | regex' f' Hp' Hc | regex' f' err Hp' Hc
                      | regex' f' i Hp' Hi | regex' f' i Hp' Hi
                      | regex' f' ob Hp' Hl Hm | regex' f' ob Hp' Hl Hm
                      | regex' f' Hp' Hl He' | regex' f' err Hp' Hl He'
                      | Hp' | Hp' Hw0 | Hp'
                      | regex' f' ob w Hp' Hw Hc
                      | w Do ob evs Hw Hbs | w Do ob evs Hw Hbs | w Hw Hc ].
    all: simpl; proj; auto.
    all: try (intros u e Hin; apply in_app_or in Hin as [Hin|Hin];
              [now apply (IH u e) | simpl in Hin; intuition discriminate]).
    all: exfalso; pose proof (holding_received _ _ _ Hr0 Hw) as Hin;
      destruct (nothing_received regex f s0 Hre Hf Hacc Hr0) as (E & _);
      rewrite E in Hin; destruct Hin. }
  destruct (nothing_received regex f s Hre Hf Hacc Hr) as (E1 & E2 & E3).
  destruct (data_inv_reachable s Hr) as [_ _ Hcount _ [Hreq _]].
  destruct (log_inv_reachable s Hr) as [Hsum _ _ _].
  split; [exact E1|]. split.
  { rewrite E1 in Hreq. destruct (requests (trace s)); [reflexivity|simpl in Hreq; lia]. }
  split; [eapply clean_run_alive; eauto|]. split.
  - intros Hp. rewrite Hp in Hsum, Hcount. destruct Hsum as (t' & Ht & Hs').
    rewrite (Hcount eq_refl eq_refl), E3 in Ht. change (wrap_int _) with 0 in Ht.
    exists t'. split; [exact Ht|].
    rewrite Ht, summaries_app, Hs'. reflexivity.
  - apply (completes_when_alive any_action regex f); auto.
    + intros acts0 s0 _ Hrun0. apply Hpost. now exists acts0.
    + apply (can_run_pick any_action refused); unfold any_action; auto.
    + intros s0 Hr0 Hpend.
      destruct (nothing_received regex f s0 Hre Hf Hacc Hr0) as (_ & E & _).
      congruence.
Qed.

(** ** Log lines and finished records *)

(** X13.  Every finished record leaves at most one log line, and exactly
    one under [-n] or [-f].  The NOOP, Restored and error lines together
    are never more than the records finished; with noop or force set
    they are as many, so that the only outcome that leaves no line is a
    409 without force. *)
Theorem log_lines_account_for_finished_records s :
  reachable fl ustr s ->
  (length (noop_paths (trace s)) + length (restored_paths (trace s)) +
     length (failed_paths (trace s)) <= length (dones (trace s)))%nat /\
  (restoreNoop fl = true \/ restoreForce fl = true ->
   (length (noop_paths (trace s)) + length (restored_paths (trace s)) +
      length (failed_paths (trace s)) = length (dones (trace s)))%nat).
Proof.
  revert s.
  apply (reachable_ind (fun s =>
    (length (noop_paths (trace s)) + length (restored_paths (trace s)) +
       length (failed_paths (trace s)) <= length (dones (trace s)))%nat /\
    (restoreNoop fl = true \/ restoreForce fl = true ->
     (length (noop_paths (trace s)) + length (restored_paths (trace s)) +
        length (failed_paths (trace s)) = length (dones (trace s)))%nat))).
  { simpl. split; auto. }
  intros s a s' Hr [IH1 IH2] Hstep.
  apply exec_step_sound in Hstep as [Hex Hstep].
  destruct Hstep as [ regex' Hp' Hc | err Hp' Hc | regex' f' Hp' Hc | regex' err Hp' Hc
                    | regex' f' Hp' Hc | regex' f' err Hp' Hc
                    | regex' f' i Hp' Hi | regex' f' i Hp' Hi
                    | regex' f' ob Hp' Hl Hm | regex' f' ob Hp' Hl Hm
                    | regex' f' Hp' Hl He' | regex' f' err Hp' Hl He'
                    | Hp' | Hp' Hw0 | Hp'
                    | regex' f' ob w Hp' Hw Hc
                    | w Do ob evs Hw Hbs | w Do ob evs Hw Hbs | w Hw Hc ].
  all: simpl; proj; rewrite ?noop_paths_app; simpl; rewrite ?app_nil_r; auto.
  - inversion Hbs; subst; simpl; rewrite ?app_nil_r, ?length_app; simpl;
      (split; [lia|]); intros Hor; specialize (IH2 Hor); try lia.
    destruct Hor; congruence.
  - inversion Hbs; subst; simpl; rewrite ?app_nil_r. auto.
Qed.

(** ** The answer of the server, status by status *)

(** X14.  201 is the only status [restoreFile] takes for a success.  For a
    request that was sent and answered with [status], the call returns
    nil exactly when the status is 201, or is 409 and force is unset;
    the Restored line is logged exactly when it is 201, so that a 200 is
    reported as an error like any other status; and the call returns to
    the worker in every case. *)
Theorem only_201_counts_as_restored Do base path data b status body :
  restoreNoop fl = false ->
  json_Marshal data = inl b ->
  http_NewRequest_err "POST" (URL_String (restoreURL base path)) = None ->
  Do (restoreRequest fl base path b) = Response status body ->
  (snd (restoreFile fl Do base path data) = Ret None <->
     status = 201 \/ (status = 409 /\ restoreForce fl = false)) /\
  (In (EvLog (LRestored path)) (fst (restoreFile fl Do base path data)) <->
     status = 201) /\
  (snd (restoreFile fl Do base path data) <> Ret None ->
   snd (restoreFile fl Do base path data) = Ret (Some (HTTPError path status body))) /\
  requests (fst (restoreFile fl Do base path data)) = [restoreRequest fl base path b].
Proof.
  intros Hn Hm Hq Hd.
  rewrite (restoreFile_answer Do base path data b Hn Hm Hq), Hd.
  destruct (Z.eqb_spec status 201) as [->|H201]; simpl.
  { repeat split; simpl; intuition congruence. }
  destruct (Z.eqb_spec status 409) as [->|H409];
    destruct (restoreForce fl); simpl.
  all: repeat split; simpl; intuition congruence.
Qed.

(** ** Runs against a server that cannot be reached *)

Lemma refused_run acts s :
  restoreNoop fl = false ->
  Forall (buildable ustr) (the_records fl) ->
  Forall refuses acts ->
  run fl ustr acts init = Some s ->
  dones (trace s) = [] /\
  restored_paths (trace s) = [] /\
  failed_paths (trace s) = [].
Proof.
  intros Hn Hb Hall Hrun. revert Hall. revert acts s Hrun.
  apply (run_ind_last (fun acts s =>
           Forall refuses acts ->
           dones (trace s) = [] /\
           restored_paths (trace s) = [] /\
           failed_paths (trace s) = [])).
  { intros _. simpl. repeat split; auto. }
  intros acts s a s' Hrun IH Hstep Hall.
  apply Forall_app in Hall as [Hall Ha].
  destruct (IH Hall) as (IH1 & IH2 & IH3).
  assert (Hr : reachable fl ustr s) by now exists acts.
  apply exec_step_sound in Hstep as [Hex Hstep].
  destruct Hstep as [ regex' Hp' Hc | err Hp' Hc | regex' f' Hp' Hc | regex' err Hp' Hc
                    | regex' f' Hp' Hc | regex' f' err Hp' Hc
                    | regex' f' i Hp' Hi | regex' f' i Hp' Hi
                    | regex' f' ob Hp' Hl Hm | regex' f' ob Hp' Hl Hm
                    | regex' f' Hp' Hl He' | regex' f' err Hp' Hl He'
                    | Hp' | Hp' Hw0 | Hp'
                    | regex' f' ob w Hp' Hw Hc
                    | w Do ob evs Hw Hbs | w Do ob evs Hw Hbs | w Hw Hc ].
  all: simpl; proj; rewrite ?IH1, ?IH2, ?IH3; simpl;
    try (repeat split; reflexivity).
  - (* restoreFile cannot return *)
    exfalso.
    pose proof (holding_decoded _ _ _ Hr Hw) as Hin.
    rewrite List.Forall_forall in Hb. destruct (Hb ob Hin) as (b0 & Hm0 & Hq0).
    inversion Ha as [|? ? Href _]; subst. simpl in Href.
    inversion Hbs; subst; try congruence.
    all: match goal with
         | H : _ ?r = Response _ _ |- _ => destruct (Href r) as [e He]; congruence
         end.
  - inversion Hbs; subst. simpl. repeat split; reflexivity.
Qed.

(** X15.  When the server cannot be reached nothing is restored.  With
    noop unset and records that can be sent, in every run in which the
    transport fails no call of [restoreFile] ever returns: no record is
    finished and neither a Restored nor an error line is logged.  On a
    clean input with something to restore and at least one worker
    [restoreCommand] never returns, and every run ends in an exit with
    status 1. *)
Theorem unreachable_server_restores_nothing regex f acts s :
  restoreNoop fl = false ->
  Forall (buildable ustr) (the_records fl) ->
  clean_input fl regex f ->
  accepted regex (records f) <> [] ->
  1 <= restoreWorkers fl ->
  Forall refuses acts ->
  run fl ustr acts init = Some s ->
  dones (trace s) = [] /\
  restored_paths (trace s) = [] /\
  failed_paths (trace s) = [] /\
  pc s <> PReturned /\
  inevitably fl ustr refuses (fun s' => exited s' = Some 1) init.
Proof.
  intros Hn Hb Hclean Hacc HW Hall Hrun.
  pose proof Hclean as (Hre & Hf & _).
  assert (Hnot : forall acts0 s0, Forall refuses acts0 ->
                   run fl ustr acts0 init = Some s0 -> pc s0 <> PReturned).
  { intros acts0 s0 Hall0 Hrun0 Hp.
    destruct (refused_run acts0 s0 Hn Hb Hall0 Hrun0) as (Hd & _).
    assert (Hr0 : reachable fl ustr s0) by now exists acts0.
    destruct (returned_all_done s0 regex f Hr0 Hp Hre Hf) as (E & Hperm & _).
    rewrite Hd in Hperm. apply Permutation_nil_r in Hperm. congruence. }
  destruct (refused_run acts s Hn Hb Hall Hrun) as (Hd & Hrest & Hfail).
  split; [exact Hd|]. split; [exact Hrest|]. split; [exact Hfail|].
  split; [eapply Hnot; eauto|].
  apply inevitably_intro
    with (I := fun s => exists acts, Forall refuses acts /\ run fl ustr acts init = Some s).
  - intros s0 a s' (acts0 & Hall0 & Hrun0) Ha Hstep.
    exists (acts0 ++ [a]). split.
    + apply Forall_app. split; [exact Hall0|]. now repeat constructor.
    + eapply run_snoc; eauto.
  - intros s0 (acts0 & Hall0 & Hrun0).
    assert (Hr0 : reachable fl ustr s0) by now exists acts0.
    pose proof (control_inv_reachable s0 Hr0) as Hci.
    destruct (exited s0) as [code|] eqn:Hex.
    { left. f_equal. now apply (ci_exit fl s0 Hci). }
    right. apply (can_run_pick refuses refused); simpl; auto.
    + intros _ req. unfold refused. eauto.
    + apply progress; eauto. now apply pool_for_send.
  - exists []. split; [constructor | reflexivity].
Qed.

End Proofs.

(** * Examples

    The theorems above, applied to the three-record backup, the broken
    stream and the file that is not a gzip stream. *)

Lemma reachable_stateAfter fl acts :
  followed fl acts = true ->
  @reachable sampleWorld fl sampleBase (stateAfter fl acts).
Proof.
  unfold followed, stateAfter. intros H. exists acts.
  destruct (@run sampleWorld fl sampleBase acts (@init sampleWorld));
    [reflexivity|discriminate].
Qed.

(** A dry run with force set, a pattern and an expiry: the call only logs. *)
Lemma C4_noop_makes_no_call_witness :
  restoreNoop flagsNoop = true /\
  @restoreFile sampleWorld flagsNoop refused sampleBase "a" (Some "[1]")
    = ([EvLog (LNoop "a")], Ret None) /\
  requests (trace (stateAfter flagsNoop
                     (toDecodeLoop ++ [ACoord; ACoord; ACoord; ACoord; ARecv 1%nat;
                                       AWork 1%nat refused]))) = [].
Proof.
  pose proof (@C4_noop_makes_no_call sampleWorld flagsNoop sampleBase eq_refl)
    as (H1 & _ & H3).
  split; [reflexivity|]. split; [apply H1|].
  apply H3. apply reachable_stateAfter. vm_compute. reflexivity.
Defined.

(** The broken stream, with the default flags: worker 2 has received the
    only record when the coordinator meets the malformed one.  The process
    exits with the record received and not finished, and no request was
    ever made for it. *)
Lemma C1_no_drain_counterexample :
  ~ (forall s, @reachable sampleWorld brokenFlags sampleBase s -> drained_at_exit s).
Proof.
  intros H.
  assert (Hr : @reachable sampleWorld brokenFlags sampleBase afterMalformed).
  { apply reachable_stateAfter. vm_compute. reflexivity. }
  specialize (H _ Hr). unfold drained_at_exit in H.
  assert (Hx : exited afterMalformed <> None) by (vm_compute; discriminate).
  specialize (H Hx). apply Permutation_length in H.
  vm_compute in H. discriminate.
Qed.

(** The same run, step by step: the coordinator meets the malformed record
    while worker 2 holds [a]. *)
Lemma C1_malformed_record_exits_without_drain_witness :
  @reachable sampleWorld brokenFlags sampleBase atMalformed /\
  exited atMalformed = None /\
  pc atMalformed = @PDecode sampleWorld dotStar brokenStream /\
  @exec_step sampleWorld brokenFlags sampleBase ACoord atMalformed = Some afterMalformed /\
  exited afterMalformed = Some 1 /\
  stuck brokenFlags sampleBase afterMalformed /\
  workers afterMalformed = [WRecv; WRecv; WHold itemA; WRecv] /\
  closed afterMalformed = false /\
  dones (trace afterMalformed) = [] /\
  recvs (trace afterMalformed) = [itemA] /\
  summaries (trace afterMalformed) = [] /\
  ~ drained_at_exit afterMalformed.
Proof.
  assert (Hr : @reachable sampleWorld brokenFlags sampleBase atMalformed).
  { apply reachable_stateAfter. vm_compute. reflexivity. }
  assert (Hex : exited atMalformed = None) by (vm_compute; reflexivity).
  assert (Hp : pc atMalformed = @PDecode sampleWorld dotStar brokenStream)
    by (vm_compute; reflexivity).
  assert (Hl : records brokenStream !! pos atMalformed = None)
    by (vm_compute; reflexivity).
  assert (Hstep : @exec_step sampleWorld brokenFlags sampleBase ACoord atMalformed
                  = Some afterMalformed).
  { vm_compute. reflexivity. }
  destruct (@C1_malformed_record_exits_without_drain sampleWorld brokenFlags sampleBase
              atMalformed dotStar brokenStream (ErrMsg "invalid character")
              Hr Hex Hp Hl eq_refl)
    as (s' & Hs' & H1 & _ & H3 & H4 & _ & H6 & _ & H8 & _ & _ & H11 & H12).
  rewrite Hstep in Hs'. injection Hs' as <-.
  split; [exact Hr|]. split; [exact Hex|]. split; [exact Hp|]. split; [exact Hstep|].
  split; [exact H1|]. split; [exact H3|].
  split; [rewrite H4; vm_compute; reflexivity|].
  split; [exact H6|].
  split; [rewrite H8; vm_compute; reflexivity|].
  split; [vm_compute; reflexivity|].
  split; [exact H11|].
  apply H12. vm_compute. discriminate.
Defined.

Lemma run_stateAfter fl acts :
  followed fl acts = true ->
  @run sampleWorld fl sampleBase acts (@init sampleWorld) = Some (stateAfter fl acts).
Proof.
  unfold followed, stateAfter. intros H.
  destruct (@run sampleWorld fl sampleBase acts (@init sampleWorld));
    [reflexivity|discriminate].
Qed.

(** The request for record [a] with the default expiry. *)
Lemma C7_request_carries_expiration_witness :
  In sampleRequest
     (requests (fst (@restoreFile sampleWorld flagsAC created sampleBase "a" (Some "[1]")))) /\
  Method sampleRequest = "POST" /\
  ReqURL sampleRequest = "http://cbfs:8484/.cbfs/backup/restore/a" /\
  @json_Marshal sampleWorld (Some "[1]") = inl (Body sampleRequest) /\
  Header_Get (Hdr sampleRequest) "Content-Type" = "application/json" /\
  Hdr sampleRequest !! "X-Cbfs-Expiration" = Some ["-1"] /\
  Header_Get (Hdr sampleRequest) "X-CBFS-Expiration" = "-1".
Proof.
  assert (Hin : In sampleRequest
     (requests (fst (@restoreFile sampleWorld flagsAC created sampleBase "a" (Some "[1]"))))).
  { vm_compute. left. reflexivity. }
  pose proof (@C7_request_carries_expiration sampleWorld flagsAC created sampleBase
                "a" (Some "[1]") sampleRequest Hin)
    as (H1 & H2 & H3 & H4 & H5 & H6 & H7 & H8 & H9 & H10).
  split; [exact Hin|]. split; [exact H2|].
  split; [rewrite H3; vm_compute; reflexivity|].
  split; [exact H4|]. split; [exact H6|].
  split; [transitivity (Some [Itoa (restoreExpire flagsAC)]);
          [exact H7 | vm_compute; reflexivity]|].
  apply H10. reflexivity.
Defined.

(** Worker 0 holds [a]: a refused connection ends the process; a status
    500 is logged against [a] and the worker is ready for the next record. *)
Lemma C3_transport_error_is_fatal_status_is_per_item_witness :
  @reachable sampleWorld flagsAC sampleBase holdingA /\
  exited holdingA = None /\
  workers holdingA !! 0%nat = Some (WHold itemA) /\
  (exists s',
      @exec_step sampleWorld flagsAC sampleBase (AWork 0%nat refused) holdingA = Some s' /\
      exited s' = Some 1 /\ stuck flagsAC sampleBase s') /\
  (exists s',
      @exec_step sampleWorld flagsAC sampleBase (AWork 0%nat serverError) holdingA = Some s' /\
      exited s' = None /\
      failed_paths (trace s') = ["a"] /\
      length (requests (trace s')) = 1%nat /\
      workers s' = [WRecv] /\
      pc s' = pc holdingA).
Proof.
  assert (Hr : @reachable sampleWorld flagsAC sampleBase holdingA).
  { apply reachable_stateAfter. vm_compute. reflexivity. }
  assert (Hex : exited holdingA = None) by (vm_compute; reflexivity).
  assert (Hw : workers holdingA !! 0%nat = Some (WHold itemA)) by (vm_compute; reflexivity).
  pose proof (@C3_transport_error_is_fatal_status_is_per_item sampleWorld flagsAC
                sampleBase holdingA 0%nat itemA "[1]" Hr Hex Hw eq_refl eq_refl eq_refl)
    as [Hfatal Hitem].
  split; [exact Hr|]. split; [exact Hex|]. split; [exact Hw|]. split.
  - destruct (Hfatal refused (ErrMsg "connection refused") eq_refl)
      as (s' & H1 & H2 & H3 & _).
    exists s'. auto.
  - destruct (Hitem serverError 500 "boom" eq_refl) as (s' & H1 & H2 & H3 & H4 & H5 & _).
    + discriminate.
    + left. discriminate.
    + exists s'. split; [exact H1|]. split; [exact H2|].
      split; [rewrite H3; vm_compute; reflexivity|].
      split; [rewrite H3; vm_compute; reflexivity|].
      split; [rewrite H4; vm_compute; reflexivity|]. exact H5.
Defined.

(** Record [b] does not match the pattern of [flagsAC]: it is decoded and
    dropped; the whole run receives [a] and [c] and counts 2. *)
Lemma C5_unmatched_records_are_dropped_witness :
  @reachable sampleWorld flagsAC sampleBase holdingA /\
  pc holdingA = @PDecode sampleWorld patternAC threeRecords /\
  records threeRecords !! pos holdingA = Some itemB /\
  MiniRE.MatchString patternAC (Path itemB) = false /\
  @exec_step sampleWorld flagsAC sampleBase ACoord holdingA = Some (set_pos 2 holdingA) /\
  recvs (trace doneAC) = [itemA; itemC] /\
  nfiles doneAC = 2 /\
  @accepted (withMiniRE sampleWorld) dotStar (records threeRecords) = records threeRecords.
Proof.
  assert (Hr : @reachable sampleWorld flagsAC sampleBase holdingA).
  { apply reachable_stateAfter. vm_compute. reflexivity. }
  assert (Hex : exited holdingA = None) by (vm_compute; reflexivity).
  assert (Hp : pc holdingA = @PDecode sampleWorld patternAC threeRecords) by (vm_compute; reflexivity).
  assert (Hl : records threeRecords !! pos holdingA = Some itemB) by (vm_compute; reflexivity).
  assert (Hm : MiniRE.MatchString patternAC (Path itemB) = false) by (vm_compute; reflexivity).
  pose proof (@C5_unmatched_records_are_dropped sampleWorld flagsAC sampleBase
                holdingA patternAC threeRecords itemB Hr Hex Hp Hl Hm)
    as (Hstep & Hall & Hdefault).
  assert (Hr' : @reachable sampleWorld flagsAC sampleBase doneAC).
  { apply reachable_stateAfter. vm_compute. reflexivity. }
  destruct (Hall doneAC Hr') as (Hrecv & _ & Hcount & _).
  destruct (Hdefault sampleWorld "backup.gz" (records threeRecords)) as (_ & _ & Hacc).
  split; [exact Hr|]. split; [exact Hp|]. split; [exact Hl|]. split; [exact Hm|].
  split; [rewrite Hstep; vm_compute; reflexivity|].
  split.
  { transitivity (recvs (trace doneAC) ++ pending (pc doneAC)).
    - vm_compute. reflexivity.
    - rewrite Hrecv. vm_compute. reflexivity. }
  split; [|exact Hacc].
  rewrite Hcount by (vm_compute; reflexivity). vm_compute. reflexivity.
Defined.

(** The three-record stream with a pattern that accepts two of them: the
    run ends by logging that it restored 2 files in 9 ticks of the clock,
    counted from the reading 101 taken before the file was opened. *)
Lemma C6_summary_count_and_time_since_line_94_witness :
  @reachable sampleWorld flagsAC sampleBase doneAC /\
  pc doneAC = PReturned /\
  length (records threeRecords) = 3%nat /\
  In (EvLog (LSummary 2 9)) (trace doneAC) /\
  start doneAC = 101 /\
  trace runningBegins = [EvCompile "^a|c$"; EvOpen "backup.gz"] /\
  exists t',
    trace doneAC = t' ++ [EvLog (LSummary 2 (@time_Now sampleWorld t' - 101))] /\
    summaries t' = [] /\
    recvs t' = [itemA; itemC].
Proof.
  assert (Hr : @reachable sampleWorld flagsAC sampleBase doneAC).
  { apply reachable_stateAfter. vm_compute. reflexivity. }
  assert (Hr0 : @reachable sampleWorld flagsAC sampleBase runningBegins).
  { apply reachable_stateAfter. vm_compute. reflexivity. }
  assert (Hp : pc doneAC = PReturned) by (vm_compute; reflexivity).
  assert (Hp0 : pc runningBegins = @PSpawn sampleWorld patternAC threeRecords 0)
    by (vm_compute; reflexivity).
  assert (Hc : @regexp_Compile sampleWorld (restorePat flagsAC) = inl patternAC)
    by (vm_compute; reflexivity).
  assert (Ho : @os_Open sampleWorld (Arg0 flagsAC) = inl threeRecords)
    by (vm_compute; reflexivity).
  assert (Hs : Z.of_nat (length (@accepted sampleWorld patternAC (records threeRecords)))
               < 2 ^ 63) by (vm_compute; reflexivity).
  destruct (@C6_summary_count_and_time_since_line_94 sampleWorld flagsAC sampleBase doneAC
              patternAC threeRecords Hr Hp Hc Ho Hs)
    as (t' & Ht & Hsum & Hrecv & Hstart & _ & _ & Hrun).
  destruct (Hrun runningBegins Hr0 Hp0) as [Ht0 _].
  split; [exact Hr|]. split; [exact Hp|]. split; [reflexivity|].
  split; [vm_compute; repeat (try (left; reflexivity); right)|].
  split; [exact Hstart|]. split; [exact Ht0|].
  exists t'. split; [exact Ht|]. split; [exact Hsum|].
  rewrite Hrecv. vm_compute. reflexivity.
Defined.

(** The same run, with the clock that advances by 1 with every event: the
    Running phase begins at 102, when the file has been opened, but the
    summary counts from 101. *)
Lemma C6_not_since_running_counterexample :
  ~ (forall s0 s,
       @reachable sampleWorld flagsAC sampleBase s0 ->
       pc s0 = @PSpawn sampleWorld patternAC threeRecords 0 ->
       @reachable sampleWorld flagsAC sampleBase s ->
       pc s = PReturned ->
       elapsed_since_running s0 s).
Proof.
  intros H.
  assert (Hr : @reachable sampleWorld flagsAC sampleBase doneAC).
  { apply reachable_stateAfter. vm_compute. reflexivity. }
  assert (Hr0 : @reachable sampleWorld flagsAC sampleBase runningBegins).
  { apply reachable_stateAfter. vm_compute. reflexivity. }
  assert (Hp : pc doneAC = PReturned) by (vm_compute; reflexivity).
  assert (Hp0 : pc runningBegins = @PSpawn sampleWorld patternAC threeRecords 0)
    by (vm_compute; reflexivity).
  assert (Ht : trace doneAC = removelast (trace doneAC) ++ [EvLog (LSummary 2 9)])
    by (vm_compute; reflexivity).
  specialize (H runningBegins doneAC Hr0 Hp0 Hr Hp _ _ _ Ht).
  vm_compute in H. discriminate.
Qed.

Lemma threeRecords_buildable fl :
  Arg0 fl = "backup.gz" -> Forall (@buildable sampleWorld sampleBase) (@the_records sampleWorld fl).
Proof.
  intros H. unfold the_records. rewrite H. simpl.
  repeat constructor; eexists; split; reflexivity.
Qed.

Lemma wholeRunAll_conflict : Forall always409 (wholeRunAll conflict).
Proof.
  unfold wholeRunAll, toFirstHandOver, toDecodeLoop. simpl.
  repeat constructor; intros req; exists "exists"; reflexivity.
Qed.

(** A server that answers 409 to everything: with force every record is
    logged as a failure, without force nothing is logged but the summary;
    both runs complete. *)
Lemma C2_conflict_is_silent_unless_forced_witness :
  (@restoreFile sampleWorld flagsForce conflict sampleBase "a" (Some "[1]")
     = ([EvHTTP (@restoreRequest sampleWorld flagsForce sampleBase "a" "[1]")],
        Ret (Some (HTTPError "a" 409 "exists"))) /\
   failed_paths (trace doneForce) = ["a"; "b"; "c"] /\
   restored_paths (trace doneForce) = [] /\
   Permutation (dones (trace doneForce)) [itemA; itemB; itemC] /\
   inevitably flagsForce sampleBase always409 completed (@init sampleWorld)) /\
  (@restoreFile sampleWorld flagsSkip conflict sampleBase "a" (Some "[1]")
     = ([EvHTTP (@restoreRequest sampleWorld flagsSkip sampleBase "a" "[1]")], Ret None) /\
   failed_paths (trace doneSkip) = [] /\
   restored_paths (trace doneSkip) = [] /\
   completed doneSkip /\
   inevitably flagsSkip sampleBase always409 completed (@init sampleWorld)).
Proof.
  split.
  - assert (Hrun : @run sampleWorld flagsForce sampleBase (wholeRunAll conflict) init
                   = Some doneForce).
    { apply run_stateAfter. vm_compute. reflexivity. }
    pose proof (@C2_conflict_is_silent_unless_forced sampleWorld flagsForce sampleBase
                  (wholeRunAll conflict) doneForce eq_refl
                  (threeRecords_buildable flagsForce eq_refl)
                  wholeRunAll_conflict Hrun)
      as (Hcall & Hrest & Hfail & Hclean).
    destruct (Hcall conflict sampleBase "a" (Some "[1]") "[1]" "exists"
                eq_refl eq_refl eq_refl) as [Hfile _].
    destruct (Hclean dotStar threeRecords) as [Hperm Hinev].
    { repeat split; vm_compute; reflexivity. }
    split; [exact Hfile|].
    split; [rewrite Hfail; vm_compute; reflexivity|].
    split; [exact Hrest|].
    split; [|apply Hinev; vm_compute; discriminate].
    apply Hperm. split; vm_compute; reflexivity.
  - assert (Hrun : @run sampleWorld flagsSkip sampleBase (wholeRunAll conflict) init
                   = Some doneSkip).
    { apply run_stateAfter. vm_compute. reflexivity. }
    pose proof (@C2_conflict_is_silent_unless_forced sampleWorld flagsSkip sampleBase
                  (wholeRunAll conflict) doneSkip eq_refl
                  (threeRecords_buildable flagsSkip eq_refl)
                  wholeRunAll_conflict Hrun)
      as (Hcall & Hrest & Hfail & Hclean).
    destruct (Hcall conflict sampleBase "a" (Some "[1]") "[1]" "exists"
                eq_refl eq_refl eq_refl) as [Hfile _].
    destruct (Hclean dotStar threeRecords) as [_ Hinev].
    { repeat split; vm_compute; reflexivity. }
    split; [exact Hfile|].
    split; [exact Hfail|].
    split; [exact Hrest|].
    split; [split; vm_compute; reflexivity|].
    apply Hinev. vm_compute. discriminate.
Defined.

(** A file that is not a gzip stream: the command exits after the three
    steps of the Init phase, with no worker and nothing decoded. *)
Lemma C8_startup_failure_aborts_before_any_work_witness :
  @startup_failure sampleWorld flagsText /\
  @reachable sampleWorld flagsText sampleBase afterBadGzip /\
  exited afterBadGzip = Some 1 /\
  workers afterBadGzip = [] /\
  pos afterBadGzip = 0%nat /\
  recvs (trace afterBadGzip) = [] /\
  startup_calls (trace afterBadGzip) = [EvCompile ".*"; EvOpen "text.txt"] /\
  inevitably flagsText sampleBase any_action
    (fun s => exited s = Some 1 /\ stuck flagsText sampleBase s) (@init sampleWorld).
Proof.
  assert (Hfail : @startup_failure sampleWorld flagsText).
  { right. right. exists notGzip, (ErrMsg "gzip: invalid header"). split; reflexivity. }
  assert (Hr : @reachable sampleWorld flagsText sampleBase afterBadGzip).
  { apply reachable_stateAfter. vm_compute. reflexivity. }
  pose proof (@C8_startup_failure_aborts_before_any_work sampleWorld flagsText
                sampleBase Hfail) as (Hall & Hinev & _).
  destruct (Hall afterBadGzip Hr) as (_ & Hws & _ & Hpos & Hrecv & _ & _).
  split; [exact Hfail|]. split; [exact Hr|].
  split; [vm_compute; reflexivity|].
  split; [exact Hws|]. split; [exact Hpos|]. split; [exact Hrecv|].
  split; [vm_compute; reflexivity | exact Hinev].
Defined.

(** The whole run of [flagsAC]: worker 0 received [a] then [c], both were
    finished, and the summary came last, after the worker had returned. *)
Lemma C9_received_at_most_once_and_summary_after_join_witness :
  @reachable sampleWorld flagsAC sampleBase doneAC /\
  recv_events (trace doneAC) = [(0%nat, itemA); (0%nat, itemC)] /\
  map snd (recv_events (trace doneAC)) ++ pending (pc doneAC) =
    @accepted sampleWorld patternAC (records threeRecords) /\
  In (EvLog (LSummary 2 9)) (trace doneAC) /\
  exists t',
    trace doneAC = t' ++ [EvLog (LSummary 2 9)] /\
    Permutation (map snd (recv_events t')) (dones t') /\
    closed doneAC = true /\
    workers doneAC = [WExit].
Proof.
  assert (Hr : @reachable sampleWorld flagsAC sampleBase doneAC).
  { apply reachable_stateAfter. vm_compute. reflexivity. }
  assert (Hin : In (EvLog (LSummary 2 9)) (trace doneAC)).
  { vm_compute. repeat (try (left; reflexivity); right). }
  pose proof (@C9_received_at_most_once_and_summary_after_join sampleWorld flagsAC
                sampleBase doneAC patternAC threeRecords Hr eq_refl eq_refl)
    as (Honce & _ & _ & _ & _ & _ & Hsum).
  destruct (Hsum 2 9 Hin) as (t' & Ht & _ & Hperm & Hcl & _ & _).
  split; [exact Hr|].
  split; [vm_compute; reflexivity|].
  split; [rewrite Honce; vm_compute; reflexivity|].
  split; [exact Hin|].
  exists t'. split; [exact Ht|]. split; [exact Hperm|]. split; [exact Hcl|].
  vm_compute. reflexivity.
Defined.

(** Two runs in which an accepted record is dropped.  Without workers the
    command is stuck sending [a], which nobody receives.  With one worker,
    [b] is waiting in the send when the POST for [a] is refused and the
    process ends: [b] was decoded, accepted and counted, and is never
    received. *)
Lemma C9_silent_drop_counterexample :
  ~ (forall s, @reachable sampleWorld flagsNoWorkers sampleBase s ->
               @no_silent_drop sampleWorld flagsNoWorkers sampleBase dotStar threeRecords s) /\
  ~ (forall s, @reachable sampleWorld flagsSkip sampleBase s ->
               @no_silent_drop sampleWorld flagsSkip sampleBase dotStar threeRecords s).
Proof.
  split; intros H.
  - assert (Hr : @reachable sampleWorld flagsNoWorkers sampleBase atFirstSend).
    { apply reachable_stateAfter. vm_compute. reflexivity. }
    specialize (H _ Hr).
    assert (Hstuck : stuck flagsNoWorkers sampleBase atFirstSend).
    { apply blocked_send_stuck.
      - now apply (@control_inv_reachable sampleWorld flagsNoWorkers sampleBase).
      - vm_compute. discriminate.
      - right. simpl. lia. }
    specialize (H Hstuck). vm_compute in H. discriminate.
  - assert (Hr : @reachable sampleWorld flagsSkip sampleBase pendingAtExit).
    { apply reachable_stateAfter. vm_compute. reflexivity. }
    specialize (H _ Hr).
    assert (Hstuck : stuck flagsSkip sampleBase pendingAtExit).
    { apply exited_stuck. vm_compute. discriminate. }
    specialize (H Hstuck). vm_compute in H. discriminate.
Qed.

(** The three-record backup with the default pattern.  With no worker the
    command gets stuck sending [a] and never terminates; with one worker
    every run terminates. *)
Lemma C10_termination_needs_a_worker_witness :
  (restoreWorkers flagsNoWorkers = 0 /\
   @reachable sampleWorld flagsNoWorkers sampleBase atFirstSend /\
   pc atFirstSend = @PSend sampleWorld dotStar threeRecords itemA /\
   ~ terminated atFirstSend /\
   ~ inevitably flagsNoWorkers sampleBase any_action terminated (@init sampleWorld) /\
   inevitably flagsNoWorkers sampleBase any_action
     (fun s => stuck flagsNoWorkers sampleBase s /\ ~ terminated s /\
               exists ob', pc s = @PSend sampleWorld dotStar threeRecords ob')
     (@init sampleWorld)) /\
  (restoreWorkers flagsSkip = 1 /\
   inevitably flagsSkip sampleBase any_action terminated (@init sampleWorld)).
Proof.
  split.
  - pose proof (@C10_termination_needs_a_worker sampleWorld flagsNoWorkers sampleBase
                  dotStar threeRecords 0%nat itemA eq_refl eq_refl eq_refl eq_refl eq_refl)
      as [Hiff Hstuck].
    destruct Hstuck as [Hnever Hinev]; [vm_compute; discriminate|].
    assert (Hr : @reachable sampleWorld flagsNoWorkers sampleBase atFirstSend).
    { apply reachable_stateAfter. vm_compute. reflexivity. }
    split; [reflexivity|]. split; [exact Hr|].
    split; [vm_compute; reflexivity|].
    split; [apply (Hnever atFirstSend Hr)|].
    split; [|exact Hinev].
    intros H. apply Hiff in H. vm_compute in H. now apply H.
  - pose proof (@C10_termination_needs_a_worker sampleWorld flagsSkip sampleBase
                  dotStar threeRecords 0%nat itemA eq_refl eq_refl eq_refl eq_refl eq_refl)
      as [Hiff _].
    split; [reflexivity|]. apply Hiff. vm_compute. discriminate.
Defined.

(** ** The further properties, on the same backups *)

Lemma wholeRunAll_answers (Do : Request -> HttpResult) st body :
  (forall req, Do req = Response st body) ->
  Forall responds (wholeRunAll Do) /\
  (st = 201 -> Forall always201 (wholeRunAll Do)).
Proof.
  intros HDo. unfold wholeRunAll, toFirstHandOver, toDecodeLoop. simpl. split.
  - repeat constructor; intros req; exists st, body; apply HDo.
  - intros ->. repeat constructor; intros req; exists body; apply HDo.
Qed.

Lemma backup_clean fl regex :
  Arg0 fl = "backup.gz" -> MiniRE.Compile (restorePat fl) = inl regex ->
  @clean_input sampleWorld fl regex threeRecords.
Proof.
  intros Ha Hc. unfold clean_input. simpl. rewrite Ha, Hc. simpl. repeat split.
Qed.

(** A server that answers 500 to everything: the run completes, the three
    records are finished and no diagnostic is printed. *)
Lemma statuses_never_abort_witness :
  Forall responds (wholeRunAll serverError) /\
  exited doneErrors = None /\
  fatals (trace doneErrors) = [] /\
  Permutation (dones (trace doneErrors)) [itemA; itemB; itemC] /\
  inevitably flagsSkip sampleBase responds completed (@init sampleWorld).
Proof.
  assert (Hall : Forall responds (wholeRunAll serverError)).
  { apply (wholeRunAll_answers serverError 500 "boom"). reflexivity. }
  assert (Hrun : @run sampleWorld flagsSkip sampleBase (wholeRunAll serverError) init
                 = Some doneErrors).
  { apply run_stateAfter. vm_compute. reflexivity. }
  assert (Hclean : @clean_input sampleWorld flagsSkip dotStar threeRecords).
  { apply backup_clean; vm_compute; reflexivity. }
  assert (HW : 1 <= restoreWorkers flagsSkip) by (simpl; lia).
  destruct (@statuses_never_abort sampleWorld flagsSkip sampleBase dotStar threeRecords
              (wholeRunAll serverError) doneErrors Hclean HW Hall Hrun)
    as (H1 & H2 & H3 & H4).
  split; [exact Hall|]. split; [exact H1|]. split; [exact H2|].
  split; [|exact H4].
  apply H3. split; vm_compute; reflexivity.
Defined.

(** A server that creates everything: when the run has returned the three
    records are logged as restored, with three requests. *)
Lemma created_run_logs_every_record_witness :
  Forall always201 (wholeRunAll created) /\
  pc doneCreated = PReturned /\
  failed_paths (trace doneCreated) = [] /\
  Permutation (restored_paths (trace doneCreated)) ["a"; "b"; "c"] /\
  length (requests (trace doneCreated)) = 3%nat.
Proof.
  assert (Hall : Forall always201 (wholeRunAll created)).
  { apply (wholeRunAll_answers created 201 "ok"); reflexivity. }
  assert (Hrun : @run sampleWorld flagsSkip sampleBase (wholeRunAll created) init
                 = Some doneCreated).
  { apply run_stateAfter. vm_compute. reflexivity. }
  assert (Hre : @regexp_Compile sampleWorld (restorePat flagsSkip) = inl dotStar).
  { vm_compute. reflexivity. }
  assert (Hp : pc doneCreated = PReturned) by (vm_compute; reflexivity).
  destruct (@created_run_logs_every_record sampleWorld flagsSkip sampleBase dotStar
              threeRecords (wholeRunAll created) doneCreated eq_refl
              (threeRecords_buildable flagsSkip eq_refl) Hre eq_refl Hall Hrun)
    as (H1 & _ & H3).
  destruct (H3 Hp) as [H4 H5].
  split; [exact Hall|]. split; [exact Hp|]. split; [exact H1|].
  split; [exact H4|]. rewrite H5. vm_compute. reflexivity.
Defined.

(** A dry run against a server that refuses every connection: the record
    is logged as a NOOP and the run completes. *)
Lemma noop_run_logs_intent_and_completes_witness :
  restoreNoop flagsNoop = true /\
  noop_paths (trace doneNoop) = map Path (dones (trace doneNoop)) /\
  restored_paths (trace doneNoop) = [] /\
  failed_paths (trace doneNoop) = [] /\
  exited doneNoop = None /\
  Permutation (noop_paths (trace doneNoop)) ["a"] /\
  inevitably flagsNoop sampleBase any_action completed (@init sampleWorld).
Proof.
  assert (Hrun : @run sampleWorld flagsNoop sampleBase noopRun init = Some doneNoop).
  { apply run_stateAfter. vm_compute. reflexivity. }
  assert (Hclean : @clean_input sampleWorld flagsNoop patternA threeRecords).
  { apply backup_clean; vm_compute; reflexivity. }
  assert (HW : 1 <= restoreWorkers flagsNoop) by (simpl; lia).
  destruct (@noop_run_logs_intent_and_completes sampleWorld flagsNoop sampleBase patternA
              threeRecords noopRun doneNoop eq_refl Hclean HW Hrun)
    as (H1 & H2 & H3 & H4 & H5 & H6).
  split; [reflexivity|]. split; [exact H1|]. split; [exact H2|]. split; [exact H3|].
  split; [exact H4|]. split; [|exact H6].
  apply H5. vm_compute. reflexivity.
Defined.

(** A record whose metadata is cut short: [json.Marshal] fails, the worker
    logs the error and is back at the receive, whatever the server is. *)
Lemma local_failure_is_logged_without_request_witness :
  exited holdingCutShort = None /\
  workers holdingCutShort !! 0%nat = Some (WHold cutShort) /\
  @restoreFile strictWorld flagsSkip refused sampleBase "d" (Some "[1,")
    = ([], Ret (Some (ErrMsg "unexpected end of JSON input"))) /\
  @exec_step strictWorld flagsSkip sampleBase (AWork 0%nat refused) holdingCutShort =
    Some (set_workers (<[0%nat := WRecv]> (workers holdingCutShort))
            (emit [EvLog (LError "d" (ErrMsg "unexpected end of JSON input"));
                   EvDone 0%nat cutShort] holdingCutShort)) /\
  @exec_step strictWorld flagsSkip sampleBase (AWork 0%nat created) holdingCutShort =
    @exec_step strictWorld flagsSkip sampleBase (AWork 0%nat refused) holdingCutShort.
Proof.
  assert (Hex : exited holdingCutShort = None) by (vm_compute; reflexivity).
  assert (Hw : workers holdingCutShort !! 0%nat = Some (WHold cutShort))
    by (vm_compute; reflexivity).
  destruct (@local_failure_is_logged_without_request strictWorld flagsSkip sampleBase
              holdingCutShort 0%nat cutShort (ErrMsg "unexpected end of JSON input")
              refused Hex Hw eq_refl (or_introl eq_refl))
    as (H1 & H2 & H3).
  split; [exact Hex|]. split; [exact Hw|]. split; [exact H1|]. split; [exact H2|].
  apply H3.
Defined.

(** Worker 0 of the one-worker run, while it holds record [a]. *)
Lemma worker_finishes_before_next_receive_witness :
  @reachable sampleWorld flagsAC sampleBase holdingA /\
  recvs_of 0 (trace holdingA) =
    dones_of 0 (trace holdingA) ++ holding (workers holdingA) 0.
Proof.
  assert (Hr : @reachable sampleWorld flagsAC sampleBase holdingA).
  { apply reachable_stateAfter. vm_compute. reflexivity. }
  split; [exact Hr|].
  apply (@worker_finishes_before_next_receive sampleWorld flagsAC sampleBase
           holdingA 0%nat Hr).
Defined.

(** The one-worker run finishes [a] and then [c], as they come in the
    backup. *)
Lemma single_worker_keeps_stream_order_witness :
  restoreWorkers flagsAC = 1 /\
  @reachable sampleWorld flagsAC sampleBase doneAC /\
  recvs (trace doneAC) = dones (trace doneAC) ++ held (workers doneAC) /\
  dones (trace doneAC) = [itemA; itemC].
Proof.
  assert (Hr : @reachable sampleWorld flagsAC sampleBase doneAC).
  { apply reachable_stateAfter. vm_compute. reflexivity. }
  assert (Hre : @regexp_Compile sampleWorld (restorePat flagsAC) = inl patternAC).
  { vm_compute. reflexivity. }
  destruct (@single_worker_keeps_stream_order sampleWorld flagsAC sampleBase patternAC
              threeRecords doneAC eq_refl Hre eq_refl Hr) as (H1 & H2).
  split; [reflexivity|]. split; [exact Hr|]. split; [exact H1|].
  rewrite H2; vm_compute; reflexivity.
Defined.

(** While worker 0 holds [a]: the counter is 1 and the channel is open. *)
Lemma waitgroup_and_channel_used_safely_witness :
  @reachable sampleWorld flagsAC sampleBase holdingA /\
  wg holdingA = Z.of_nat (live (workers holdingA)) /\
  0 <= wg holdingA <= Z.max 0 (restoreWorkers flagsAC) /\
  (pending (pc holdingA) <> [] -> closed holdingA = false) /\
  (pc holdingA = PClose -> closed holdingA = false).
Proof.
  assert (Hr : @reachable sampleWorld flagsAC sampleBase holdingA).
  { apply reachable_stateAfter. vm_compute. reflexivity. }
  split; [exact Hr|].
  apply (@waitgroup_and_channel_used_safely sampleWorld flagsAC sampleBase holdingA Hr).
Defined.

(** While worker 0 holds [a], one accepted record is decoded and none is
    finished. *)
Lemma at_most_one_record_ahead_witness :
  @reachable sampleWorld flagsAC sampleBase holdingA /\
  (length (held (workers holdingA)) <= Z.to_nat (restoreWorkers flagsAC))%nat /\
  (length (@accepted sampleWorld patternAC (take (pos holdingA) (records threeRecords)))
     <= length (dones (trace holdingA)) + Z.to_nat (restoreWorkers flagsAC) + 1)%nat.
Proof.
  assert (Hr : @reachable sampleWorld flagsAC sampleBase holdingA).
  { apply reachable_stateAfter. vm_compute. reflexivity. }
  assert (Hre : @regexp_Compile sampleWorld (restorePat flagsAC) = inl patternAC).
  { vm_compute. reflexivity. }
  split; [exact Hr|].
  apply (@at_most_one_record_ahead sampleWorld flagsAC sampleBase patternAC threeRecords
           holdingA Hre eq_refl Hr).
Defined.

(** The whole one-worker run takes 17 steps, the bound being 19. *)
Lemma runs_are_bounded_witness :
  @run sampleWorld flagsAC sampleBase (wholeRunAC created) init = Some doneAC /\
  (length (wholeRunAC created) <=
     2 * Z.to_nat (restoreWorkers flagsAC) + 3 * length (records threeRecords) + 8)%nat.
Proof.
  assert (Hrun : @run sampleWorld flagsAC sampleBase (wholeRunAC created) init
                 = Some doneAC).
  { apply run_stateAfter. vm_compute. reflexivity. }
  split; [exact Hrun|].
  apply (@runs_are_bounded sampleWorld flagsAC sampleBase threeRecords
           (wholeRunAC created) doneAC eq_refl Hrun).
Defined.

(** After the exit on the malformed record the file is still open; after
    the return of a whole run it is closed. *)
Lemma file_closed_only_on_return_witness :
  @reachable sampleWorld brokenFlags sampleBase afterMalformed /\
  f_open afterMalformed = file_in_use (pc afterMalformed) /\
  f_open afterMalformed = true.
Proof.
  assert (Hr : @reachable sampleWorld brokenFlags sampleBase afterMalformed).
  { apply reachable_stateAfter. vm_compute. reflexivity. }
  destruct (@file_closed_only_on_return sampleWorld brokenFlags sampleBase
              afterMalformed Hr) as (H1 & _ & H3).
  split; [exact Hr|]. split; [exact H1|].
  apply (H3 (FRead (ErrMsg "invalid character"))).
  vm_compute. left. reflexivity.
Defined.

(** The broken stream with the default flags. *)
Lemma malformed_stream_never_succeeds_witness :
  @os_Open sampleWorld (Arg0 brokenFlags) = inl brokenStream /\
  @reachable sampleWorld brokenFlags sampleBase afterMalformed /\
  pc afterMalformed <> PReturned /\
  closed afterMalformed = false /\
  summaries (trace afterMalformed) = [] /\
  inevitably brokenFlags sampleBase any_action (fun s' => exited s' = Some 1)
    (@init sampleWorld).
Proof.
  assert (Hr : @reachable sampleWorld brokenFlags sampleBase afterMalformed).
  { apply reachable_stateAfter. vm_compute. reflexivity. }
  destruct (@malformed_stream_never_succeeds sampleWorld brokenFlags sampleBase
              brokenStream (ErrMsg "invalid character") afterMalformed
              eq_refl eq_refl Hr) as (H1 & H2 & H3 & H4).
  split; [reflexivity|]. split; [exact Hr|]. split; [exact H1|]. split; [exact H2|].
  split; [exact H3|]. apply H4. simpl. lia.
Defined.

(** No record matches [^z]: without any worker the run completes in eleven
    steps of the coordinator and reports 0 files. *)
Lemma nothing_accepted_completes_without_workers_witness :
  @accepted sampleWorld patternZ (records threeRecords) = [] /\
  restoreWorkers flagsNothing = 0 /\
  @reachable sampleWorld flagsNothing sampleBase doneNothing /\
  recvs (trace doneNothing) = [] /\
  requests (trace doneNothing) = [] /\
  exited doneNothing = None /\
  summaries (trace doneNothing) = [(0, 1)] /\
  inevitably flagsNothing sampleBase any_action completed (@init sampleWorld).
Proof.
  assert (Hr : @reachable sampleWorld flagsNothing sampleBase doneNothing).
  { apply reachable_stateAfter. vm_compute. reflexivity. }
  assert (Hclean : @clean_input sampleWorld flagsNothing patternZ threeRecords).
  { apply backup_clean; vm_compute; reflexivity. }
  assert (Hacc : @accepted sampleWorld patternZ (records threeRecords) = [])
    by (vm_compute; reflexivity).
  destruct (@nothing_accepted_completes_without_workers sampleWorld flagsNothing
              sampleBase patternZ threeRecords doneNothing Hclean Hacc Hr)
    as (H1 & H2 & H3 & H4 & H5).
  split; [exact Hacc|]. split; [reflexivity|]. split; [exact Hr|].
  split; [exact H1|]. split; [exact H2|]. split; [exact H3|]. split; [|exact H5].
  vm_compute. reflexivity.
Defined.

(** With force, three records answered 409: three error lines. *)
Lemma log_lines_account_for_finished_records_witness :
  @reachable sampleWorld flagsForce sampleBase doneForce /\
  restoreForce flagsForce = true /\
  (length (noop_paths (trace doneForce)) + length (restored_paths (trace doneForce)) +
     length (failed_paths (trace doneForce)) = length (dones (trace doneForce)))%nat.
Proof.
  assert (Hr : @reachable sampleWorld flagsForce sampleBase doneForce).
  { apply reachable_stateAfter. vm_compute. reflexivity. }
  destruct (@log_lines_account_for_finished_records sampleWorld flagsForce sampleBase
              doneForce Hr) as (_ & H2).
  split; [exact Hr|]. split; [reflexivity|].
  apply H2. right. reflexivity.
Defined.

(** A 200 is returned to the worker as an error, and logs nothing. *)
Lemma only_201_counts_as_restored_witness :
  okNotCreated (@restoreRequest sampleWorld flagsAC sampleBase "a" "[1]")
    = Response 200 "ok" /\
  snd (@restoreFile sampleWorld flagsAC okNotCreated sampleBase "a" (Some "[1]"))
    = Ret (Some (HTTPError "a" 200 "ok")) /\
  ~ In (EvLog (LRestored "a"))
       (fst (@restoreFile sampleWorld flagsAC okNotCreated sampleBase "a" (Some "[1]"))).
Proof.
  destruct (@only_201_counts_as_restored sampleWorld flagsAC okNotCreated sampleBase "a"
              (Some "[1]") "[1]" 200 "ok" eq_refl eq_refl eq_refl eq_refl)
    as (H1 & H2 & H3 & _).
  split; [reflexivity|]. split.
  - apply H3. intros H. apply H1 in H. destruct H as [H|[H _]]; discriminate.
  - intros H. apply H2 in H. discriminate.
Defined.

(** The first request is refused: the process exits with record [a]
    unfinished and nothing logged. *)
Lemma unreachable_server_restores_nothing_witness :
  Forall refuses firstRequestRefused /\
  @run sampleWorld flagsSkip sampleBase firstRequestRefused init = Some afterRefusal /\
  dones (trace afterRefusal) = [] /\
  restored_paths (trace afterRefusal) = [] /\
  failed_paths (trace afterRefusal) = [] /\
  pc afterRefusal <> PReturned /\
  inevitably flagsSkip sampleBase refuses (fun s' => exited s' = Some 1)
    (@init sampleWorld).
Proof.
  assert (Hall : Forall refuses firstRequestRefused).
  { unfold firstRequestRefused, toFirstHandOver, toDecodeLoop. simpl.
    repeat constructor; intros req; eexists; reflexivity. }
  assert (Hrun : @run sampleWorld flagsSkip sampleBase firstRequestRefused init
                 = Some afterRefusal).
  { apply run_stateAfter. vm_compute. reflexivity. }
  assert (Hclean : @clean_input sampleWorld flagsSkip dotStar threeRecords).
  { apply backup_clean; vm_compute; reflexivity. }
  assert (Hacc : @accepted sampleWorld dotStar (records threeRecords) <> [])
    by (vm_compute; discriminate).
  assert (HW : 1 <= restoreWorkers flagsSkip) by (simpl; lia).
  destruct (@unreachable_server_restores_nothing sampleWorld flagsSkip sampleBase
              dotStar threeRecords firstRequestRefused afterRefusal eq_refl
              (threeRecords_buildable flagsSkip eq_refl) Hclean Hacc HW Hall Hrun)
    as (H1 & H2 & H3 & H4 & H5).
  split; [exact Hall|]. split; [exact Hrun|]. split; [exact H1|]. split; [exact H2|].
  split; [exact H3|]. split; [exact H4|exact H5].
Defined.
